(** * Asynchronous Task Runner: the orchestration core of [taskRunner.js]

    A shallow embedding of the unit-of-work executors (callback, Promise and
    async/await conventions) and of the batch policies (sequential, parallel,
    race) over a small deterministic model of the JavaScript job machinery:
    a promise store, a microtask queue and a timer queue on a simulated
    clock that only advances when a timer fires.  Synchronous code and
    microtasks take no simulated time, and a timer of delay 0 fires at the
    instant it was armed, after the microtasks queued before it.  Timers
    due at the same instant fire in the order they were armed. *)

From Stdlib Require Import ZArith String Ascii List Bool Lia DecimalString.
From stdpp Require Import base list.
Import ListNotations.

Set Warnings "-register-all".
Local Open Scope string_scope.
Local Open Scope list_scope.
Local Open Scope Z_scope.

(** ** JavaScript values *)

(** Values as [JSON.parse] produces them, plus [undefined].  Numbers are the
    integers; an object is the list of its own properties. *)
Inductive value : Type :=
| VUndefined
| VNull
| VBool (b : bool)
| VNum (n : Z)
| VStr (s : string)
| VArr (items : list value)
| VObj (fields : list (string * value)).

Definition dquote : string := String "034"%char EmptyString.

Definition string_of_Z (n : Z) : string := NilZero.string_of_int (Z.to_int n).

(** [String(v)], as a template literal applies it. *)
Fixpoint toString (v : value) : string :=
  match v with
  | VUndefined => "undefined"
  | VNull => "null"
  | VBool true => "true"
  | VBool false => "false"
  | VNum n => string_of_Z n
  | VStr s => s
  | VArr items =>
      String.concat ","
        (List.map (fun x => match x with
                            | VUndefined | VNull => EmptyString
                            | _ => toString x
                            end) items)
  | VObj _ => "[object Object]"
  end.

(** Truthiness, as [!v] and [a || b] test it. *)
Definition truthy (v : value) : bool :=
  match v with
  | VUndefined | VNull => false
  | VBool b => b
  | VNum n => negb (n =? 0)
  | VStr EmptyString => false
  | VStr _ => true
  | VArr _ | VObj _ => true
  end.

Definition typeof (v : value) : string :=
  match v with
  | VUndefined => "undefined"
  | VNull => "object"
  | VBool _ => "boolean"
  | VNum _ => "number"
  | VStr _ => "string"
  | VArr _ | VObj _ => "object"
  end.

Fixpoint lookup_field (k : string) (fs : list (string * value)) : value :=
  match fs with
  | [] => VUndefined
  | (k', v) :: fs' => if String.eqb k k' then v else lookup_field k fs'
  end.

(** [o.k] on a value that is neither [null] nor [undefined] (every property
    read of [taskRunner.js] comes after the [!task] test of [validateTask]):
    an absent property reads as [undefined]. *)
Definition get (o : value) (k : string) : value :=
  match o with
  | VObj fs => lookup_field k fs
  | VArr items =>
      if String.eqb k "length" then VNum (Z.of_nat (length items)) else VUndefined
  | VStr s =>
      if String.eqb k "length" then VNum (Z.of_nat (String.length s)) else VUndefined
  | _ => VUndefined
  end.

(** [v === 'lit'] against a string literal. *)
Definition strict_eq_str (v : value) (lit : string) : bool :=
  match v with
  | VStr s => String.eqb s lit
  | _ => false
  end.

(** [a || b]. *)
Definition js_or (a b : value) : value := if truthy a then a else b.

Fixpoint digits_value (s : string) (acc : Z) : option Z :=
  match s with
  | EmptyString => Some acc
  | String c s' =>
      let n := Z.of_nat (nat_of_ascii c) in
      if (48 <=? n) && (n <=? 57) then digits_value s' (10 * acc + (n - 48))
      else None
  end.

(** [Number(v)]; [None] is [NaN].  Of the numeric spellings of a string only
    plain decimal digits are read; an array or object goes through its
    string form. *)
Definition toNumber (v : value) : option Z :=
  match v with
  | VUndefined => None
  | VNull => Some 0
  | VBool b => Some (if b then 1 else 0)
  | VNum n => Some n
  | VStr s => digits_value s 0
  | VArr _ | VObj _ => digits_value (toString v) 0
  end.

(** The delay a timer is armed with: a negative or [NaN] delay counts as 0. *)
Definition delayMs (v : value) : Z :=
  match toNumber v with
  | Some n => Z.max 0 n
  | None => 0
  end.

(** ** Errors *)

(** The two custom error classes, the plain [Error] of the batch guards and
    the built-in [TypeError]. *)
Inductive error : Type :=
| Error (message : string)
| TypeError (message : string)
| TaskProcessingError (message : string) (taskId taskName : value)
| TaskValidationError (message : string) (task : value).

Definition error_message (e : error) : string :=
  match e with
  | Error m | TypeError m | TaskProcessingError m _ _ | TaskValidationError m _ => m
  end.

Definition error_name (e : error) : string :=
  match e with
  | Error _ => "Error"
  | TypeError _ => "TypeError"
  | TaskProcessingError _ _ _ => "TaskProcessingError"
  | TaskValidationError _ _ => "TaskValidationError"
  end.

(** The error taxonomy of the core: validation failure or processing failure. *)
Definition is_validation (e : error) : bool :=
  match e with TaskValidationError _ _ => true | _ => false end.

Definition is_processing (e : error) : bool :=
  match e with TaskProcessingError _ _ _ => true | _ => false end.

Definition taxonomy (e : error) : bool := is_validation e || is_processing e.

Inductive result (A : Type) : Type :=
| Ok (a : A)
| Throw (e : error).
Arguments Ok {A} a.
Arguments Throw {A} e.

(** ** Validation and the success summary *)

Definition processing_message (task : value) : string :=
  ("Cannot process task " ++ dquote ++ toString (get task "name") ++ dquote
    ++ " - simulated error for demonstration")%string.

Definition validateTask (task : value) : result unit :=
  if negb (truthy task) || negb (String.eqb (typeof task) "object") then
    Throw (TaskValidationError "Task must be an object" task)
  else if negb (truthy (get task "id")) || negb (truthy (get task "name")) then
    Throw (TaskValidationError "Task must have id and name properties" task)
  else if strict_eq_str (get task "type") "error" then
    Throw (TaskProcessingError (processing_message task)
             (get task "id") (get task "name"))
  else Ok tt.

(** [const duration = task.duration || 300]. *)
Definition duration_of (task : value) : value :=
  js_or (get task "duration") (VNum 300).

(** [`Task "${task.name}" (ID: ${task.id}) completed successfully in ${duration}ms`]. *)
Definition summary (task duration : value) : string :=
  ("Task " ++ dquote ++ toString (get task "name") ++ dquote
    ++ " (ID: " ++ toString (get task "id") ++ ") completed successfully in "
    ++ toString duration ++ "ms")%string.

(** ** The job machinery: promises, microtasks, timers *)

Inductive outcome : Type :=
| Fulfilled (v : value)
| Rejected (e : error).

Inductive convention : Type := Callback | Promise | Async.

(** Error-first callbacks [(error, result) => ...], as closures with their
    captured variables.  [CB_handler] is the caller's completion handler;
    [CB_next] is the arrow function that [processNext] hands to
    [processTaskCallback], closed over [tasks], [index], [results] and the
    caller's [callback]. *)
Inductive callback : Type :=
| CB_handler
| CB_next (tasks : list value) (index : nat) (results : list value) (k : callback).

(** The functions handed to [setTimeout]. *)
Inductive timer_cb : Type :=
| T_deferred (task : value) (cb : callback)
| T_callbackDone (task duration : value) (cb : callback)
| T_promiseDone (task duration : value) (p : nat)
| T_delay (p : nat)
| T_asyncTasks (task : value) (p : nat).

(** The timers that simulate processing (all but the zero-delay deferral of
    the callback convention).  [T_asyncTasks] is the timer of the Promise
    executor of [asyncTasks.js]. *)
Definition processing_delay (cb : timer_cb) : bool :=
  match cb with
  | T_deferred _ _ => false
  | _ => true
  end.

(** Suspended async functions: the code after the pending [await]. *)
Inductive frame : Type :=
| F_processTaskAsync (task duration : value) (self : nat)
| F_processTasksPromises (rest results : list value) (self : nat)
| F_processTasksAsyncAwait (rest results : list value) (self : nat)
| F_processTasksParallel (self : nat)
| F_processTasksRace (self : nat)
| F_processTasksParallelAsync (self : nat)
| F_processTasksRaceAsync (self : nat).

(** What is registered on a promise with [then]: the resumption of an
    [await], an element of [Promise.all] (result promise, bookkeeping
    record, position), or a contender of [Promise.race]. *)
Inductive reaction : Type :=
| R_await (f : frame)
| R_all (res agg idx : nat)
| R_race (res : nat).

(** A promise; a settled one remembers the simulated instant it settled at. *)
Inductive cell : Type :=
| Pending (reactions : list reaction)
| Settled (at_ms : Z) (o : outcome).

(** The [values] array and [remainingElementsCount] of one [Promise.all]. *)
Record agg : Type := mkAgg { agg_values : list value; agg_remaining : nat }.

Record timer : Type := mkTimer { t_due : Z; t_cb : timer_cb }.

(** What an observer of a run sees, in order. *)
Inductive event : Type :=
| E_call (c : convention) (task : value)
| E_setTimeout (cb : timer_cb) (ms : Z)
| E_handler (at_ms : Z) (err : option error) (res : value)
| E_console_log (s : string)
| E_console_error (s : string).

Record state : Type := mkState {
  now : Z;
  store : list cell;
  aggs : list agg;
  timers : list timer;
  micro : list (reaction * outcome);
  trace : list event
}.

Definition init (t0 : Z) : state := mkState t0 [] [] [] [] [].

(** *** A state monad for the synchronous part of a call *)

Definition M (A : Type) : Type := state -> A * state.

Definition ret {A} (a : A) : M A := fun s => (a, s).

Definition bind {A B} (m : M A) (k : A -> M B) : M B :=
  fun s => let (a, s') := m s in k a s'.

Notation "x <- m ;; k" := (bind m (fun x => k))
  (at level 90, m at next level, right associativity).
Notation "m ;;; k" := (bind m (fun _ => k))
  (at level 90, right associativity).

Definition emit (e : event) : M unit :=
  fun s => (tt, mkState (now s) (store s) (aggs s) (timers s) (micro s) (trace s ++ [e])).

Definition newPromise : M nat :=
  fun s => (length (store s),
            mkState (now s) (store s ++ [Pending []]) (aggs s) (timers s) (micro s) (trace s)).

(** [resolve(v)] / [reject(e)]: settles a pending promise and queues its
    reactions; a no-op on a promise already settled. *)
Definition settle (p : nat) (o : outcome) : M unit :=
  fun s =>
    match store s !! p with
    | Some (Pending rs) =>
        (tt, mkState (now s) (<[p := Settled (now s) o]> (store s)) (aggs s) (timers s)
               (micro s ++ List.map (fun r => (r, o)) rs) (trace s))
    | _ => (tt, s)
    end.

(** [p.then(...)]: on a settled promise the reaction job is queued at once. *)
Definition subscribe (p : nat) (r : reaction) : M unit :=
  fun s =>
    match store s !! p with
    | Some (Pending rs) =>
        (tt, mkState (now s) (<[p := Pending (rs ++ [r])]> (store s)) (aggs s) (timers s)
               (micro s) (trace s))
    | Some (Settled _ o) =>
        (tt, mkState (now s) (store s) (aggs s) (timers s) (micro s ++ [(r, o)]) (trace s))
    | None => (tt, s)
    end.

Definition setTimeout (cb : timer_cb) (ms : value) : M unit :=
  fun s =>
    (tt, mkState (now s) (store s) (aggs s)
           (timers s ++ [mkTimer (now s + delayMs ms) cb]) (micro s)
           (trace s ++ [E_setTimeout cb (delayMs ms)])).

Definition newAgg (n : nat) : M nat :=
  fun s => (length (aggs s),
            mkState (now s) (store s) (aggs s ++ [mkAgg (replicate n VUndefined) n])
              (timers s) (micro s) (trace s)).

Fixpoint mapM {A B} (f : A -> M B) (l : list A) : M (list B) :=
  match l with
  | [] => ret []
  | x :: l' => y <- f x ;; ys <- mapM f l' ;; ret (y :: ys)
  end.

Fixpoint iforM_ {A} (f : nat -> A -> M unit) (i : nat) (l : list A) : M unit :=
  match l with
  | [] => ret tt
  | x :: l' => f i x ;;; iforM_ f (S i) l'
  end.

(** [Promise.race(ps)] over native promises. *)
Definition Promise_race (ps : list nat) : M nat :=
  res <- newPromise ;;
  iforM_ (fun _ p => subscribe p (R_race res)) 0 ps ;;;
  ret res.

(** [Promise.all(ps)] over native promises; an empty list resolves at once. *)
Definition Promise_all (ps : list nat) : M nat :=
  res <- newPromise ;;
  a <- newAgg (length ps) ;;
  iforM_ (fun i p => subscribe p (R_all res a i)) 0 ps ;;;
  (if Nat.eqb (length ps) 0 then settle res (Fulfilled (VArr [])) else ret tt) ;;;
  ret res.

(** The element and rejection handlers of [Promise.all]. *)
Definition all_element (res a idx : nat) (o : outcome) : M unit :=
  match o with
  | Rejected e => settle res (Rejected e)
  | Fulfilled v =>
      fun s =>
        match aggs s !! a with
        | Some g =>
            let values := <[idx := v]> (agg_values g) in
            let remaining := pred (agg_remaining g) in
            let s' := mkState (now s) (store s) (<[a := mkAgg values remaining]> (aggs s))
                        (timers s) (micro s) (trace s) in
            if Nat.eqb remaining 0 then settle res (Fulfilled (VArr values)) s'
            else (tt, s')
        | None => (tt, s)
        end
  end.

(** ** The unit-of-work executors of [taskRunner.js] *)

(** [delay(ms)]: a promise that a timer resolves. *)
Definition delay (ms : value) : M nat :=
  p <- newPromise ;;
  setTimeout (T_delay p) ms ;;;
  ret p.

Definition processTaskCallback (task : value) (cb : callback) : M unit :=
  emit (E_call Callback task) ;;;
  setTimeout (T_deferred task cb) (VNum 0).

Definition processTaskPromise (task : value) : M nat :=
  emit (E_call Promise task) ;;;
  p <- newPromise ;;
  match validateTask task with
  | Throw e => settle p (Rejected e)
  | Ok _ =>
      let duration := duration_of task in
      setTimeout (T_promiseDone task duration p) duration
  end ;;;
  ret p.

Definition processTaskAsync (task : value) : M nat :=
  emit (E_call Async task) ;;;
  self <- newPromise ;;
  match validateTask task with
  | Throw e => settle self (Rejected e)
  | Ok _ =>
      let duration := duration_of task in
      d <- delay duration ;;
      subscribe d (R_await (F_processTaskAsync task duration self))
  end ;;;
  ret self.

(** ** The batch policies of [taskRunner.js] *)

(** The guard [!Array.isArray(tasks) || tasks.length === 0]. *)
Definition batch_guard (tasks : value) : result (list value) :=
  match tasks with
  | VArr items =>
      if Nat.eqb (length items) 0 then Throw (Error "Tasks must be a non-empty array")
      else Ok items
  | _ => Throw (Error "Tasks must be a non-empty array")
  end.

(** Calling an error-first callback.  The body of [CB_next] is the arrow
    function of [processNext] followed by the [processNext] it calls. *)
Fixpoint invoke (cb : callback) (err : option error) (res : value) : M unit :=
  match cb with
  | CB_handler => fun s => emit (E_handler (now s) err res) s
  | CB_next tasks index results k =>
      match err with
      | Some e => invoke k (Some e) (VArr results)
      | None =>
          let results := (results ++ [res])%list in
          let index := S index in
          if Nat.leb (length tasks) index then invoke k None (VArr results)
          else processTaskCallback (default VUndefined (tasks !! index))
                 (CB_next tasks index results k)
      end
  end.

Definition processNext (tasks : list value) (index : nat) (results : list value)
    (callback : callback) : M unit :=
  if Nat.leb (length tasks) index then invoke callback None (VArr results)
  else processTaskCallback (default VUndefined (tasks !! index))
         (CB_next tasks index results callback).

Definition processTasksCallbacks (tasks : value) (callback : callback) : M unit :=
  match batch_guard tasks with
  | Throw e => invoke callback (Some e) VNull
  | Ok items => processNext items 0 [] callback
  end.

(** One turn of the [for ... of] loop of [processTasksPromises], up to its
    [await]. *)
Definition processTasksPromises_loop (rest results : list value) (self : nat) : M unit :=
  match rest with
  | [] => settle self (Fulfilled (VArr results))
  | task :: rest' =>
      p <- processTaskPromise task ;;
      subscribe p (R_await (F_processTasksPromises rest' results self))
  end.

Definition processTasksPromises (tasks : value) : M nat :=
  self <- newPromise ;;
  match batch_guard tasks with
  | Throw e => settle self (Rejected e)
  | Ok items => processTasksPromises_loop items [] self
  end ;;;
  ret self.

Definition processTasksParallel (tasks : value) : M nat :=
  self <- newPromise ;;
  match batch_guard tasks with
  | Throw e => settle self (Rejected e)
  | Ok items =>
      taskPromises <- mapM processTaskPromise items ;;
      all <- Promise_all taskPromises ;;
      subscribe all (R_await (F_processTasksParallel self))
  end ;;;
  ret self.

Definition processTasksRace (tasks : value) : M nat :=
  self <- newPromise ;;
  match batch_guard tasks with
  | Throw e => settle self (Rejected e)
  | Ok items =>
      taskPromises <- mapM processTaskPromise items ;;
      race <- Promise_race taskPromises ;;
      subscribe race (R_await (F_processTasksRace self))
  end ;;;
  ret self.

Definition processTasksAsyncAwait_loop (rest results : list value) (self : nat) : M unit :=
  match rest with
  | [] => settle self (Fulfilled (VArr results))
  | task :: rest' =>
      p <- processTaskAsync task ;;
      subscribe p (R_await (F_processTasksAsyncAwait rest' results self))
  end.

Definition processTasksAsyncAwait (tasks : value) : M nat :=
  self <- newPromise ;;
  match batch_guard tasks with
  | Throw e => settle self (Rejected e)
  | Ok items => processTasksAsyncAwait_loop items [] self
  end ;;;
  ret self.

Definition processTasksParallelAsync (tasks : value) : M nat :=
  self <- newPromise ;;
  match batch_guard tasks with
  | Throw e => settle self (Rejected e)
  | Ok items =>
      taskPromises <- mapM processTaskAsync items ;;
      all <- Promise_all taskPromises ;;
      subscribe all (R_await (F_processTasksParallelAsync self))
  end ;;;
  ret self.

Definition processTasksRaceAsync (tasks : value) : M nat :=
  self <- newPromise ;;
  match batch_guard tasks with
  | Throw e => settle self (Rejected e)
  | Ok items =>
      taskPromises <- mapM processTaskAsync items ;;
      race <- Promise_race taskPromises ;;
      subscribe race (R_await (F_processTasksRaceAsync self))
  end ;;;
  ret self.

(** *** Console output of the await-style policies *)

Definition bytes (l : list nat) : string := string_of_list_ascii (List.map ascii_of_nat l).

Definition mark_ok : string := bytes [195; 162; 197; 147; 226; 128; 156]%nat.
Definition mark_fail : string := bytes [195; 162; 197; 147; 226; 128; 148]%nat.

Definition console_error_AsyncAwait (e : error) : string :=
  match e with
  | TaskProcessingError m taskId taskName =>
      (mark_fail ++ " Error processing task " ++ toString taskId ++ " ("
         ++ toString taskName ++ "): " ++ m)%string
  | TaskValidationError m _ => (mark_fail ++ " Validation error: " ++ m)%string
  | _ => (mark_fail ++ " Unexpected error: " ++ error_message e)%string
  end.

(** ** The Promise variant of [asyncTasks.js] *)

(** [o.k] where [o] may be [null] or [undefined]. *)
Definition getE (o : value) (k : string) : result value :=
  match o with
  | VUndefined | VNull =>
      Throw (TypeError ("Cannot read properties of " ++ toString o
                          ++ " (reading '" ++ k ++ "')")%string)
  | _ => Ok (get o k)
  end.

Module AsyncTasks.

(** The body of the timer armed by [processTaskPromise]. *)
Definition on_timeout (task : value) (p : nat) : M unit :=
  if truthy (get task "shouldFail") then
    settle p (Rejected (Error ("Task " ++ dquote ++ toString (get task "name")
                                 ++ dquote ++ " failed")%string))
  else
    settle p (Fulfilled (VObj [("taskId", get task "id");
                               ("taskName", get task "name");
                               ("status", VStr "completed");
                               ("duration", get task "duration")])).

(** The executor arms the timer at once; reading [task.duration] of
    [null] or [undefined] throws inside the executor, which rejects the
    promise. *)
Definition processTaskPromise (task : value) : M nat :=
  emit (E_call Promise task) ;;;
  p <- newPromise ;;
  match getE task "duration" with
  | Throw e => settle p (Rejected e)
  | Ok ms => setTimeout (T_asyncTasks task p) ms
  end ;;;
  ret p.

(** No guard on the batch: [tasks.map] throws on a value that is not an
    array, and an empty array goes to [Promise.all] as it is. *)
Definition processTasksPromises (tasks : value) : M (result nat) :=
  match tasks with
  | VArr items =>
      promises <- mapM processTaskPromise items ;;
      all <- Promise_all promises ;;
      ret (Ok all)
  | VUndefined | VNull =>
      ret (Throw (TypeError ("Cannot read properties of " ++ toString tasks
                               ++ " (reading 'map')")%string))
  | _ => ret (Throw (TypeError "tasks.map is not a function"))
  end.

End AsyncTasks.

(** ** Resuming, firing, stepping *)

(** An [await] resumes with the outcome of the awaited promise: a value
    continues the function, an error is thrown into its [try ... catch]. *)
Definition resume (f : frame) (o : outcome) : M unit :=
  match f, o with
  | F_processTaskAsync task duration self, Fulfilled _ =>
      settle self (Fulfilled (VStr (summary task duration)))
  | F_processTaskAsync _ _ self, Rejected e => settle self (Rejected e)
  | F_processTasksPromises rest results self, Fulfilled result =>
      processTasksPromises_loop rest (results ++ [result]) self
  | F_processTasksPromises _ _ self, Rejected e => settle self (Rejected e)
  | F_processTasksAsyncAwait rest results self, Fulfilled result =>
      emit (E_console_log (mark_ok ++ " " ++ toString result)%string) ;;;
      processTasksAsyncAwait_loop rest (results ++ [result]) self
  | F_processTasksAsyncAwait _ _ self, Rejected e =>
      emit (E_console_error (console_error_AsyncAwait e)) ;;;
      settle self (Rejected e)
  | F_processTasksParallel self, _ => settle self o
  | F_processTasksRace self, _ => settle self o
  | F_processTasksParallelAsync self, Fulfilled _ => settle self o
  | F_processTasksParallelAsync self, Rejected e =>
      match e with
      | TaskProcessingError m taskId _ =>
          emit (E_console_error
                  ("Parallel processing failed for task " ++ toString taskId ++ ": " ++ m)%string)
      | _ => ret tt
      end ;;;
      settle self o
  | F_processTasksRaceAsync self, Fulfilled _ => settle self o
  | F_processTasksRaceAsync self, Rejected e =>
      emit (E_console_error ("Race failed: " ++ error_message e)%string) ;;;
      settle self o
  end.

Definition react (r : reaction) (o : outcome) : M unit :=
  match r with
  | R_await f => resume f o
  | R_all res a idx => all_element res a idx o
  | R_race res => settle res o
  end.

(** The body of each timer function. *)
Definition fire (cb : timer_cb) : M unit :=
  match cb with
  | T_deferred task k =>
      match validateTask task with
      | Throw e => invoke k (Some e) VNull
      | Ok _ =>
          let duration := duration_of task in
          setTimeout (T_callbackDone task duration k) duration
      end
  | T_callbackDone task duration k => invoke k None (VStr (summary task duration))
  | T_promiseDone task duration p => settle p (Fulfilled (VStr (summary task duration)))
  | T_delay p => settle p (Fulfilled VUndefined)
  | T_asyncTasks task p => AsyncTasks.on_timeout task p
  end.

(** The timer due first; among timers due at the same instant, the one
    armed first. *)
Fixpoint pop_timer (ts : list timer) : option (timer * list timer) :=
  match ts with
  | [] => None
  | t :: rest =>
      match pop_timer rest with
      | None => Some (t, [])
      | Some (u, rest') =>
          if t_due t <=? t_due u then Some (t, rest) else Some (u, t :: rest')
      end
  end.

(** One job: the oldest microtask if there is one, else the next timer, at
    whose due time the clock then stands.  [None] when nothing is left. *)
Definition step (s : state) : option state :=
  match micro s with
  | (r, o) :: q =>
      Some (snd (react r o (mkState (now s) (store s) (aggs s) (timers s) q (trace s))))
  | [] =>
      match pop_timer (timers s) with
      | Some (t, rest) =>
          Some (snd (fire (t_cb t)
                       (mkState (t_due t) (store s) (aggs s) rest [] (trace s))))
      | None => None
      end
  end.

Fixpoint run (n : nat) (s : state) : state :=
  match n with
  | O => s
  | S n' => match step s with
            | Some s' => run n' s'
            | None => s
            end
  end.

Definition quiescent (s : state) : Prop := step s = None.

(** ** Observations *)

Definition settled (s : state) (p : nat) : option (Z * outcome) :=
  match store s !! p with
  | Some (Settled t o) => Some (t, o)
  | _ => None
  end.

(** Calls of the caller's completion handler, in order. *)
Definition trace_handler (tr : list event) : list (Z * option error * value) :=
  flat_map (fun e => match e with E_handler t err res => [(t, err, res)] | _ => [] end) tr.

(** Descriptors handed to an executor, in order. *)
Definition trace_calls (tr : list event) : list value :=
  flat_map (fun e => match e with E_call _ task => [task] | _ => [] end) tr.

(** Timers armed to simulate processing, with their delay, in order. *)
Definition trace_timers (tr : list event) : list (timer_cb * Z) :=
  flat_map (fun e => match e with
                     | E_setTimeout cb ms => if processing_delay cb then [(cb, ms)] else []
                     | _ => []
                     end) tr.

Definition handler_calls (s : state) : list (Z * option error * value) :=
  trace_handler (trace s).

Definition executed (s : state) : list value := trace_calls (trace s).

Definition processing_timers (s : state) : list (timer_cb * Z) := trace_timers (trace s).

(** The wait and the success summary of a descriptor that passes
    [validateTask]; the waits of a sequence run one after the other. *)
Definition wait_of (task : value) : Z := delayMs (duration_of task).

Definition summary_of (task : value) : value := VStr (summary task (duration_of task)).

Definition total_wait (tasks : list value) : Z :=
  fold_right (fun task acc => wait_of task + acc) 0 tasks.

Definition succeeds (task : value) : Prop := validateTask task = Ok tt.

(** ** Statements about runs *)

(** Every promise settled in [s] is settled the same way in [s']. *)
Definition stable (s s' : state) : Prop :=
  forall p x, settled s p = Some x -> settled s' p = Some x.

Definition mono {A} (m : M A) : Prop := forall s, stable s (snd (m s)).

(** [settles_with s p t o]: running the jobs of [s], promise [p] settles at
    instant [t] with outcome [o], and holds it from then on. *)
Definition settles_with (s : state) (p : nat) (t : Z) (o : outcome) : Prop :=
  exists n, forall m, (n <= m)%nat -> settled (run m s) p = Some (t, o).

(** ** The executors run on their own *)

(** A single executor call at instant [t0] on an idle machine.  Three jobs
    are always enough to finish it (see [executor_spec]). *)
Definition start_executor (c : convention) (task : value) (t0 : Z) : state :=
  match c with
  | Callback => snd (processTaskCallback task CB_handler (init t0))
  | Promise => snd (processTaskPromise task (init t0))
  | Async => snd (processTaskAsync task (init t0))
  end.

Definition run_executor (c : convention) (task : value) (t0 : Z) : state :=
  run 3 (start_executor c task t0).

(** The one outcome the caller observes, with the instant it arrives: the
    arguments passed to the completion handler, or the settlement of the
    returned promise (promise 0 of the run). *)
Definition executor_outcome (c : convention) (task : value) (t0 : Z)
    : option (Z * outcome) :=
  let s := run_executor c task t0 in
  match c with
  | Callback =>
      match handler_calls s with
      | [(t, Some e, VNull)] => Some (t, Rejected e)
      | [(t, None, v)] => Some (t, Fulfilled v)
      | _ => None
      end
  | _ => settled s 0
  end.

(** What every convention is expected to do, read off [validateTask]. *)
Definition expected_outcome (task : value) (t0 : Z) : Z * outcome :=
  match validateTask task with
  | Throw e => (t0, Rejected e)
  | Ok _ => (t0 + delayMs (duration_of task),
             Fulfilled (VStr (summary task (duration_of task))))
  end.

Definition expected_delays (task : value) : list Z :=
  match validateTask task with
  | Throw _ => []
  | Ok _ => [delayMs (duration_of task)]
  end.

(** ** The batch policies run on their own *)

Inductive policy : Type :=
| SequentialCallbacks
| SequentialPromises
| SequentialAsyncAwait
| Parallel
| Race
| ParallelAsync
| RaceAsync.

(** A policy called at instant [t0] on an idle machine; the callback policy
    is given the caller's completion handler. *)
Definition start_policy (p : policy) (batch : value) (t0 : Z) : state :=
  match p with
  | SequentialCallbacks => snd (processTasksCallbacks batch CB_handler (init t0))
  | SequentialPromises => snd (processTasksPromises batch (init t0))
  | SequentialAsyncAwait => snd (processTasksAsyncAwait batch (init t0))
  | Parallel => snd (processTasksParallel batch (init t0))
  | Race => snd (processTasksRace batch (init t0))
  | ParallelAsync => snd (processTasksParallelAsync batch (init t0))
  | RaceAsync => snd (processTasksRaceAsync batch (init t0))
  end.

(** What the caller of a policy has observed in state [s]: the arguments of
    the completion handler, or the settlement of the returned promise
    (promise 0 of the run). *)
Definition policy_outcome (p : policy) (s : state) : option (Z * outcome) :=
  match p with
  | SequentialCallbacks =>
      match handler_calls s with
      | [(t, Some e, _)] => Some (t, Rejected e)
      | [(t, None, v)] => Some (t, Fulfilled v)
      | _ => None
      end
  | _ => settled s 0
  end.

(** The three sequential policies. *)
Definition sequential (p : policy) : Prop :=
  p = SequentialCallbacks \/ p = SequentialPromises \/ p = SequentialAsyncAwait.

(** An empty list, or a value that is not a list. *)
Definition empty_or_not_list (batch : value) : Prop :=
  batch = VArr [] \/ forall items, batch <> VArr items.

Definition msg_batch : string := "Tasks must be a non-empty array".

(** Rejected with one of the two taxonomy kinds. *)
Definition rejects_with_taxonomy (o : option (Z * outcome)) : Prop :=
  exists t e, o = Some (t, Rejected e) /\ taxonomy e = true.

(** ** Descriptors, as the data model words them *)

Definition is_record (task : value) : Prop := exists fs, task = VObj fs.

Definition lacks (task : value) (k : string) : Prop := get task k = VUndefined.

(** Absent, not a structured record, or lacking [id] or [name]. *)
Definition invalid (task : value) : Prop :=
  task = VUndefined \/ task = VNull \/ ~ is_record task
  \/ lacks task "id" \/ lacks task "name".

(** A record with a positive integer [id] and a non-empty text [name]. *)
Definition well_formed (task : value) : Prop :=
  is_record task
  /\ (exists n, get task "id" = VNum n /\ 0 < n)
  /\ (exists c s, get task "name" = VStr (String c s)).

Definition tagged_error (task : value) : Prop := get task "type" = VStr "error".





Definition msg_not_object : string := "Task must be an object".
Definition msg_no_id_name : string := "Task must have id and name properties".

(** *** Sample descriptors *)

Definition descriptor (id : Z) (name : string) (duration : Z) : value :=
  VObj [("id", VNum id); ("name", VStr name); ("type", VStr "compute");
        ("duration", VNum duration)].

Definition failing_descriptor (id : Z) (name : string) (duration : Z) : value :=
  VObj [("id", VNum id); ("name", VStr name); ("type", VStr "error");
        ("duration", VNum duration)].

(** A descriptor without a [duration] property. *)
Definition untimed_descriptor (id : Z) (name : string) : value :=
  VObj [("id", VNum id); ("name", VStr name); ("type", VStr "compute")].

(** ** Shapes of the machine during a run *)

(** What a run of descriptors that all succeed leaves in the trace. *)
Definition prefix_trace (tr : list event) (done : list value) : Prop :=
  trace_calls tr = done
  /\ List.map snd (trace_timers tr) = List.map wait_of done
  /\ trace_handler tr = [].

(** The promise of a descriptor as [processTaskPromise] leaves it at instant
    [t]: rejected on the spot, or pending on its timer. *)
Definition created_cell (t : Z) (task : value) : cell :=
  match validateTask task with
  | Throw e => Settled t (Rejected e)
  | Ok _ => Pending []
  end.

(** The timers armed by [tasks.map(processTaskPromise)] at instant [t], the
    promises being numbered from [base]. *)
Fixpoint created_timers (t : Z) (base : nat) (items : list value) : list timer :=
  match items with
  | [] => []
  | x :: items' =>
      match validateTask x with
      | Ok _ => [mkTimer (t + wait_of x) (T_promiseDone x (duration_of x) base)]
      | Throw _ => []
      end ++ created_timers t (S base) items'
  end.

(** Promises [cs] after [then] registered reaction [f i] on the [i]-th, and
    the reaction jobs this queued for those already settled. *)
Fixpoint subscribed (f : nat -> reaction) (i : nat) (cs : list cell) : list cell :=
  match cs with
  | [] => []
  | c :: cs' =>
      match c with
      | Pending rs => Pending (rs ++ [f i])
      | Settled _ _ => c
      end :: subscribed f (S i) cs'
  end.

Fixpoint queued (f : nat -> reaction) (i : nat) (cs : list cell)
    : list (reaction * outcome) :=
  match cs with
  | [] => []
  | c :: cs' =>
      match c with
      | Pending _ => []
      | Settled _ o => [(f i, o)]
      end ++ queued f (S i) cs'
  end.

(** The reaction job of a rejected promise among those subscribed with [f]. *)
Definition rejection_of (f : nat -> reaction) (ro : reaction * outcome) : Prop :=
  exists j e, ro = (f j, Rejected e).

(** Between two timers of [processTasksParallel] on [items], when no
    descriptor failed: every pending timer belongs to a descriptor whose
    promise still waits with its [Promise.all] element handler;
    [remainingElementsCount] is the number of pending timers; every
    descriptor either still has its timer or has its summary at its own
    position of the [values] array. *)
Definition parallel_inv (items : list value) (s : state) : Prop :=
  let n := length items in
  micro s = []
  /\ store s !! 0%nat = Some (Pending [])
  /\ store s !! S n = Some (Pending [R_await (F_processTasksParallel 0)])
  /\ NoDup (List.map t_cb (timers s))
  /\ (forall u, u ∈ timers s ->
        exists j x, items !! j = Some x
                    /\ t_cb u = T_promiseDone x (duration_of x) (S j)
                    /\ store s !! S j = Some (Pending [R_all (S n) 0 j]))
  /\ exists values,
       aggs s = [mkAgg values (length (timers s))]
       /\ length values = n
       /\ forall j x, items !! j = Some x ->
            (exists u, u ∈ timers s /\ t_cb u = T_promiseDone x (duration_of x) (S j))
            \/ values !! j = Some (summary_of x).

(** * Further definitions: the rest of the code *)

(** A machine with no job left and no job pending. *)
Definition idle (s : state) : Prop := timers s = [] /\ micro s = [].

(** [validateTask] as a test. *)
Definition passes (task : value) : bool :=
  match validateTask task with
  | Ok _ => true
  | Throw _ => false
  end.

(** The two concurrent policies built on [processTaskPromise]. *)
Definition concurrent (p : policy) : Prop := p = Parallel \/ p = Race.

(** A computation that leaves no event in the trace. *)
Definition silent {A} (m : M A) : Prop := forall s, trace (snd (m s)) = trace s.

(** ** The batches that [main] of [taskRunner.js] builds from [tasks.json] *)

(** [task.type === 'error']; reading [type] of [null] or [undefined]
    throws. *)
Definition type_is_error (task : value) : result bool :=
  match getE task "type" with
  | Throw e => Throw e
  | Ok ty => Ok (strict_eq_str ty "error")
  end.

(** [items.filter(task => task.type !== 'error')]: the first element on
    which the test throws ends the filtering. *)
Fixpoint filter_not_error (items : list value) : result (list value) :=
  match items with
  | [] => Ok []
  | task :: rest =>
      match type_is_error task with
      | Throw e => Throw e
      | Ok b =>
          match filter_not_error rest with
          | Throw e => Throw e
          | Ok kept => Ok (if b then kept else task :: kept)
          end
      end
  end.

(** [items.find(t => t.type === 'error')]: [undefined] when there is none. *)
Fixpoint find_error (items : list value) : result value :=
  match items with
  | [] => Ok VUndefined
  | t :: rest =>
      match type_is_error t with
      | Throw e => Throw e
      | Ok true => Ok t
      | Ok false => find_error rest
      end
  end.

(** [const validTasks = allTasks.filter(task => task.type !== 'error')],
    where [allTasks] is whatever [JSON.parse] returned. *)
Definition validTasks (allTasks : value) : result (list value) :=
  match allTasks with
  | VArr items => filter_not_error items
  | VNull | VUndefined =>
      Throw (TypeError ("Cannot read properties of " ++ toString allTasks
                          ++ " (reading 'filter')")%string)
  | _ => Throw (TypeError "allTasks.filter is not a function")
  end.

(** [[...validTasks.slice(0, 3), tasksWithError.find(t => t.type === 'error')]],
    built after [validTasks]. *)
Definition errorDemoTasks (allTasks : value) : result (list value) :=
  match validTasks allTasks with
  | Throw e => Throw e
  | Ok valid =>
      match allTasks with
      | VArr items =>
          match find_error items with
          | Throw e => Throw e
          | Ok found => Ok (firstn 3 valid ++ [found])
          end
      | _ => Ok (firstn 3 valid ++ [VUndefined])
      end
  end.

(** ** Observing [asyncTasks.js] *)

(** The error and the result object that the timer of
    [AsyncTasks.processTaskPromise] settles with. *)
Definition task_failed (task : value) : error :=
  Error ("Task " ++ dquote ++ toString (get task "name") ++ dquote ++ " failed")%string.

Definition task_completed (task : value) : value :=
  VObj [("taskId", get task "id"); ("taskName", get task "name");
        ("status", VStr "completed"); ("duration", get task "duration")].

Definition task_outcome (task : value) : outcome :=
  if truthy (get task "shouldFail") then Rejected (task_failed task)
  else Fulfilled (task_completed task).

(** [null] or [undefined]. *)
Definition nullish (v : value) : Prop := v = VUndefined \/ v = VNull.

(** ** Console output *)

(** What was written to the console, in order: [true] for [console.log],
    [false] for [console.error]. *)
Definition trace_console (tr : list event) : list (bool * string) :=
  flat_map (fun e => match e with
                     | E_console_log s => [(true, s)]
                     | E_console_error s => [(false, s)]
                     | _ => []
                     end) tr.

Definition console (s : state) : list (bool * string) := trace_console (trace s).

(** The line [processTasksAsyncAwait] logs for a completed descriptor. *)
Definition logged (task : value) : bool * string :=
  (true, (mark_ok ++ " " ++ toString (summary_of task))%string).

(** ** Shapes of the machine under the await-style concurrent policies *)

(** [tasks.map(processTaskAsync)] numbers its promises from [base]: a
    descriptor that passes validation takes two, the promise of the async
    function and the one of [delay]; a descriptor that fails takes one. *)
Definition async_next (base : nat) (task : value) : nat :=
  match validateTask task with
  | Ok _ => S (S base)
  | Throw _ => S base
  end.

Fixpoint async_promises (base : nat) (items : list value) : list nat :=
  match items with
  | [] => []
  | x :: items' => base :: async_promises (async_next base x) items'
  end.

(** The next free promise after the whole batch. *)
Fixpoint async_end (base : nat) (items : list value) : nat :=
  match items with
  | [] => base
  | x :: items' => async_end (async_next base x) items'
  end.

(** The promises as they stand at instant [t], the [i]-th function promise
    carrying the reactions [rs i]. *)
Fixpoint async_cells (rs : nat -> list reaction) (i : nat) (t : Z) (base : nat)
    (items : list value) : list cell :=
  match items with
  | [] => []
  | x :: items' =>
      match validateTask x with
      | Ok _ => [Pending (rs i);
                 Pending [R_await (F_processTaskAsync x (duration_of x) base)]]
      | Throw e => [Settled t (Rejected e)]
      end ++ async_cells rs (S i) t (async_next base x) items'
  end.

Fixpoint async_timers (t : Z) (base : nat) (items : list value) : list timer :=
  match items with
  | [] => []
  | x :: items' =>
      match validateTask x with
      | Ok _ => [mkTimer (t + wait_of x) (T_delay (S base))]
      | Throw _ => []
      end ++ async_timers t (async_next base x) items'
  end.

(** The reaction jobs that subscribing [f i] to the [i]-th function promise
    queues: one for each descriptor that failed. *)
Fixpoint async_queued (f : nat -> reaction) (i : nat) (items : list value)
    : list (reaction * outcome) :=
  match items with
  | [] => []
  | x :: items' =>
      match validateTask x with
      | Ok _ => []
      | Throw e => [(f i, Rejected e)]
      end ++ async_queued f (S i) items'
  end.

(** The console line of the [catch] block of a concurrent await-style
    policy. *)
Definition console_error_RaceAsync (e : error) : bool * string :=
  (false, ("Race failed: " ++ error_message e)%string).

Definition console_error_ParallelAsync (e : error) : list (bool * string) :=
  match e with
  | TaskProcessingError m taskId _ =>
      [(false, ("Parallel processing failed for task " ++ toString taskId ++ ": " ++ m)%string)]
  | _ => []
  end.

(** Between two timers of [processTasksParallelAsync] on [items], when no
    descriptor failed.  Descriptor [j] owns promise [2j+1], returned by
    [processTaskAsync], and promise [2j+2], returned by [delay]; every
    pending timer is the [delay] of a descriptor whose async function still
    awaits it and whose promise still carries its [Promise.all] element
    handler; the rest is as for [processTasksParallel]. *)
Definition parallel_async_inv (items : list value) (s : state) : Prop :=
  let n := length items in
  micro s = []
  /\ store s !! 0%nat = Some (Pending [])
  /\ store s !! S (n + n) = Some (Pending [R_await (F_processTasksParallelAsync 0)])
  /\ NoDup (List.map t_cb (timers s))
  /\ (forall u, u ∈ timers s ->
        exists j x, items !! j = Some x
                    /\ t_cb u = T_delay (S (S (j + j)))
                    /\ store s !! S (S (j + j))
                       = Some (Pending [R_await (F_processTaskAsync x (duration_of x)
                                                   (S (j + j)))])
                    /\ store s !! S (j + j) = Some (Pending [R_all (S (n + n)) 0 j]))
  /\ exists values,
       aggs s = [mkAgg values (length (timers s))]
       /\ length values = n
       /\ forall j x, items !! j = Some x ->
            (exists u, u ∈ timers s /\ t_cb u = T_delay (S (S (j + j))))
            \/ values !! j = Some (summary_of x).

(** The descriptor a race among succeeding descriptors is decided for: of
    least wait, the earliest in input order among equals. *)
Definition earliest (items : list value) (i : nat) (x : value) : Prop :=
  items !! i = Some x
  /\ (forall j y, items !! j = Some y -> wait_of x <= wait_of y)
  /\ (forall j y, (j < i)%nat -> items !! j = Some y -> wait_of x < wait_of y).

(** ** [Promise.all] over the executors of [asyncTasks.js] *)

(** The wait of a descriptor of [asyncTasks.js]: [task.duration] as it is,
    with no default. *)
Definition timer_wait (task : value) : Z := delayMs (get task "duration").







(** * The callback variant of [asyncTasks.js] *)

(** These functions use timers and plain callbacks only, no promise: a run
    of one call of [processTasksCallbacks] is a list of pending timers, the
    [results] and [count] variables of the call, which all its arrow
    functions share, and the calls of the caller's handler so far. *)
Module AsyncTasksCallbacks.

(** The callbacks: the caller's handler, and the arrow function that
    [processTasksCallbacks] hands to [processTaskCallback], closed over
    [tasks.length]. *)
Inductive handler : Type :=
| H_caller
| H_element (tasks_length : nat).

(** The function that armed a timer: [processTaskCallback] or
    [processTaskWithCustomError]. *)
Inductive executor : Type := Plain | CustomError.

Record ctimer : Type := mkCtimer {
  c_due : Z;
  c_exec : executor;
  c_task : value;
  c_handler : handler
}.

Record cstate : Type := mkCstate {
  c_now : Z;
  c_timers : list ctimer;
  c_results : list value;
  c_count : nat;
  c_calls : list (Z * option error * value)
}.

Definition c_init (t0 : Z) : cstate := mkCstate t0 [] [] 0 [].

(** [new Error(`Task "${task.name}" failed`)], or
    [new TaskProcessingError(`Failed: "${task.name}"`, task.id, task.name)]. *)
Definition failure (x : executor) (task : value) : error :=
  match x with
  | Plain => task_failed task
  | CustomError =>
      TaskProcessingError ("Failed: " ++ dquote ++ toString (get task "name") ++ dquote)%string
        (get task "id") (get task "name")
  end.

(** [setTimeout(() => {...}, task.duration)]: the delay is read at once, and
    reading it off [null] or [undefined] throws. *)
Definition arm (x : executor) (task : value) (k : handler) (s : cstate)
    : result unit * cstate :=
  match getE task "duration" with
  | Throw e => (Throw e, s)
  | Ok ms =>
      (Ok tt,
       mkCstate (c_now s) (c_timers s ++ [mkCtimer (c_now s + delayMs ms) x task k])
         (c_results s) (c_count s) (c_calls s))
  end.

Definition processTaskCallback : value -> handler -> cstate -> result unit * cstate :=
  arm Plain.

Definition processTaskWithCustomError : value -> handler -> cstate -> result unit * cstate :=
  arm CustomError.

(** [tasks.forEach((task) => processTaskCallback(task, (error, result) => ...))]:
    an exception ends the loop and leaves the timers armed so far. *)
Fixpoint forEach (items : list value) (n : nat) (s : cstate) : result unit * cstate :=
  match items with
  | [] => (Ok tt, s)
  | task :: items' =>
      match processTaskCallback task (H_element n) s with
      | (Ok _, s') => forEach items' n s'
      | (Throw e, s') => (Throw e, s')
      end
  end.

(** No guard on the batch: [tasks.forEach] throws on a value that is not an
    array, and does nothing on an empty one. *)
Definition processTasksCallbacks (tasks : value) (s : cstate) : result unit * cstate :=
  let s0 := mkCstate (c_now s) (c_timers s) [] 0 (c_calls s) in
  match tasks with
  | VArr items => forEach items (length items) s0
  | VUndefined | VNull =>
      (Throw (TypeError ("Cannot read properties of " ++ toString tasks
                           ++ " (reading 'forEach')")%string), s0)
  | _ => (Throw (TypeError "tasks.forEach is not a function"), s0)
  end.

(** Calling a callback with [(error, result)]. *)
Definition call (k : handler) (err : option error) (res : value) (s : cstate) : cstate :=
  match k, err with
  | H_caller, _ =>
      mkCstate (c_now s) (c_timers s) (c_results s) (c_count s)
        (c_calls s ++ [(c_now s, err, res)])
  | H_element _, Some e =>
      mkCstate (c_now s) (c_timers s) (c_results s) (c_count s)
        (c_calls s ++ [(c_now s, Some e, VNull)])
  | H_element n, None =>
      let results := c_results s ++ [res] in
      let count := S (c_count s) in
      mkCstate (c_now s) (c_timers s) results count
        (if Nat.eqb count n then c_calls s ++ [(c_now s, None, VArr results)]
         else c_calls s)
  end.

(** The body of the timer function. *)
Definition cfire (u : ctimer) (s : cstate) : cstate :=
  if truthy (get (c_task u) "shouldFail") then
    call (c_handler u) (Some (failure (c_exec u) (c_task u))) VNull s
  else
    call (c_handler u) None (task_completed (c_task u)) s.

(** The timer due first; among timers due at the same instant, the one
    armed first. *)
Fixpoint cpop (ts : list ctimer) : option (ctimer * list ctimer) :=
  match ts with
  | [] => None
  | t :: rest =>
      match cpop rest with
      | None => Some (t, [])
      | Some (u, rest') =>
          if c_due t <=? c_due u then Some (t, rest) else Some (u, t :: rest')
      end
  end.

Definition cstep (s : cstate) : option cstate :=
  match cpop (c_timers s) with
  | Some (u, rest) =>
      Some (cfire u (mkCstate (c_due u) rest (c_results s) (c_count s) (c_calls s)))
  | None => None
  end.

Fixpoint crun (n : nat) (s : cstate) : cstate :=
  match n with
  | O => s
  | S n' => match cstep s with
            | Some s' => crun n' s'
            | None => s
            end
  end.


End AsyncTasksCallbacks.

(** A call of the handler as the outcome it reports. *)
Definition reported (c : Z * option error * value) : Z * outcome :=
  match c with
  | (t, Some e, _) => (t, Rejected e)
  | (t, None, v) => (t, Fulfilled v)
  end.


Definition failing (task : value) : bool := truthy (get task "shouldFail").

(** ** [Promise.race] over the executors of [asyncTasks.js] *)


(** ** The race while and after it is decided *)

(** The timer [processTaskPromise] arms at instant [t0] for a descriptor
    that passes validation and whose promise is [p]. *)
Definition done_timer (t0 : Z) (p : nat) (task : value) : timer :=
  mkTimer (t0 + wait_of task) (T_promiseDone task (duration_of task) p).


(** * Sample runs *)

(** Durations [500, 100, 300]: the sequential policies take 900 ms, the
    parallel policy 500 ms with the results in input order, the race 100 ms
    with the second descriptor. *)
Example run_sequential_500_100_300 :
  policy_outcome SequentialPromises
    (run 6 (start_policy SequentialPromises
              (VArr [descriptor 1 "Load" 500; descriptor 2 "Parse" 100;
                     descriptor 3 "Send" 300]) 0))
  = Some (900, Fulfilled (VArr [summary_of (descriptor 1 "Load" 500);
                                summary_of (descriptor 2 "Parse" 100);
                                summary_of (descriptor 3 "Send" 300)])).
Proof. vm_compute. reflexivity. Qed.

Example run_callbacks_500_100_300 :
  handler_calls
    (run 6 (start_policy SequentialCallbacks
              (VArr [descriptor 1 "Load" 500; descriptor 2 "Parse" 100;
                     descriptor 3 "Send" 300]) 0))
  = [(900, None, VArr [summary_of (descriptor 1 "Load" 500);
                       summary_of (descriptor 2 "Parse" 100);
                       summary_of (descriptor 3 "Send" 300)])].
Proof. vm_compute. reflexivity. Qed.

Example run_parallel_500_100_300 :
  policy_outcome Parallel
    (run 7 (start_policy Parallel
              (VArr [descriptor 1 "Load" 500; descriptor 2 "Parse" 100;
                     descriptor 3 "Send" 300]) 0))
  = Some (500, Fulfilled (VArr [summary_of (descriptor 1 "Load" 500);
                                summary_of (descriptor 2 "Parse" 100);
                                summary_of (descriptor 3 "Send" 300)])).
Proof. vm_compute. reflexivity. Qed.

Example run_race_500_100_300 :
  policy_outcome Race
    (run 3 (start_policy Race
              (VArr [descriptor 1 "Load" 500; descriptor 2 "Parse" 100;
                     descriptor 3 "Send" 300]) 0))
  = Some (100, Fulfilled (summary_of (descriptor 2 "Parse" 100))).
Proof. vm_compute. reflexivity. Qed.

(** Two descriptors of equal duration: the one armed first wins the race. *)
Example run_race_tie :
  policy_outcome RaceAsync
    (run 4 (start_policy RaceAsync
              (VArr [descriptor 1 "Load" 100; descriptor 2 "Parse" 100]) 0))
  = Some (100, Fulfilled (summary_of (descriptor 1 "Load" 100))).
Proof. vm_compute. reflexivity. Qed.

(** The two validation messages. *)
Example run_not_object :
  executor_outcome Callback (VNum 7) 0
  = Some (0, Rejected (TaskValidationError msg_not_object (VNum 7))).
Proof. vm_compute. reflexivity. Qed.

Example run_no_name :
  executor_outcome Callback (VObj [("id", VNum 7)]) 0
  = Some (0, Rejected (TaskValidationError msg_no_id_name (VObj [("id", VNum 7)]))).
Proof. vm_compute. reflexivity. Qed.

(** A descriptor without [duration] waits the default. *)
Example run_untimed :
  executor_outcome Async (untimed_descriptor 1 "Load") 0
  = Some (300, Fulfilled (VStr (summary (untimed_descriptor 1 "Load") (VNum 300)))).
Proof. vm_compute. reflexivity. Qed.

(** * Properties of the job machinery *)

(** Symbolic runs keep the descriptor-level functions folded. *)
Arguments summary : simpl never.
Arguments processing_message : simpl never.
Arguments delayMs : simpl never.
Arguments duration_of : simpl never.
Arguments validateTask : simpl never.

Lemma delayMs_zero : delayMs (VNum 0) = 0.
Proof. reflexivity. Qed.

Lemma run_add n m s : run (n + m) s = run m (run n s).
Proof.
  revert s; induction n as [|n IH]; intros s; simpl; [reflexivity|].
  destruct (step s) as [s'|] eqn:E; [apply IH|].
  destruct m; simpl; [reflexivity|]. now rewrite E.
Qed.

Lemma run_quiescent n s : quiescent s -> run n s = s.
Proof. unfold quiescent; intros H; destruct n; simpl; [reflexivity|]. now rewrite H. Qed.

Lemma run_S n s s' : step s = Some s' -> run (S n) s = run n s'.
Proof. intros H; simpl; now rewrite H. Qed.

(** ** A settled promise stays settled *)

Lemma stable_refl s : stable s s.
Proof. intros p x H; exact H. Qed.

Lemma stable_trans s1 s2 s3 : stable s1 s2 -> stable s2 s3 -> stable s1 s3.
Proof. intros H1 H2 p x H; apply H2, H1, H. Qed.

Lemma stable_same_store s s' : store s' = store s -> stable s s'.
Proof. intros E p x; unfold settled; now rewrite E. Qed.

Lemma mono_ret {A} (a : A) : mono (ret a).
Proof. intros s; apply stable_refl. Qed.

Lemma mono_bind {A B} (m : M A) (k : A -> M B) :
  mono m -> (forall a, mono (k a)) -> mono (bind m k).
Proof.
  intros Hm Hk s; unfold bind.
  specialize (Hm s); destruct (m s) as [a s1]; simpl in Hm.
  eapply stable_trans; [exact Hm | apply Hk].
Qed.

Lemma mono_emit e : mono (emit e).
Proof. intros s; now apply stable_same_store. Qed.

Lemma mono_setTimeout cb ms : mono (setTimeout cb ms).
Proof. intros s; now apply stable_same_store. Qed.

Lemma mono_newAgg n : mono (newAgg n).
Proof. intros s; now apply stable_same_store. Qed.

Lemma mono_newPromise : mono newPromise.
Proof.
  intros s p x; unfold settled; simpl.
  destruct (store s !! p) as [c|] eqn:E; [|discriminate].
  now rewrite (lookup_app_l_Some _ _ _ _ E).
Qed.

Lemma mono_settle p o : mono (settle p o).
Proof.
  intros s q x; unfold settle, settled.
  destruct (store s !! p) as [[rs|t o']|] eqn:E; simpl; try tauto.
  destruct (decide (p = q)) as [->|Hne]; [now rewrite E|].
  now rewrite list_lookup_insert_ne.
Qed.

Lemma mono_subscribe p r : mono (subscribe p r).
Proof.
  intros s q x; unfold subscribe, settled.
  destruct (store s !! p) as [[rs|t o']|] eqn:E; simpl; try tauto.
  destruct (decide (p = q)) as [->|Hne]; [now rewrite E|].
  now rewrite list_lookup_insert_ne.
Qed.

Lemma mono_mapM {A B} (f : A -> M B) l : (forall a, mono (f a)) -> mono (mapM f l).
Proof.
  intros Hf; induction l as [|x l IH]; simpl; [apply mono_ret|].
  apply mono_bind; [apply Hf|]; intros y.
  apply mono_bind; [apply IH|]; intros ys; apply mono_ret.
Qed.

Lemma mono_iforM_ {A} (f : nat -> A -> M unit) i l :
  (forall j a, mono (f j a)) -> mono (iforM_ f i l).
Proof.
  intros Hf; revert i; induction l as [|x l IH]; intros i; simpl; [apply mono_ret|].
  apply mono_bind; [apply Hf|]; intros _; apply IH.
Qed.

Create HintDb mono discriminated.
#[local] Hint Resolve mono_ret mono_emit mono_setTimeout mono_newAgg mono_newPromise
  mono_settle mono_subscribe : mono.
#[local] Hint Extern 2 (mono (bind _ _)) => (apply mono_bind; [|intros ?]) : mono.
#[local] Hint Extern 2 (mono (mapM _ _)) => (apply mono_mapM; intros ?) : mono.
#[local] Hint Extern 2 (mono (iforM_ _ _ _)) => (apply mono_iforM_; intros ? ?) : mono.
#[local] Hint Extern 3 (mono (match ?x with _ => _ end)) => destruct x : mono.

Ltac mono_tac := intros; cbv zeta; auto 12 with mono.

Lemma mono_delay ms : mono (delay ms).
Proof. unfold delay; mono_tac. Qed.

Lemma mono_processTaskCallback task cb : mono (processTaskCallback task cb).
Proof. unfold processTaskCallback; mono_tac. Qed.

Lemma mono_processTaskPromise task : mono (processTaskPromise task).
Proof. unfold processTaskPromise; mono_tac. Qed.

#[local] Hint Resolve mono_delay mono_processTaskCallback mono_processTaskPromise : mono.

Lemma mono_processTaskAsync task : mono (processTaskAsync task).
Proof. unfold processTaskAsync; mono_tac. Qed.

#[local] Hint Resolve mono_processTaskAsync : mono.

Lemma mono_invoke cb : forall err res, mono (invoke cb err res).
Proof.
  induction cb as [|tasks index results k IH]; intros err res; simpl.
  - intros s; apply mono_emit.
  - destruct err; [apply IH|].
    destruct (Nat.leb _ _); [apply IH | auto with mono].
Qed.

#[local] Hint Resolve mono_invoke : mono.

Lemma mono_all_element res a idx o : mono (all_element res a idx o).
Proof.
  destruct o as [v|e]; simpl; [|auto with mono].
  intros s. destruct (aggs s !! a) as [g|]; [|apply stable_refl].
  destruct (Nat.eqb _ _); [|now apply stable_same_store].
  eapply stable_trans; [|apply mono_settle]. now apply stable_same_store.
Qed.

Lemma mono_processTasksPromises_loop rest results self :
  mono (processTasksPromises_loop rest results self).
Proof. unfold processTasksPromises_loop; mono_tac. Qed.

Lemma mono_processTasksAsyncAwait_loop rest results self :
  mono (processTasksAsyncAwait_loop rest results self).
Proof. unfold processTasksAsyncAwait_loop; mono_tac. Qed.

#[local] Hint Resolve mono_all_element mono_processTasksPromises_loop
  mono_processTasksAsyncAwait_loop : mono.

Lemma mono_resume f o : mono (resume f o).
Proof. destruct f, o; simpl; mono_tac. Qed.

Lemma mono_react r o : mono (react r o).
Proof. destruct r; simpl; auto using mono_resume with mono. Qed.

Lemma mono_fire cb : mono (fire cb).
Proof. destruct cb; simpl; unfold AsyncTasks.on_timeout; mono_tac. Qed.

Lemma step_stable s s' : step s = Some s' -> stable s s'.
Proof.
  unfold step; intros H.
  destruct (micro s) as [|[r o] q].
  - destruct (pop_timer (timers s)) as [[t rest]|]; [|discriminate].
    injection H as <-. eapply stable_trans; [|apply mono_fire].
    now apply stable_same_store.
  - injection H as <-. eapply stable_trans; [|apply mono_react].
    now apply stable_same_store.
Qed.

Lemma run_stable n s : stable s (run n s).
Proof.
  revert s; induction n as [|n IH]; intros s; simpl; [apply stable_refl|].
  destruct (step s) as [s'|] eqn:E; [|apply stable_refl].
  eapply stable_trans; [apply (step_stable _ _ E) | apply IH].
Qed.

Lemma settles_with_intro n s p t o :
  settled (run n s) p = Some (t, o) -> settles_with s p t o.
Proof.
  intros H; exists n; intros m Hm.
  replace m with (n + (m - n))%nat by lia.
  rewrite run_add. now apply run_stable.
Qed.

Lemma settles_with_run n s p t o :
  settles_with (run n s) p t o -> settles_with s p t o.
Proof.
  intros [k H]; apply (settles_with_intro (n + k)).
  rewrite run_add; apply H; lia.
Qed.

Lemma settles_with_unique s p t o t' o' :
  settles_with s p t o -> settles_with s p t' o' -> t = t' /\ o = o'.
Proof.
  intros [n Hn] [k Hk].
  specialize (Hn (Nat.max n k) (Nat.le_max_l _ _)).
  specialize (Hk (Nat.max n k) (Nat.le_max_r _ _)).
  rewrite Hn in Hk; now injection Hk.
Qed.

(** * The unit-of-work executors, run on their own *)

Lemma executor_spec c task t0 :
  quiescent (run_executor c task t0)
  /\ executor_outcome c task t0 = Some (expected_outcome task t0)
  /\ List.map snd (processing_timers (run_executor c task t0)) = expected_delays task
  /\ executed (run_executor c task t0) = [task].
Proof.
  unfold executor_outcome, expected_outcome, expected_delays, run_executor, quiescent.
  destruct c; unfold start_executor, processTaskCallback, processTaskPromise,
    processTaskAsync, delay; cbn;
    destruct (validateTask task) as [[]|e] eqn:E; cbn; rewrite ?E; cbn;
    rewrite ?delayMs_zero, ?Z.add_0_r; repeat split; reflexivity.
Qed.

Lemma validateTask_invalid task :
  invalid task ->
  exists msg, validateTask task = Throw (TaskValidationError msg task).
Proof.
  unfold invalid, is_record, lacks, validateTask.
  intros H. destruct task; cbn [truthy typeof negb orb String.eqb Ascii.eqb Bool.eqb];
    try (eexists; reflexivity).
  - destruct b; eexists; reflexivity.
  - destruct (negb (n =? 0)); eexists; reflexivity.
  - destruct s; eexists; reflexivity.
  - destruct H as [H|[H|[H|[H|H]]]]; try discriminate.
    + exfalso; apply H; eauto.
    + rewrite H; eexists; reflexivity.
    + rewrite H; cbn. rewrite orb_true_r. eexists; reflexivity.
Qed.


Lemma well_formed_truthy task :
  well_formed task ->
  truthy task = true /\ typeof task = "object"
  /\ truthy (get task "id") = true /\ truthy (get task "name") = true.
Proof.
  intros [[fs ->] [[n [Hid Hn]] [c [s Hname]]]].
  rewrite Hid, Hname; cbn. repeat split; try reflexivity.
  destruct (Z.eqb_spec n 0); [lia | reflexivity].
Qed.

Lemma validateTask_shape_ok task :
  truthy task = true -> typeof task = "object" ->
  truthy (get task "id") = true -> truthy (get task "name") = true ->
  validateTask task =
    if strict_eq_str (get task "type") "error"
    then Throw (TaskProcessingError (processing_message task)
                  (get task "id") (get task "name"))
    else Ok tt.
Proof. unfold validateTask; intros -> -> -> ->; reflexivity. Qed.

Lemma validateTask_tagged task :
  well_formed task -> tagged_error task ->
  validateTask task =
    Throw (TaskProcessingError (processing_message task) (get task "id") (get task "name")).
Proof.
  intros Hwf Htag. destruct (well_formed_truthy _ Hwf) as (H1 & H2 & H3 & H4).
  rewrite validateTask_shape_ok by assumption. now rewrite Htag.
Qed.

Lemma validateTask_cases task :
  validateTask task = Ok tt
  \/ (exists msg, validateTask task = Throw (TaskValidationError msg task)
        /\ (truthy task = false \/ typeof task <> "object"
            \/ truthy (get task "id") = false \/ truthy (get task "name") = false))
  \/ (validateTask task =
        Throw (TaskProcessingError (processing_message task) (get task "id") (get task "name"))
      /\ truthy task = true /\ typeof task = "object"
      /\ truthy (get task "id") = true /\ truthy (get task "name") = true
      /\ strict_eq_str (get task "type") "error" = true).
Proof.
  unfold validateTask.
  destruct (truthy task) eqn:H1; cbn [negb orb]; [|right; left; eauto].
  destruct (String.eqb_spec (typeof task) "object") as [H2|H2]; cbn [negb];
    [|right; left; eauto 6].
  destruct (truthy (get task "id")) eqn:H3; cbn [negb orb]; [|right; left; eauto 7].
  destruct (truthy (get task "name")) eqn:H4; cbn [negb]; [|right; left; eauto 8].
  destruct (strict_eq_str (get task "type") "error") eqn:H5; [|now left].
  right; right; repeat split; auto.
Qed.

Lemma strict_eq_str_true v lit : strict_eq_str v lit = true -> v = VStr lit.
Proof.
  destruct v; cbn; try discriminate.
  intros H; apply String.eqb_eq in H; now subst.
Qed.


Lemma executor_outcome_spec c task t0 :
  executor_outcome c task t0 = Some (expected_outcome task t0).
Proof. apply executor_spec. Qed.

Lemma executor_quiescent c task t0 : quiescent (run_executor c task t0).
Proof. apply executor_spec. Qed.

Lemma executor_no_timer c task t0 e :
  validateTask task = Throw e -> processing_timers (run_executor c task t0) = [].
Proof.
  intros E. destruct (executor_spec c task t0) as (_ & _ & H & _).
  unfold expected_delays in H; rewrite E in H.
  destruct (processing_timers _); [reflexivity | discriminate].
Qed.

Lemma executor_throw c task t0 e :
  validateTask task = Throw e -> executor_outcome c task t0 = Some (t0, Rejected e).
Proof.
  intros E; rewrite executor_outcome_spec; unfold expected_outcome; now rewrite E.
Qed.


(** C5: for every descriptor the callback, Promise and async/await
    conventions are observably equivalent: each delivers exactly one
    outcome, the three outcomes are the same (the same success summary, or
    the same error of the same kind with the same context, as [validateTask]
    decides), they arrive at the same simulated instant, and the same
    processing delay is armed. *)
Theorem C5_conventions_equivalent (task : value) (t0 : Z) :
  executor_outcome Callback task t0 = executor_outcome Promise task t0
  /\ executor_outcome Promise task t0 = executor_outcome Async task t0
  /\ executor_outcome Async task t0 = Some (expected_outcome task t0)
  /\ (forall c c', List.map snd (processing_timers (run_executor c task t0))
                   = List.map snd (processing_timers (run_executor c' task t0)))
  /\ (forall c, quiescent (run_executor c task t0)).
Proof.
  rewrite !executor_outcome_spec. repeat split; try reflexivity.
  - intros c c'.
    destruct (executor_spec c task t0) as (_ & _ & -> & _).
    destruct (executor_spec c' task t0) as (_ & _ & -> & _). reflexivity.
  - intros c; apply executor_quiescent.
Qed.

(** C7 (the code at the failing input): a descriptor whose [duration] is 0
    does not settle at once; every convention waits the default 300
    milliseconds and reports 300 in the summary, because
    [task.duration || 300] takes 0 for an absent value. *)
Theorem C7_zero_duration_waits_default (c : convention) :
  executor_outcome c (descriptor 1 "Load" 0) 0
  = Some (300, Fulfilled (VStr (summary (descriptor 1 "Load" 0) (VNum 300))))
  /\ List.map snd (processing_timers (run_executor c (descriptor 1 "Load" 0) 0)) = [300].
Proof. destruct c; split; vm_compute; reflexivity. Qed.

(** The elapsed wait where [||] is harmless: a positive duration is waited
    as given, an absent one is the default 300. *)
Lemma elapsed_wait_positive c task t0 n :
  validateTask task = Ok tt -> get task "duration" = VNum n -> 0 < n ->
  executor_outcome c task t0 = Some (t0 + n, Fulfilled (VStr (summary task (VNum n)))).
Proof.
  intros E Hd Hn. rewrite executor_outcome_spec; unfold expected_outcome; rewrite E.
  unfold duration_of, js_or; rewrite Hd; cbn.
  destruct (Z.eqb_spec n 0); [lia|]. cbn.
  unfold delayMs; cbn. now rewrite Z.max_r by lia.
Qed.

Lemma elapsed_wait_absent c task t0 :
  validateTask task = Ok tt -> get task "duration" = VUndefined ->
  executor_outcome c task t0 = Some (t0 + 300, Fulfilled (VStr (summary task (VNum 300)))).
Proof.
  intros E Hd. rewrite executor_outcome_spec; unfold expected_outcome; rewrite E.
  unfold duration_of, js_or; rewrite Hd; reflexivity.
Qed.

(** C8: an invalid descriptor (absent, not a record, or lacking [id] or
    [name]) makes every executor convention fail with a validation error at
    the very instant of the call; no processing-delay timer is ever armed
    and nothing is left to run. *)
Theorem C8_invalid_fails_before_timer (c : convention) (task : value) (t0 : Z) :
  invalid task ->
  exists msg,
    executor_outcome c task t0 = Some (t0, Rejected (TaskValidationError msg task))
    /\ processing_timers (run_executor c task t0) = []
    /\ quiescent (run_executor c task t0).
Proof.
  intros H. destruct (validateTask_invalid _ H) as [msg E]. exists msg.
  split; [now apply executor_throw|].
  split; [now apply (executor_no_timer _ _ _ _ E) | apply executor_quiescent].
Qed.

Lemma C8_witness :
  exists msg,
    executor_outcome Callback (VObj [("id", VNum 4)]) 0
      = Some (0, Rejected (TaskValidationError msg (VObj [("id", VNum 4)])))
    /\ processing_timers (run_executor Callback (VObj [("id", VNum 4)]) 0) = []
    /\ quiescent (run_executor Callback (VObj [("id", VNum 4)]) 0).
Proof.
  apply (C8_invalid_fails_before_timer Callback (VObj [("id", VNum 4)]) 0).
  right; right; right; right; reflexivity.
Defined.

(** C9: the two failure kinds are never conflated.  For every descriptor and
    every convention: a well-formed descriptor tagged [type == "error"]
    fails with a processing error carrying its [id] and [name]; an invalid
    descriptor fails with a validation error carrying the descriptor itself;
    and conversely a processing error is only ever raised for a descriptor
    that is tagged and not invalid, a validation error only for one that is
    not well-formed. *)
Theorem C9_failure_kinds_distinct (c : convention) (task : value) (t0 : Z) :
  (well_formed task -> tagged_error task ->
     executor_outcome c task t0
     = Some (t0, Rejected (TaskProcessingError (processing_message task)
                             (get task "id") (get task "name"))))
  /\ (invalid task ->
        exists msg, executor_outcome c task t0
                    = Some (t0, Rejected (TaskValidationError msg task)))
  /\ (forall t e, executor_outcome c task t0 = Some (t, Rejected e) ->
        (is_processing e = true ->
           tagged_error task /\ ~ invalid task
           /\ e = TaskProcessingError (processing_message task)
                    (get task "id") (get task "name"))
        /\ (is_validation e = true ->
              ~ well_formed task
              /\ exists msg, e = TaskValidationError msg task)).
Proof.
  split; [|split].
  - intros Hwf Htag. apply executor_throw. now apply validateTask_tagged.
  - intros H. destruct (validateTask_invalid _ H) as [msg E].
    exists msg. now apply executor_throw.
  - intros t e. rewrite executor_outcome_spec; unfold expected_outcome.
    destruct (validateTask_cases task) as [E|[(msg & E & Hshape)|(E & H1 & H2 & H3 & H4 & H5)]];
      rewrite E; intros [= <- <-]; cbn.
    + split; [discriminate|]. intros _; split; [|eauto].
      intros Hwf. destruct (well_formed_truthy _ Hwf) as (W1 & W2 & W3 & W4).
      destruct Hshape as [S|[S|[S|S]]]; congruence.
    + split; [|discriminate]. intros _.
      split; [now apply strict_eq_str_true|]. split; [|reflexivity].
      intros Hinv. destruct (validateTask_invalid _ Hinv) as [msg E'].
      rewrite E in E'; discriminate.
Qed.

Lemma C9_witness :
  executor_outcome Async (failing_descriptor 7 "Report" 200) 5
  = Some (5, Rejected (TaskProcessingError
                         (processing_message (failing_descriptor 7 "Report" 200))
                         (VNum 7) (VStr "Report")))
  /\ exists msg, executor_outcome Async (VStr "Report") 5
                 = Some (5, Rejected (TaskValidationError msg (VStr "Report"))).
Proof.
  split.
  - apply (C9_failure_kinds_distinct Async (failing_descriptor 7 "Report" 200) 5).
    + split; [eexists; reflexivity|]. split; [exists 7; split; [reflexivity|lia]|].
      eexists; eexists; reflexivity.
    + reflexivity.
  - apply (C9_failure_kinds_distinct Async (VStr "Report") 5).
    right; right; left. intros [fs H]; discriminate H.
Defined.




(** * The sequential policies *)

Lemma lookup_mid0 {A} (l : list A) a k : (l ++ a :: k) !! length l = Some a.
Proof. now apply list_lookup_middle. Qed.

Lemma lookup_mid1 {A} (l : list A) a b k : (l ++ a :: b :: k) !! S (length l) = Some b.
Proof.
  change (l ++ a :: b :: k) with (l ++ [a] ++ b :: k). rewrite app_assoc.
  apply list_lookup_middle. rewrite length_app. cbn. lia.
Qed.

Lemma insert_mid0 {A} (l : list A) a b k : <[length l := b]> (l ++ a :: k) = l ++ b :: k.
Proof. rewrite insert_app_r_alt by lia. now rewrite Nat.sub_diag. Qed.

Lemma insert_mid1 {A} (l : list A) a b c k :
  <[S (length l) := c]> (l ++ a :: b :: k) = l ++ a :: c :: k.
Proof.
  rewrite insert_app_r_alt by lia.
  now replace (S (length l) - length l)%nat with 1%nat by lia.
Qed.

Lemma length_snoc {A} (l : list A) a : length (l ++ [a]) = S (length l).
Proof. rewrite length_app; cbn; lia. Qed.

(** Symbolic execution of the synchronous part of a job. *)
Ltac machine :=
  repeat (progress (unfold bind, settle, subscribe; cbn;
          rewrite ?length_snoc, ?lookup_mid0, ?lookup_mid1, ?insert_mid0, ?insert_mid1,
            ?app_nil_r, <- ?app_assoc)).

Lemma trace_calls_app a b : trace_calls (a ++ b) = trace_calls a ++ trace_calls b.
Proof. apply flat_map_app. Qed.

Lemma trace_timers_app a b : trace_timers (a ++ b) = trace_timers a ++ trace_timers b.
Proof. apply flat_map_app. Qed.

Lemma trace_handler_app a b : trace_handler (a ++ b) = trace_handler a ++ trace_handler b.
Proof. apply flat_map_app. Qed.

Lemma batch_guard_middle pre d post :
  batch_guard (VArr (pre ++ d :: post)) = Ok (pre ++ d :: post).
Proof. destruct pre; reflexivity. Qed.

Lemma processTaskPromise_ok task t st ag tm mq tr :
  succeeds task ->
  processTaskPromise task (mkState t st ag tm mq tr)
  = (length st,
     mkState t (st ++ [Pending []]) ag
       (tm ++ [mkTimer (t + wait_of task)
                 (T_promiseDone task (duration_of task) (length st))]) mq
       (tr ++ [E_call Promise task;
               E_setTimeout (T_promiseDone task (duration_of task) (length st))
                 (wait_of task)])).
Proof.
  intros E. unfold processTaskPromise. rewrite E. machine. reflexivity.
Qed.

Lemma processTaskPromise_throw task e t st ag tm mq tr :
  validateTask task = Throw e ->
  processTaskPromise task (mkState t st ag tm mq tr)
  = (length st,
     mkState t (st ++ [Settled t (Rejected e)]) ag tm mq (tr ++ [E_call Promise task])).
Proof.
  intros E. unfold processTaskPromise. rewrite E. machine. reflexivity.
Qed.

Lemma prefix_trace_nil : prefix_trace [] [].
Proof. repeat split. Qed.

Lemma prefix_trace_cons tr1 x tr' done :
  trace_calls tr1 = [x] -> List.map snd (trace_timers tr1) = [wait_of x] ->
  trace_handler tr1 = [] ->
  prefix_trace tr' done -> prefix_trace (tr1 ++ tr') (x :: done).
Proof.
  intros H1 H2 H3 (P1 & P2 & P3). unfold prefix_trace.
  rewrite trace_calls_app, trace_timers_app, trace_handler_app, map_app.
  rewrite H1, H2, H3, P1, P2, P3. repeat split.
Qed.

Section Promises.
Variables (rest : list value) (self : nat).

Lemma promises_turn task results t st ag tr :
  succeeds task ->
  run 2 (snd (processTasksPromises_loop (task :: rest) results self
                (mkState t st ag [] [] tr)))
  = snd (processTasksPromises_loop rest (results ++ [summary_of task]) self
           (mkState (t + wait_of task)
              (st ++ [Settled (t + wait_of task) (Fulfilled (summary_of task))])
              ag [] []
              (tr ++ [E_call Promise task;
                      E_setTimeout (T_promiseDone task (duration_of task) (length st))
                        (wait_of task)]))).
Proof.
  intros E. unfold processTasksPromises_loop at 1. unfold bind.
  rewrite (processTaskPromise_ok _ _ _ _ _ _ _ E). machine.
  unfold step. machine. reflexivity.
Qed.
End Promises.

Lemma promises_prefix pre : forall rest self results t st ag tr,
  Forall succeeds pre ->
  exists st' tr',
    run (2 * length pre)
        (snd (processTasksPromises_loop (pre ++ rest) results self
                (mkState t st ag [] [] tr)))
    = snd (processTasksPromises_loop rest (results ++ List.map summary_of pre) self
             (mkState (t + total_wait pre) (st ++ st') ag [] [] (tr ++ tr')))
    /\ prefix_trace tr' pre.
Proof.
  induction pre as [|x pre IH]; intros rest self results t st ag tr Hpre.
  - exists [], []. cbn. rewrite !app_nil_r, Z.add_0_r. split; [reflexivity|apply prefix_trace_nil].
  - inversion Hpre as [|? ? Hx Hpre']; subst.
    replace (2 * length (x :: pre))%nat with (2 + 2 * length pre)%nat by (cbn; lia).
    rewrite run_add. cbn [app]. rewrite promises_turn by assumption.
    edestruct IH as (st' & tr' & Hrun & Htr); [exact Hpre'|].
    rewrite Hrun. eexists (_ :: st'), (_ :: _ :: tr').
    split.
    + cbn [List.map total_wait fold_right]. rewrite <- !app_assoc.
      rewrite Z.add_assoc. reflexivity.
    + apply (prefix_trace_cons [_; _]); try reflexivity. exact Htr.
Qed.

Lemma promises_abort d post results self e t st ag tr :
  validateTask d = Throw e -> st !! self = Some (Pending []) ->
  exists s1,
    run 1 (snd (processTasksPromises_loop (d :: post) results self
                  (mkState t st ag [] [] tr))) = s1
    /\ quiescent s1
    /\ settled s1 self = Some (t, Rejected e)
    /\ trace s1 = tr ++ [E_call Promise d].
Proof.
  intros E Hself. eexists; split; [reflexivity|].
  unfold processTasksPromises_loop, bind.
  rewrite (processTaskPromise_throw _ _ _ _ _ _ _ _ E). machine.
  unfold step. machine.
  assert (H : (st ++ [Settled t (Rejected e)]) !! self = Some (Pending []))
    by now apply lookup_app_l_Some.
  rewrite H. unfold quiescent, settled, step. cbn.
  rewrite list_lookup_insert_eq by (apply lookup_lt_Some in H; exact H).
  repeat split.
Qed.

Lemma async_abort d post results self e t st ag tr :
  validateTask d = Throw e -> st !! self = Some (Pending []) ->
  exists s1,
    run 1 (snd (processTasksAsyncAwait_loop (d :: post) results self
                  (mkState t st ag [] [] tr))) = s1
    /\ quiescent s1
    /\ settled s1 self = Some (t, Rejected e)
    /\ trace s1 = tr ++ [E_call Async d; E_console_error (console_error_AsyncAwait e)].
Proof.
  intros E Hself. eexists; split; [reflexivity|].
  unfold processTasksAsyncAwait_loop, processTaskAsync. rewrite E. machine.
  unfold step. machine.
  assert (H : (st ++ [Settled t (Rejected e)]) !! self = Some (Pending []))
    by now apply lookup_app_l_Some.
  rewrite H. unfold quiescent, settled, step. cbn.
  rewrite list_lookup_insert_eq by (apply lookup_lt_Some in H; exact H).
  repeat split.
Qed.

Lemma async_turn rest self task results t st ag tr :
  succeeds task ->
  run 3 (snd (processTasksAsyncAwait_loop (task :: rest) results self
                (mkState t st ag [] [] tr)))
  = snd (processTasksAsyncAwait_loop rest (results ++ [summary_of task]) self
           (mkState (t + wait_of task)
              (st ++ [Settled (t + wait_of task) (Fulfilled (summary_of task));
                      Settled (t + wait_of task) (Fulfilled VUndefined)])
              ag [] []
              (tr ++ [E_call Async task;
                      E_setTimeout (T_delay (S (length st))) (wait_of task);
                      E_console_log (mark_ok ++ " " ++ toString (summary_of task))%string]))).
Proof.
  intros E. unfold processTasksAsyncAwait_loop at 1, processTaskAsync, delay.
  rewrite E. machine.
  unfold step. machine. reflexivity.
Qed.

Lemma async_prefix pre : forall rest self results t st ag tr,
  Forall succeeds pre ->
  exists st' tr',
    run (3 * length pre)
        (snd (processTasksAsyncAwait_loop (pre ++ rest) results self
                (mkState t st ag [] [] tr)))
    = snd (processTasksAsyncAwait_loop rest (results ++ List.map summary_of pre) self
             (mkState (t + total_wait pre) (st ++ st') ag [] [] (tr ++ tr')))
    /\ prefix_trace tr' pre.
Proof.
  induction pre as [|x pre IH]; intros rest self results t st ag tr Hpre.
  - exists [], []. cbn. rewrite !app_nil_r, Z.add_0_r. split; [reflexivity|apply prefix_trace_nil].
  - inversion Hpre as [|? ? Hx Hpre']; subst.
    replace (3 * length (x :: pre))%nat with (3 + 3 * length pre)%nat by (cbn; lia).
    rewrite run_add. cbn [app]. rewrite async_turn by assumption.
    edestruct IH as (st' & tr' & Hrun & Htr); [exact Hpre'|].
    rewrite Hrun. eexists (_ :: _ :: st'), (_ :: _ :: _ :: tr').
    split.
    + cbn [List.map total_wait fold_right]. rewrite <- !app_assoc.
      rewrite Z.add_assoc. reflexivity.
    + apply (prefix_trace_cons [_; _; _]); try reflexivity. exact Htr.
Qed.

(** The arrow function of [processNext], called with a result, is
    [processNext] at the next index. *)
Lemma invoke_next tasks index results k res :
  invoke (CB_next tasks index results k) None res
  = processNext tasks (S index) (results ++ [res]) k.
Proof. reflexivity. Qed.

Lemma callbacks_turn tasks index results k task t st ag tr :
  tasks !! index = Some task -> succeeds task ->
  run 2 (snd (processNext tasks index results k (mkState t st ag [] [] tr)))
  = snd (processNext tasks (S index) (results ++ [summary_of task]) k
           (mkState (t + wait_of task) st ag [] []
              (tr ++ [E_call Callback task;
                      E_setTimeout (T_deferred task (CB_next tasks index results k)) 0;
                      E_setTimeout (T_callbackDone task (duration_of task)
                                      (CB_next tasks index results k)) (wait_of task)]))).
Proof.
  intros Hi E. unfold processNext at 1.
  assert (Hlt : (index < length tasks)%nat) by (apply lookup_lt_Some in Hi; exact Hi).
  destruct (Nat.leb_spec (length tasks) index); [lia|].
  rewrite Hi. unfold processTaskCallback. machine.
  unfold step. machine. rewrite E. machine.
  rewrite delayMs_zero, Z.add_0_r. 
  change (if (length tasks <=? S index)%nat then _ else _)
    with (processNext tasks (S index) (results ++ [summary_of task]) k).
  reflexivity.
Qed.

Lemma callbacks_prefix k rest pre : forall done results t st ag tr,
  Forall succeeds pre ->
  exists tr',
    run (2 * length pre)
        (snd (processNext (done ++ pre ++ rest) (length done) results k
                (mkState t st ag [] [] tr)))
    = snd (processNext (done ++ pre ++ rest) (length done + length pre)
             (results ++ List.map summary_of pre) k
             (mkState (t + total_wait pre) st ag [] [] (tr ++ tr')))
    /\ prefix_trace tr' pre.
Proof.
  induction pre as [|x pre IH]; intros done results t st ag tr Hpre.
  - exists []. cbn. rewrite !app_nil_r, Z.add_0_r, Nat.add_0_r.
    split; [reflexivity|apply prefix_trace_nil].
  - inversion Hpre as [|? ? Hx Hpre']; subst.
    replace (2 * length (x :: pre))%nat with (2 + 2 * length pre)%nat by (cbn; lia).
    rewrite run_add. cbn [app].
    rewrite (callbacks_turn _ _ _ _ x) by (assumption || apply lookup_mid0).
    replace (done ++ x :: pre ++ rest) with ((done ++ [x]) ++ pre ++ rest)
      by (now rewrite <- app_assoc).
    rewrite <- (length_snoc done x).
    edestruct (IH (done ++ [x])) as (tr' & Hrun & Htr); [exact Hpre'|].
    rewrite Hrun. eexists (_ :: _ :: _ :: tr').
    split.
    + cbn [List.map total_wait fold_right length]. rewrite <- !app_assoc.
      rewrite Z.add_assoc, length_snoc, Nat.add_succ_r. reflexivity.
    + apply (prefix_trace_cons [_; _; _]); try reflexivity. exact Htr.
Qed.

Lemma callbacks_abort tasks index results d e t st ag tr :
  tasks !! index = Some d -> validateTask d = Throw e ->
  exists s1,
    run 1 (snd (processNext tasks index results CB_handler (mkState t st ag [] [] tr))) = s1
    /\ quiescent s1
    /\ trace s1 = tr ++ [E_call Callback d;
                         E_setTimeout (T_deferred d (CB_next tasks index results CB_handler)) 0;
                         E_handler t (Some e) (VArr results)].
Proof.
  intros Hi E. eexists; split; [reflexivity|]. unfold processNext.
  assert (Hlt : (index < length tasks)%nat) by (apply lookup_lt_Some in Hi; exact Hi).
  destruct (Nat.leb_spec (length tasks) index); [lia|].
  rewrite Hi. unfold processTaskCallback. machine.
  unfold step. machine. rewrite E. machine.
  rewrite delayMs_zero, Z.add_0_r. unfold quiescent, step; cbn. split; reflexivity.
Qed.

(** ** A batch whose first failing descriptor is [d] *)

Lemma snd_bind_ret {A B} (m : M A) (b : B) s : snd ((m ;;; ret b) s) = snd (m s).
Proof. unfold bind, ret. now destruct (m s). Qed.

Lemma processTasksPromises_start items t0 :
  batch_guard (VArr items) = Ok items ->
  snd (processTasksPromises (VArr items) (init t0))
  = snd (processTasksPromises_loop items [] 0 (mkState t0 [Pending []] [] [] [] [])).
Proof.
  intros E. unfold processTasksPromises. unfold bind at 1. cbn [newPromise init store length].
  rewrite E. apply snd_bind_ret.
Qed.

Lemma processTasksAsyncAwait_start items t0 :
  batch_guard (VArr items) = Ok items ->
  snd (processTasksAsyncAwait (VArr items) (init t0))
  = snd (processTasksAsyncAwait_loop items [] 0 (mkState t0 [Pending []] [] [] [] [])).
Proof.
  intros E. unfold processTasksAsyncAwait. unfold bind at 1. cbn [newPromise init store length].
  rewrite E. apply snd_bind_ret.
Qed.

Section FirstFailure.
Variables (pre post : list value) (d : value) (e : error) (t0 : Z).
Hypothesis Hpre : Forall succeeds pre.
Hypothesis Hd : validateTask d = Throw e.

Let batch : value := VArr (pre ++ d :: post).

Lemma first_failure_promises :
  exists n,
    let s := run n (snd (processTasksPromises batch (init t0))) in
    quiescent s
    /\ settled s 0 = Some (t0 + total_wait pre, Rejected e)
    /\ executed s = pre ++ [d]
    /\ List.map snd (processing_timers s) = List.map wait_of pre
    /\ handler_calls s = [].
Proof.
  exists (2 * length pre + 1)%nat. cbv zeta.
  unfold batch. rewrite processTasksPromises_start by apply batch_guard_middle.
  destruct (promises_prefix pre (d :: post) 0%nat [] t0 [Pending []] [] [] Hpre)
    as (st' & tr' & Hrun & C1 & C2 & C3).
  rewrite run_add, Hrun.
  edestruct (promises_abort d post) as (s1 & Hs1 & Q & S & T);
    [exact Hd | | rewrite Hs1]; [reflexivity|].
  unfold executed, processing_timers, handler_calls. rewrite T.
  rewrite !trace_calls_app, !trace_timers_app, !trace_handler_app, !map_app, C1, C2, C3.
  cbn. rewrite app_nil_r. repeat split; assumption.
Qed.

Lemma first_failure_async :
  exists n,
    let s := run n (snd (processTasksAsyncAwait batch (init t0))) in
    quiescent s
    /\ settled s 0 = Some (t0 + total_wait pre, Rejected e)
    /\ executed s = pre ++ [d]
    /\ List.map snd (processing_timers s) = List.map wait_of pre
    /\ handler_calls s = [].
Proof.
  exists (3 * length pre + 1)%nat. cbv zeta.
  unfold batch. rewrite processTasksAsyncAwait_start by apply batch_guard_middle.
  destruct (async_prefix pre (d :: post) 0%nat [] t0 [Pending []] [] [] Hpre)
    as (st' & tr' & Hrun & C1 & C2 & C3).
  rewrite run_add, Hrun.
  edestruct (async_abort d post) as (s1 & Hs1 & Q & S & T);
    [exact Hd | | rewrite Hs1]; [reflexivity|].
  unfold executed, processing_timers, handler_calls. rewrite T.
  rewrite !trace_calls_app, !trace_timers_app, !trace_handler_app, !map_app, C1, C2, C3.
  cbn. rewrite app_nil_r. repeat split; assumption.
Qed.

Lemma first_failure_callbacks :
  exists n,
    let s := run n (snd (processTasksCallbacks batch CB_handler (init t0))) in
    quiescent s
    /\ handler_calls s
       = [(t0 + total_wait pre, Some e, VArr (List.map summary_of pre))]
    /\ executed s = pre ++ [d]
    /\ List.map snd (processing_timers s) = List.map wait_of pre.
Proof.
  exists (2 * length pre + 1)%nat. cbv zeta.
  unfold batch, processTasksCallbacks, init. rewrite batch_guard_middle.
  destruct (callbacks_prefix CB_handler (d :: post) pre [] [] t0 [] [] [] Hpre)
    as (tr' & Hrun & C1 & C2 & C3).
  cbn [app length Nat.add] in Hrun.
  rewrite run_add, Hrun.
  edestruct (callbacks_abort (pre ++ d :: post) (length pre)) as (s1 & Hs1 & Q & T);
    [apply lookup_mid0 | exact Hd | rewrite Hs1].
  unfold executed, processing_timers, handler_calls. rewrite T.
  rewrite !trace_calls_app, !trace_timers_app, !trace_handler_app, !map_app, C1, C2, C3.
  cbn. rewrite app_nil_r. repeat split; assumption.
Qed.
End FirstFailure.



(** C4 (the code at the failing input): when the second descriptor of a
    batch fails, the sequential callback chain calls the completion handler
    with the error and, as second argument, the [results] array holding the
    summary collected so far; only the batch guard passes [null] next to
    its error. *)
Theorem C4_partial_results_handed_over :
  handler_calls (run 3 (start_policy SequentialCallbacks
                          (VArr [descriptor 1 "Load" 100;
                                 failing_descriptor 2 "Parse" 50;
                                 descriptor 3 "Send" 10]) 0))
  = [(100,
      Some (TaskProcessingError
              (processing_message (failing_descriptor 2 "Parse" 50))
              (VNum 2) (VStr "Parse")),
      VArr [summary_of (descriptor 1 "Load" 100)])]
  /\ handler_calls (start_policy SequentialCallbacks (VArr []) 0)
     = [(0, Some (Error msg_batch), VNull)].
Proof. split; vm_compute; reflexivity. Qed.

(** The same for every batch: the handler receives the summaries of all the
    descriptors that ran before the failing one. *)
Lemma callbacks_failure_carries_results pre post d e t0 :
  Forall succeeds pre -> validateTask d = Throw e ->
  exists n,
    handler_calls (run n (start_policy SequentialCallbacks (VArr (pre ++ d :: post)) t0))
    = [(t0 + total_wait pre, Some e, VArr (List.map summary_of pre))].
Proof.
  intros Hpre Hd.
  destruct (first_failure_callbacks pre post d e t0 Hpre Hd) as (n & _ & H & _).
  now exists n.
Qed.

(** C6: every policy of [taskRunner.js] rejects an empty batch, and a batch
    that is not a list, at the instant of the call with the plain [Error]
    "Tasks must be a non-empty array", which is neither a validation nor a
    processing failure; no executor is called and nothing is left to run.
    The Promise variant of [asyncTasks.js] has no such guard: on an empty
    list it fulfils with the empty result list. *)
Theorem C6_batch_guard_plain_error (p : policy) (batch : value) (t0 : Z) :
  empty_or_not_list batch ->
  (let s := start_policy p batch t0 in
   quiescent s
   /\ policy_outcome p s = Some (t0, Rejected (Error msg_batch))
   /\ taxonomy (Error msg_batch) = false
   /\ executed s = [])
  /\ (let (r, s') := AsyncTasks.processTasksPromises (VArr []) (init t0) in
      r = Ok 0%nat /\ quiescent s' /\ settled s' 0 = Some (t0, Fulfilled (VArr []))).
Proof.
  intros H. split; [|repeat split].
  assert (E : batch_guard batch = Throw (Error msg_batch)).
  { destruct H as [->|H]; [reflexivity|].
    destruct batch; try reflexivity. exfalso; now apply (H items). }
  destruct p; cbv zeta; unfold start_policy, policy_outcome, processTasksCallbacks,
    processTasksPromises, processTasksAsyncAwait, processTasksParallel, processTasksRace,
    processTasksParallelAsync, processTasksRaceAsync; rewrite E; repeat split.
Qed.

Lemma C6_witness :
  (let s := start_policy Parallel (VNum 5) 0 in
   quiescent s
   /\ policy_outcome Parallel s = Some (0, Rejected (Error msg_batch))
   /\ taxonomy (Error msg_batch) = false
   /\ executed s = [])
  /\ (let (r, s') := AsyncTasks.processTasksPromises (VArr []) (init 0) in
      r = Ok 0%nat /\ quiescent s' /\ settled s' 0 = Some (0, Fulfilled (VArr []))).
Proof.
  apply (C6_batch_guard_plain_error Parallel (VNum 5) 0).
  right; intros items H; discriminate H.
Defined.

(** C6 as worded fails: the race policy rejects the empty batch with an
    error outside the taxonomy. *)
Lemma C6_counterexample :
  ~ rejects_with_taxonomy (policy_outcome Race (start_policy Race (VArr []) 0)).
Proof.
  intros (t & e & H & T). vm_compute in H. injection H as _ He. subst e. discriminate T.
Qed.

(** * The concurrent policies *)

(** ** The synchronous part: creating and subscribing *)

Lemma mapM_processTaskPromise items : forall t st ag tm mq tr,
  exists tr',
    mapM processTaskPromise items (mkState t st ag tm mq tr)
    = (seq (length st) (length items),
       mkState t (st ++ List.map (created_cell t) items) ag
         (tm ++ created_timers t (length st) items) mq tr').
Proof.
  induction items as [|x items IH]; intros t st ag tm mq tr.
  - exists tr. cbn. now rewrite !app_nil_r.
  - cbn [mapM]. unfold bind at 1.
    destruct (validateTask x) as [[]|e] eqn:E.
    + rewrite (processTaskPromise_ok _ _ _ _ _ _ _ E).
      edestruct IH as (tr' & Hrun). unfold bind at 1. rewrite Hrun.
      exists tr'. cbn [ret List.map created_timers length seq]. unfold created_cell at 2.
      rewrite E, length_snoc, <- !app_assoc. reflexivity.
    + rewrite (processTaskPromise_throw _ _ _ _ _ _ _ _ E).
      edestruct IH as (tr' & Hrun). unfold bind at 1. rewrite Hrun.
      exists tr'. cbn [ret List.map created_timers length seq]. unfold created_cell at 2.
      rewrite E, length_snoc, <- !app_assoc. reflexivity.
Qed.

Lemma iforM_subscribe f cs : forall i st rest t ag tm mq tr,
  iforM_ (fun i p => subscribe p (f i)) i (seq (length st) (length cs))
    (mkState t (st ++ cs ++ rest) ag tm mq tr)
  = (tt, mkState t (st ++ subscribed f i cs ++ rest) ag tm (mq ++ queued f i cs) tr).
Proof.
  induction cs as [|c cs IH]; intros i st rest t ag tm mq tr.
  - cbn. now rewrite app_nil_r.
  - cbn [length seq iforM_ subscribed queued app]. unfold bind, subscribe at 1.
    cbn [store]. rewrite lookup_mid0.
    destruct c as [rs|t' o]; cbn [now aggs timers micro trace].
    + rewrite insert_mid0.
      replace (st ++ Pending (rs ++ [f i]) :: cs ++ rest)
        with ((st ++ [Pending (rs ++ [f i])]) ++ cs ++ rest) by now rewrite <- app_assoc.
      rewrite <- (length_snoc st (Pending (rs ++ [f i]))), IH.
      now rewrite <- app_assoc.
    + replace (st ++ Settled t' o :: cs ++ rest)
        with ((st ++ [Settled t' o]) ++ cs ++ rest) by now rewrite <- app_assoc.
      rewrite <- (length_snoc st (Settled t' o)), IH.
      now rewrite <- !app_assoc.
Qed.

Lemma length_subscribed f cs : forall i, length (subscribed f i cs) = length cs.
Proof. induction cs as [|c cs IH]; intros i; cbn; [reflexivity|]. now rewrite IH. Qed.

Lemma lookup_subscribed f cs : forall i j rs,
  cs !! j = Some (Pending rs) ->
  subscribed f i cs !! j = Some (Pending (rs ++ [f (i + j)%nat])).
Proof.
  induction cs as [|c cs IH]; intros i j rs H; [discriminate|].
  destruct j as [|j].
  - cbn in H. injection H as ->. cbn. now rewrite Nat.add_0_r.
  - rewrite Nat.add_succ_r. exact (IH (S i) j rs H).
Qed.

Lemma processTasksRace_setup items t0 :
  batch_guard (VArr items) = Ok items ->
  exists tr,
    snd (processTasksRace (VArr items) (init t0))
    = mkState t0
        (Pending [] :: subscribed (fun _ => R_race (S (length items))) 0
                         (List.map (created_cell t0) items)
           ++ [Pending [R_await (F_processTasksRace 0)]])
        [] (created_timers t0 1 items)
        (queued (fun _ => R_race (S (length items))) 0 (List.map (created_cell t0) items))
        tr.
Proof.
  intros E. unfold processTasksRace, init. unfold bind at 1.
  cbn [newPromise store length now aggs timers micro trace app].
  rewrite E, snd_bind_ret. unfold bind at 1.
  destruct (mapM_processTaskPromise items t0 [Pending []] [] [] [] []) as (tr & ->).
  unfold Promise_race, bind. cbn [newPromise store now aggs timers micro trace length app].
  rewrite length_map.
  pose proof (iforM_subscribe (fun _ => R_race (S (length items)))
                (List.map (created_cell t0) items) 0 [Pending []] [Pending []]
                t0 [] (created_timers t0 1 items) [] tr) as H.
  rewrite length_map in H. cbn [length app] in H.
  rewrite H. cbn [ret snd fst].
  exists tr. unfold subscribe. cbn [store now aggs timers micro trace].
  set (cs := subscribed _ 0 _).
  assert (Hl : length (Pending [] :: cs) = S (length items))
    by (cbn; unfold cs; now rewrite length_subscribed, length_map).
  change (Pending [] :: cs ++ [Pending []]) with ((Pending [] :: cs) ++ [Pending []]).
  rewrite <- Hl, lookup_mid0, insert_mid0. reflexivity.
Qed.

Lemma batch_guard_Ok_nonempty items :
  batch_guard (VArr items) = Ok items -> Nat.eqb (length items) 0 = false.
Proof. destruct items; [discriminate | reflexivity]. Qed.

Lemma processTasksParallel_setup items t0 :
  batch_guard (VArr items) = Ok items ->
  exists tr,
    snd (processTasksParallel (VArr items) (init t0))
    = mkState t0
        (Pending [] :: subscribed (R_all (S (length items)) 0) 0
                         (List.map (created_cell t0) items)
           ++ [Pending [R_await (F_processTasksParallel 0)]])
        [mkAgg (replicate (length items) VUndefined) (length items)]
        (created_timers t0 1 items)
        (queued (R_all (S (length items)) 0) 0 (List.map (created_cell t0) items))
        tr.
Proof.
  intros E. unfold processTasksParallel, init. unfold bind at 1.
  cbn [newPromise store length now aggs timers micro trace app].
  rewrite E, snd_bind_ret. unfold bind at 1.
  destruct (mapM_processTaskPromise items t0 [Pending []] [] [] [] []) as (tr & ->).
  unfold Promise_all, bind.
  cbn [newPromise newAgg store now aggs timers micro trace length app].
  rewrite !length_map, !length_seq.
  pose proof (iforM_subscribe (R_all (S (length items)) 0)
                (List.map (created_cell t0) items) 0 [Pending []] [Pending []]
                t0 [mkAgg (replicate (length items) VUndefined) (length items)]
                (created_timers t0 1 items) [] tr) as H.
  rewrite length_map in H. cbn [length app] in H.
  rewrite H, (batch_guard_Ok_nonempty _ E). cbn [ret snd fst].
  exists tr. unfold subscribe. cbn [store now aggs timers micro trace].
  set (cs := subscribed _ 0 _).
  assert (Hl : length (Pending [] :: cs) = S (length items))
    by (cbn; unfold cs; now rewrite length_subscribed, length_map).
  change (Pending [] :: cs ++ [Pending []]) with ((Pending [] :: cs) ++ [Pending []]).
  rewrite <- Hl, lookup_mid0, insert_mid0. reflexivity.
Qed.

(** ** Single jobs on a known store *)

Lemma settle_pending p o rs t st ag tm mq tr :
  st !! p = Some (Pending rs) ->
  settle p o (mkState t st ag tm mq tr)
  = (tt, mkState t (<[p := Settled t o]> st) ag tm
           (mq ++ List.map (fun r => (r, o)) rs) tr).
Proof. intros H; unfold settle; cbn [store]; now rewrite H. Qed.

Lemma settle_settled p o t' o' t st ag tm mq tr :
  st !! p = Some (Settled t' o') ->
  settle p o (mkState t st ag tm mq tr) = (tt, mkState t st ag tm mq tr).
Proof. intros H; unfold settle; cbn [store]; now rewrite H. Qed.

Lemma step_micro r o q t st ag tm tr :
  step (mkState t st ag tm ((r, o) :: q) tr)
  = Some (snd (react r o (mkState t st ag tm q tr))).
Proof. reflexivity. Qed.

Lemma step_timer u rest t st ag tm tr :
  pop_timer tm = Some (u, rest) ->
  step (mkState t st ag tm [] tr)
  = Some (snd (fire (t_cb u) (mkState (t_due u) st ag rest [] tr))).
Proof. intros H; unfold step; cbn [micro timers]; now rewrite H. Qed.

(** ** A rejection already in the microtask queue wins *)

Section RejectionWins.
Variables (f : nat -> reaction) (F : frame) (res : nat).
Hypothesis react_f : forall j e, react (f j) (Rejected e) = settle res (Rejected e).
Hypothesis resume_F : forall o, resume F o = settle 0 o.

Lemma drain_rejections q : forall tail t st ag tm tr t' o',
  st !! res = Some (Settled t' o') -> Forall (rejection_of f) q ->
  run (length q) (mkState t st ag tm (q ++ tail) tr) = mkState t st ag tm tail tr.
Proof.
  induction q as [|[r o] q IH]; intros tail t st ag tm tr t' o' Hres Hq; [reflexivity|].
  inversion Hq as [|? ? Hro Hq']; subst.
  destruct Hro as (j & e & Hro). injection Hro as -> ->.
  cbn [length app]. rewrite (run_S _ _ _ (step_micro _ _ _ _ _ _ _ _)).
  rewrite react_f, (settle_settled _ _ _ _ _ _ _ _ _ _ Hres). cbn [snd].
  now apply (IH _ _ _ _ _ _ t' o').
Qed.

Lemma rejection_wins j0 e q t st ag tm tr :
  st !! 0%nat = Some (Pending []) -> st !! res = Some (Pending [R_await F]) ->
  res <> 0%nat -> Forall (rejection_of f) q ->
  settled (run (1 + (length q + 1)) (mkState t st ag tm ((f j0, Rejected e) :: q) tr)) 0
  = Some (t, Rejected e).
Proof.
  intros H0 Hres Hne Hq.
  rewrite run_add. cbn [run]. rewrite step_micro, react_f.
  rewrite (settle_pending _ _ _ _ _ _ _ _ _ Hres). cbn [snd List.map].
  rewrite run_add.
  rewrite (drain_rejections q _ _ _ _ _ _ t (Rejected e)); [|
    apply list_lookup_insert_eq; now apply lookup_lt_Some in Hres | exact Hq].
  cbn [run]. rewrite step_micro. cbn [react]. rewrite resume_F.
  assert (H0' : <[res := Settled t (Rejected e)]> st !! 0%nat = Some (Pending []))
    by now rewrite list_lookup_insert_ne.
  rewrite (settle_pending _ _ _ _ _ _ _ _ _ H0'). cbn [snd].
  unfold settled; cbn [store].
  rewrite list_lookup_insert_eq; [reflexivity|]. now apply lookup_lt_Some in H0'.
Qed.
End RejectionWins.

Lemma queued_succeeding_prefix f pre : forall i t l,
  Forall succeeds pre ->
  queued f i (List.map (created_cell t) (pre ++ l))
  = queued f (i + length pre) (List.map (created_cell t) l).
Proof.
  induction pre as [|x pre IH]; intros i t l H; cbn [app length].
  - now rewrite Nat.add_0_r.
  - inversion H as [|? ? Hx Hpre]; subst.
    cbn [List.map queued]. unfold created_cell at 1. rewrite Hx. cbn [app].
    rewrite IH by assumption. now rewrite Nat.add_succ_r.
Qed.

Lemma queued_rejections f t l : forall i,
  Forall (rejection_of f) (queued f i (List.map (created_cell t) l)).
Proof.
  induction l as [|x l IH]; intros i; cbn [List.map queued]; [constructor|].
  unfold created_cell at 1. destruct (validateTask x) as [[]|e]; cbn [app]; [apply IH|].
  constructor; [now exists i, e | apply IH].
Qed.

Lemma queued_first_failure f t pre x e post :
  Forall succeeds pre -> validateTask x = Throw e ->
  queued f 0 (List.map (created_cell t) (pre ++ x :: post))
  = (f (length pre), Rejected e)
      :: queued f (S (length pre)) (List.map (created_cell t) post).
Proof.
  intros Hpre Hx. rewrite queued_succeeding_prefix by assumption.
  cbn [List.map queued Nat.add]. unfold created_cell at 1. now rewrite Hx.
Qed.

Lemma contest_store_self f c (cs : list cell) :
  (Pending [] :: subscribed f 0 cs ++ [c]) !! 0%nat = Some (Pending []).
Proof. reflexivity. Qed.

Lemma contest_store_result f c (cs : list cell) n :
  length cs = n -> (Pending [] :: subscribed f 0 cs ++ [c]) !! S n = Some c.
Proof.
  intros <-. change (Pending [] :: subscribed f 0 cs ++ [c])
    with ((Pending [] :: subscribed f 0 cs) ++ [c]).
  rewrite <- (length_subscribed f cs 0). apply (lookup_mid0 (Pending [] :: _)).
Qed.

Section FirstRejection.
Variables (pre post : list value) (x : value) (e : error) (t0 : Z).
Hypothesis Hpre : Forall succeeds pre.
Hypothesis Hx : validateTask x = Throw e.

Lemma race_first_rejection :
  settles_with (snd (processTasksRace (VArr (pre ++ x :: post)) (init t0))) 0 t0
    (Rejected e).
Proof.
  destruct (processTasksRace_setup _ t0 (batch_guard_middle pre x post)) as (tr & ->).
  rewrite (queued_first_failure _ _ _ _ _ _ Hpre Hx).
  set (q := queued _ (S (length pre)) _).
  apply (settles_with_intro (1 + (length q + 1))).
  apply (rejection_wins (fun _ => R_race (S (length (pre ++ x :: post))))
           (F_processTasksRace 0) (S (length (pre ++ x :: post))))
    with (j0 := length pre);
    [ reflexivity | reflexivity | apply contest_store_self
    | apply contest_store_result; now rewrite length_map
    | discriminate | apply queued_rejections ].
Qed.

Lemma parallel_first_rejection :
  settles_with (snd (processTasksParallel (VArr (pre ++ x :: post)) (init t0))) 0 t0
    (Rejected e).
Proof.
  destruct (processTasksParallel_setup _ t0 (batch_guard_middle pre x post)) as (tr & ->).
  rewrite (queued_first_failure _ _ _ _ _ _ Hpre Hx).
  set (q := queued _ (S (length pre)) _).
  apply (settles_with_intro (1 + (length q + 1))).
  apply (rejection_wins (R_all (S (length (pre ++ x :: post))) 0)
           (F_processTasksParallel 0) (S (length (pre ++ x :: post))))
    with (j0 := length pre);
    [ reflexivity | reflexivity | apply contest_store_self
    | apply contest_store_result; now rewrite length_map
    | discriminate | apply queued_rejections ].
Qed.
End FirstRejection.

(** ** With no rejection, the timers decide *)

Lemma created_timers_lookup t items : forall base j,
  Forall succeeds items ->
  created_timers t base items !! j
  = (fun x => mkTimer (t + wait_of x) (T_promiseDone x (duration_of x) (base + j)))
      <$> items !! j.
Proof.
  induction items as [|x items IH]; intros base j H; [reflexivity|].
  inversion H as [|? ? Hx Hrest]; subst.
  cbn [created_timers]. rewrite Hx. cbn [app].
  destruct j as [|j]; cbn.
  - now rewrite Nat.add_0_r.
  - rewrite Nat.add_succ_r. exact (IH (S base) j Hrest).
Qed.

Lemma queued_all_succeed f t items :
  Forall succeeds items -> queued f 0 (List.map (created_cell t) items) = [].
Proof.
  intros H. rewrite <- (app_nil_r items).
  now rewrite queued_succeeding_prefix.
Qed.

Lemma contest_store_contender f c t items j x :
  items !! j = Some x -> succeeds x ->
  (Pending [] :: subscribed f 0 (List.map (created_cell t) items) ++ [c]) !! S j
  = Some (Pending [f j]).
Proof.
  intros Hj Hx.
  assert (H : List.map (created_cell t) items !! j = Some (Pending [])).
  { change (List.map (created_cell t) items) with (created_cell t <$> items).
    rewrite list_lookup_fmap, Hj. cbn. unfold created_cell. now rewrite Hx. }
  apply (lookup_subscribed f _ 0) in H. cbn in H.
  change ((Pending [] :: subscribed f 0 (List.map (created_cell t) items) ++ [c]) !! S j)
    with ((subscribed f 0 (List.map (created_cell t) items) ++ [c]) !! j).
  now apply lookup_app_l_Some.
Qed.

Lemma pop_timer_elem ts u rest : pop_timer ts = Some (u, rest) -> u ∈ ts.
Proof.
  revert u rest; induction ts as [|t ts IH]; intros u rest H; [discriminate|].
  cbn in H. destruct (pop_timer ts) as [[u' rest']|] eqn:E.
  - destruct (t_due t <=? t_due u'); injection H as <- <-.
    + apply list_elem_of_here.
    + apply list_elem_of_further. now apply (IH _ rest').
  - injection H as <- <-. apply list_elem_of_here.
Qed.

Lemma pop_timer_split ts u rest :
  pop_timer ts = Some (u, rest) ->
  exists l1 l2, ts = l1 ++ u :: l2 /\ rest = l1 ++ l2.
Proof.
  revert u rest; induction ts as [|t ts IH]; intros u rest H; [discriminate|].
  cbn in H. destruct (pop_timer ts) as [[u' rest']|] eqn:E.
  - destruct (t_due t <=? t_due u'); injection H as <- <-.
    + now exists [], ts.
    + destruct (IH _ _ eq_refl) as (l1 & l2 & -> & ->).
      now exists (t :: l1), l2.
  - injection H as <- <-. destruct ts; [now exists [], [] | ].
    cbn in E. destruct (pop_timer ts) as [[? ?]|]; [destruct (_ <=? _)|]; discriminate.
Qed.

Lemma pop_timer_nonempty t ts : exists u rest, pop_timer (t :: ts) = Some (u, rest).
Proof.
  cbn. destruct (pop_timer ts) as [[u rest]|]; [destruct (_ <=? _)|]; eauto.
Qed.

Lemma pop_timer_le ts u rest :
  pop_timer ts = Some (u, rest) -> forall v, v ∈ ts -> t_due u <= t_due v.
Proof.
  revert u rest; induction ts as [|t ts IH]; intros u rest H v Hv; [discriminate|].
  cbn in H. destruct (pop_timer ts) as [[u' rest']|] eqn:E.
  - specialize (IH _ _ eq_refl).
    destruct (Z.leb_spec (t_due t) (t_due u')); injection H as <- <-;
      apply elem_of_cons in Hv as [->|Hv]; try lia; specialize (IH v Hv); lia.
  - injection H as <- <-. destruct ts; [|
      cbn in E; destruct (pop_timer ts) as [[? ?]|]; [destruct (_ <=? _)|]; discriminate].
    apply list_elem_of_singleton in Hv as ->. lia.
Qed.

(** The timer popped is the first among those with the least due time. *)
Lemma pop_timer_min ts : forall i u,
  ts !! i = Some u ->
  (forall j v, ts !! j = Some v -> t_due u <= t_due v) ->
  (forall j v, (j < i)%nat -> ts !! j = Some v -> t_due u < t_due v) ->
  exists rest, pop_timer ts = Some (u, rest).
Proof.
  induction ts as [|t ts IH]; intros i u Hi Hmin Hfirst; [discriminate|].
  cbn [pop_timer]. destruct i as [|i].
  - injection Hi as ->.
    destruct (pop_timer ts) as [[u' rest']|] eqn:E; [|eauto].
    apply pop_timer_elem, list_elem_of_lookup in E as [j Hj].
    specialize (Hmin (S j) u' Hj).
    destruct (Z.leb_spec (t_due u) (t_due u')); [eauto | lia].
  - destruct (IH i u Hi) as (rest & ->).
    + intros j v Hj. exact (Hmin (S j) v Hj).
    + intros j v Hlt Hj. apply (Hfirst (S j) v); [lia | exact Hj].
    + specialize (Hfirst 0%nat t (Nat.lt_0_succ _) eq_refl).
      destruct (Z.leb_spec (t_due t) (t_due u)); [lia | eauto].
Qed.

Lemma race_earliest_wins items i x t0 :
  Forall succeeds items -> items !! i = Some x ->
  (forall j y, items !! j = Some y -> wait_of x <= wait_of y) ->
  (forall j y, (j < i)%nat -> items !! j = Some y -> wait_of x < wait_of y) ->
  settles_with (snd (processTasksRace (VArr items) (init t0))) 0 (t0 + wait_of x)
    (Fulfilled (summary_of x)).
Proof.
  intros Hall Hi Hmin Hfirst.
  assert (Hx : succeeds x).
  { eapply Forall_lookup_1; eassumption. }
  assert (E : batch_guard (VArr items) = Ok items) by (destruct items; [discriminate | reflexivity]).
  destruct (processTasksRace_setup _ t0 E) as (tr & ->).
  rewrite (queued_all_succeed _ _ _ Hall).
  set (u := mkTimer (t0 + wait_of x) (T_promiseDone x (duration_of x) (S i))).
  destruct (pop_timer_min (created_timers t0 1 items) i u) as (rest & Hpop).
  { rewrite created_timers_lookup, Hi by assumption. reflexivity. }
  { intros j v. rewrite created_timers_lookup by assumption.
    destruct (items !! j) as [y|] eqn:Hj; [|discriminate].
    intros [= <-]. cbn. specialize (Hmin j y Hj). lia. }
  { intros j v Hlt. rewrite created_timers_lookup by assumption.
    destruct (items !! j) as [y|] eqn:Hj; [|discriminate].
    intros [= <-]. cbn. specialize (Hfirst j y Hlt Hj). lia. }
  apply (settles_with_intro 3).
  set (res := S (length items)).
  set (st := Pending [] :: _ ++ _).
  assert (Hlen : (i < length items)%nat) by (now apply lookup_lt_Some in Hi).
  assert (S0 : st !! 0%nat = Some (Pending [])) by reflexivity.
  assert (S1 : st !! S i = Some (Pending [R_race res]))
    by (exact (contest_store_contender (fun _ => R_race res) _ _ _ _ x Hi Hx)).
  assert (S2 : st !! res = Some (Pending [R_await (F_processTasksRace 0)]))
    by (apply contest_store_result; now rewrite length_map).
  rewrite (run_S _ _ _ (step_timer _ _ _ _ _ _ _ Hpop)).
  cbn [t_cb t_due u fire].
  rewrite (settle_pending _ _ _ _ _ _ _ _ _ S1). cbn [snd List.map app].
  rewrite (run_S _ _ _ (step_micro _ _ _ _ _ _ _ _)). cbn [react].
  assert (S2' : <[S i := Settled (t0 + wait_of x) (Fulfilled (summary_of x))]> st !! res
                = Some (Pending [R_await (F_processTasksRace 0)]))
    by (rewrite list_lookup_insert_ne; [exact S2 | unfold res; lia]).
  rewrite (settle_pending _ _ _ _ _ _ _ _ _ S2'). cbn [snd List.map app].
  rewrite (run_S _ _ _ (step_micro _ _ _ _ _ _ _ _)). cbn [react resume run].
  match goal with |- context [settle 0 _ (mkState _ ?st' _ _ _ _)] =>
    assert (S0' : st' !! 0%nat = Some (Pending []))
      by (rewrite !list_lookup_insert_ne by (unfold res; lia); exact S0) end.
  rewrite (settle_pending _ _ _ _ _ _ _ _ _ S0'). cbn [snd].
  unfold settled; cbn [store].
  rewrite list_lookup_insert_eq; [reflexivity|]. now apply lookup_lt_Some in S0'.
Qed.

(** ** The race policy *)










(** Proves [Forall P [x1; ...; xn]] with [tac] on each [P xi]. *)
Ltac each tac := repeat (constructor; [solve [tac]|]); constructor.



(** ** The parallel policy without rejections *)

Lemma values_complete items (values : list value) :
  length values = length items ->
  (forall j x, items !! j = Some x -> values !! j = Some (summary_of x)) ->
  values = List.map summary_of items.
Proof.
  intros Hlen H. apply list_eq; intros j.
  change (List.map summary_of items) with (summary_of <$> items).
  rewrite list_lookup_fmap.
  destruct (items !! j) as [x|] eqn:E; cbn.
  - now apply H.
  - apply lookup_ge_None. rewrite Hlen. now apply lookup_ge_None.
Qed.

Section ParallelRun.
Variable items : list value.
Let n := length items.

(** One timer and its element handler, when other timers remain. *)
Lemma parallel_round t st ag tm tr u rest :
  parallel_inv items (mkState t st ag tm [] tr) ->
  pop_timer tm = Some (u, rest) -> rest <> [] ->
  exists st' ag',
    run 2 (mkState t st ag tm [] tr) = mkState (t_due u) st' ag' rest [] tr
    /\ parallel_inv items (mkState (t_due u) st' ag' rest [] tr).
Proof.
  intros (_ & S0 & Sres & Hnd & Htm & values & Hag & Hlen & Hval) Hpop Hrest.
  cbn [store aggs timers micro] in *.
  destruct (pop_timer_split _ _ _ Hpop) as (l1 & l2 & -> & ->).
  destruct (Htm u) as (j & x & Hj & Hcb & Sj);
    [apply elem_of_app; right; apply list_elem_of_here|].
  assert (Hjn : (j < n)%nat) by (now apply lookup_lt_Some in Hj).
  set (v := summary_of x).
  set (st1 := <[S j := Settled (t_due u) (Fulfilled v)]> st).
  set (values' := <[j := v]> values).
  exists st1, [mkAgg values' (length (l1 ++ l2))].
  assert (Hrun : run 2 (mkState t st ag (l1 ++ u :: l2) [] tr)
                 = mkState (t_due u) st1 [mkAgg values' (length (l1 ++ l2))]
                     (l1 ++ l2) [] tr).
  { rewrite (run_S _ _ _ (step_timer _ _ _ _ _ _ _ Hpop)).
    rewrite Hcb. cbn [fire].
    rewrite (settle_pending _ _ _ _ _ _ _ _ _ Sj). cbn [snd List.map app].
    rewrite (run_S _ _ _ (step_micro _ _ _ _ _ _ _ _)). cbn [react all_element run].
    rewrite Hag. cbn [aggs lookup list_lookup agg_values agg_remaining].
    replace (Init.Nat.pred (length (l1 ++ u :: l2))) with (length (l1 ++ l2))
      by (rewrite !length_app; cbn; lia).
    destruct (length (l1 ++ l2)) as [|k] eqn:El;
      [destruct l1, l2; try discriminate; now contradiction Hrest|].
    reflexivity. }
  split; [exact Hrun|].
  assert (Hnd' : NoDup (List.map t_cb (l1 ++ l2))).
  { rewrite map_app in *. cbn in Hnd.
    apply NoDup_app in Hnd as (N1 & N2 & N3). apply NoDup_cons in N3 as (N3 & N4).
    apply NoDup_app; repeat split; try assumption.
    intros c Hc1 Hc2. apply (N2 c Hc1). now apply list_elem_of_further. }
  assert (Hother : forall u', u' ∈ l1 ++ l2 -> t_cb u' <> t_cb u).
  { intros u' Hu' Heq. rewrite map_app in Hnd. cbn in Hnd.
    apply NoDup_app in Hnd as (N1 & N2 & N3). apply NoDup_cons in N3 as (N3 & N4).
    apply elem_of_app in Hu' as [Hu'|Hu'].
    - apply (N2 (t_cb u')); [now apply (list_elem_of_fmap_2 t_cb)|].
      rewrite Heq. apply list_elem_of_here.
    - apply N3. rewrite <- Heq. now apply (list_elem_of_fmap_2 t_cb). }
  unfold parallel_inv; cbn [store aggs timers micro]. fold n.
  split; [reflexivity|].
  split; [unfold st1; now rewrite list_lookup_insert_ne|].
  split; [unfold st1; rewrite list_lookup_insert_ne; [exact Sres | lia]|].
  split; [exact Hnd'|].
  split.
  - intros u' Hu'.
    destruct (Htm u') as (j' & x' & Hj' & Hcb' & Sj').
    { apply elem_of_app in Hu' as [?|?]; apply elem_of_app;
        [left | right; apply list_elem_of_further]; assumption. }
    exists j', x'. repeat split; try assumption.
    unfold st1. rewrite list_lookup_insert_ne; [exact Sj'|].
    intros [= ->]. apply (Hother u' Hu'). rewrite Hcb, Hcb'. congruence.
  - exists values'. split; [reflexivity|]. split; [unfold values'; now rewrite length_insert|].
    intros j' x' Hj'. destruct (decide (j' = j)) as [->|Hne].
    + right. unfold values', v. rewrite list_lookup_insert_eq by lia. congruence.
    + destruct (Hval j' x' Hj') as [(u' & Hu' & Hcb')|Hv].
      * left. exists u'. split; [|exact Hcb'].
        apply elem_of_app in Hu' as [?|Hu']; apply elem_of_app; [now left|].
        apply elem_of_cons in Hu' as [->|?]; [|now right].
        rewrite Hcb in Hcb'. congruence.
      * right. unfold values'. now rewrite list_lookup_insert_ne.
Qed.
End ParallelRun.

Section ParallelFinish.
Variable items : list value.

(** The last timer: its element handler completes [values], resolves the
    [Promise.all] promise and with it the policy's own. *)
Lemma parallel_last_round t st ag tm tr u :
  parallel_inv items (mkState t st ag tm [] tr) ->
  pop_timer tm = Some (u, []) ->
  settled (run 3 (mkState t st ag tm [] tr)) 0
  = Some (t_due u, Fulfilled (VArr (List.map summary_of items))).
Proof.
  intros (_ & S0 & Sres & Hnd & Htm & values & Hag & Hlen & Hval) Hpop.
  cbn [store aggs timers micro] in *.
  destruct (pop_timer_split _ _ _ Hpop) as (l1 & l2 & -> & Hnil).
  symmetry in Hnil. apply app_eq_nil in Hnil as [-> ->]. cbn [app] in *.
  destruct (Htm u) as (j & x & Hj & Hcb & Sj); [apply list_elem_of_here|].
  assert (Hjn : (j < length items)%nat) by (now apply lookup_lt_Some in Hj).
  assert (Hvalues : <[j := summary_of x]> values = List.map summary_of items).
  { apply values_complete; [now rewrite length_insert|].
    intros j' x' Hj'. destruct (decide (j' = j)) as [->|Hne].
    - rewrite list_lookup_insert_eq by lia. congruence.
    - rewrite list_lookup_insert_ne by congruence.
      destruct (Hval j' x' Hj') as [(u' & Hu' & Hcb')|Hv]; [|exact Hv].
      apply list_elem_of_singleton in Hu' as ->. rewrite Hcb in Hcb'. congruence. }
  rewrite (run_S _ _ _ (step_timer _ _ _ _ _ _ _ Hpop)).
  rewrite Hcb. cbn [fire].
  rewrite (settle_pending _ _ _ _ _ _ _ _ _ Sj). cbn [snd List.map app].
  rewrite (run_S _ _ _ (step_micro _ _ _ _ _ _ _ _)). cbn [react all_element].
  rewrite Hag.
  cbn [now store aggs timers micro trace lookup list_lookup agg_values agg_remaining
       length Init.Nat.pred Nat.eqb].
  fold (summary_of x). rewrite Hvalues.
  set (st1 := <[S j := _]> st).
  assert (Sres' : st1 !! S (length items)
                  = Some (Pending [R_await (F_processTasksParallel 0)]))
    by (unfold st1; rewrite list_lookup_insert_ne; [exact Sres | lia]).
  rewrite (settle_pending _ _ _ _ _ _ _ _ _ Sres'). cbn [snd List.map app].
  rewrite (run_S _ _ _ (step_micro _ _ _ _ _ _ _ _)). cbn [react resume run].
  set (st2 := <[S (length items) := _]> st1).
  assert (S0' : st2 !! 0%nat = Some (Pending []))
    by (unfold st2, st1; now rewrite !list_lookup_insert_ne).
  rewrite (settle_pending _ _ _ _ _ _ _ _ _ S0'). cbn [snd].
  unfold settled; cbn [store].
  rewrite list_lookup_insert_eq; [reflexivity|]. now apply lookup_lt_Some in S0'.
Qed.

Lemma parallel_completes k : forall t st ag tm tr,
  length tm = S k -> parallel_inv items (mkState t st ag tm [] tr) ->
  exists m last,
    last ∈ tm /\ (forall u, u ∈ tm -> t_due u <= t_due last)
    /\ settled (run m (mkState t st ag tm [] tr)) 0
       = Some (t_due last, Fulfilled (VArr (List.map summary_of items))).
Proof.
  induction k as [|k IH]; intros t st ag tm tr Hlen Hinv.
  - destruct tm as [|u0 tm]; [discriminate|].
    destruct (pop_timer_nonempty u0 tm) as (u & rest & Hpop).
    destruct (pop_timer_split _ _ _ Hpop) as (l1 & l2 & E & ->).
    assert (l1 ++ l2 = []) as Hnil.
    { apply (f_equal length) in E. rewrite length_app in E. cbn in E, Hlen.
      destruct l1, l2; cbn in *; (reflexivity || lia). }
    rewrite Hnil in Hpop. exists 3%nat, u.
    split; [now apply (pop_timer_elem _ _ _ Hpop)|].
    split; [|now apply parallel_last_round].
    apply app_eq_nil in Hnil as [-> ->]. rewrite E.
    intros v Hv. apply list_elem_of_singleton in Hv as ->. lia.
  - destruct tm as [|u0 tm]; [discriminate|].
    destruct (pop_timer_nonempty u0 tm) as (u & rest & Hpop).
    pose proof (pop_timer_le _ _ _ Hpop) as Hle.
    destruct (pop_timer_split _ _ _ Hpop) as (l1 & l2 & E & Erest).
    assert (Hrest : length rest = S k).
    { apply (f_equal length) in E. subst rest. rewrite !length_app in *.
      cbn in E, Hlen. lia. }
    destruct (parallel_round items _ _ _ _ _ _ _ Hinv Hpop) as (st' & ag' & Hrun & Hinv').
    { intros ->; discriminate. }
    destruct (IH _ _ _ _ _ Hrest Hinv') as (m & last & Hin & Hmax & Hm).
    assert (Hin' : last ∈ u0 :: tm).
    { rewrite E. subst rest. apply elem_of_app in Hin as [?|?]; apply elem_of_app;
        [left | right; apply list_elem_of_further]; assumption. }
    exists (2 + m)%nat, last. split; [exact Hin'|]. split; [|now rewrite run_add, Hrun].
    intros v Hv. rewrite E in Hv. subst rest.
    apply elem_of_app in Hv as [Hv|Hv];
      [apply Hmax, elem_of_app; now left|].
    apply elem_of_cons in Hv as [->|Hv];
      [now apply Hle | apply Hmax, elem_of_app; now right].
Qed.
End ParallelFinish.

Lemma created_timers_length t items : forall base,
  Forall succeeds items -> length (created_timers t base items) = length items.
Proof.
  induction items as [|x items IH]; intros base H; [reflexivity|].
  inversion H as [|? ? Hx Hrest]; subst.
  cbn [created_timers]. rewrite Hx. cbn. now rewrite IH.
Qed.

Lemma parallel_inv_initial items t0 tr :
  Forall succeeds items ->
  parallel_inv items
    (mkState t0
       (Pending [] :: subscribed (R_all (S (length items)) 0) 0
                        (List.map (created_cell t0) items)
          ++ [Pending [R_await (F_processTasksParallel 0)]])
       [mkAgg (replicate (length items) VUndefined) (length items)]
       (created_timers t0 1 items) [] tr).
Proof.
  intros Hall. unfold parallel_inv; cbn [store aggs timers micro].
  split; [reflexivity|]. split; [reflexivity|].
  split; [apply contest_store_result; now rewrite length_map|].
  split; [|split].
  - apply NoDup_alt. intros i j c.
    change (List.map t_cb (created_timers t0 1 items))
      with (t_cb <$> created_timers t0 1 items).
    rewrite !list_lookup_fmap, !created_timers_lookup by assumption.
    destruct (items !! i) as [x|]; [|discriminate].
    destruct (items !! j) as [y|]; [|discriminate].
    cbn. intros [= <-] [= E1 E2 E3]. lia.
  - intros u Hu. apply list_elem_of_lookup_1 in Hu as [j Hj].
    rewrite created_timers_lookup in Hj by assumption.
    destruct (items !! j) as [x|] eqn:Hx; [|discriminate].
    injection Hj as <-. exists j, x. cbn [t_cb Nat.add].
    split; [exact Hx|]. split; [reflexivity|].
    apply (contest_store_contender (R_all (S (length items)) 0) _ _ _ _ x Hx).
    eapply Forall_lookup_1; eassumption.
  - exists (replicate (length items) VUndefined).
    rewrite created_timers_length by assumption.
    split; [reflexivity|]. split; [apply length_replicate|].
    intros j x Hx. left.
    exists (mkTimer (t0 + wait_of x) (T_promiseDone x (duration_of x) (S j))).
    split; [|reflexivity].
    apply (list_elem_of_lookup_2 _ j). now rewrite created_timers_lookup, Hx.
Qed.

Lemma created_timers_elem t items u :
  Forall succeeds items ->
  u ∈ created_timers t 1 items <-> exists x, x ∈ items /\ t_due u = t + wait_of x
                                           /\ exists j, items !! j = Some x
                                                /\ t_cb u = T_promiseDone x (duration_of x) (S j).
Proof.
  intros Hall. split.
  - intros Hu. apply list_elem_of_lookup_1 in Hu as [j Hj].
    rewrite created_timers_lookup in Hj by assumption.
    destruct (items !! j) as [x|] eqn:Hx; [|discriminate].
    injection Hj as <-. exists x. split; [now apply (list_elem_of_lookup_2 _ j)|].
    split; [reflexivity|]. now exists j.
  - intros (x & _ & Hdue & j & Hj & Hcb).
    apply (list_elem_of_lookup_2 _ j). rewrite created_timers_lookup, Hj by assumption.
    cbn. destruct u as [due cb]; cbn in *. now subst.
Qed.

Lemma parallel_all_succeed items t0 :
  items <> [] -> Forall succeeds items ->
  exists slowest,
    slowest ∈ items
    /\ (forall y, y ∈ items -> wait_of y <= wait_of slowest)
    /\ settles_with (snd (processTasksParallel (VArr items) (init t0))) 0
         (t0 + wait_of slowest) (Fulfilled (VArr (List.map summary_of items))).
Proof.
  intros Hne Hall.
  assert (E : batch_guard (VArr items) = Ok items)
    by (destruct items; [contradiction | reflexivity]).
  destruct (processTasksParallel_setup _ t0 E) as (tr & ->).
  rewrite (queued_all_succeed _ _ _ Hall).
  assert (Hlen : length (created_timers t0 1 items) = S (Init.Nat.pred (length items))).
  { rewrite created_timers_length by assumption.
    destruct items; [contradiction | reflexivity]. }
  destruct (parallel_completes items _ _ _ _ _ _ Hlen
              (parallel_inv_initial items t0 tr Hall)) as (m & last & Hin & Hmax & H).
  apply created_timers_elem in Hin as (x & Hx & Hdue & _); [|assumption].
  exists x. split; [exact Hx|]. split.
  - intros y Hy. apply list_elem_of_lookup_1 in Hy as [j Hj].
    specialize (Hmax (mkTimer (t0 + wait_of y) (T_promiseDone y (duration_of y) (S j)))).
    cbn in Hmax. rewrite Hdue in Hmax. 
    assert (t0 + wait_of y <= t0 + wait_of x); [|lia].
    apply Hmax, created_timers_elem; [assumption|].
    exists y. split; [now apply (list_elem_of_lookup_2 _ j)|]. split; [reflexivity|].
    now exists j.
  - rewrite <- Hdue. now apply (settles_with_intro m).
Qed.

(** Every batch either succeeds throughout or has a first failing
    descriptor. *)
Lemma first_failure_split items :
  Forall succeeds items
  \/ exists pre x post e,
       items = pre ++ x :: post /\ Forall succeeds pre /\ validateTask x = Throw e.
Proof.
  induction items as [|y items IH]; [left; constructor|].
  destruct (validateTask y) as [[]|e] eqn:E.
  - destruct IH as [IH|(pre & x & post & e & -> & Hpre & Hx)].
    + left. now constructor.
    + right. exists (y :: pre), x, post, e. repeat split; [now constructor | exact Hx].
  - right. exists [], y, items, e. repeat split; [constructor | exact E].
Qed.

(** C2: for every non-empty batch, the parallel policy settles.  When every
    descriptor succeeds it fulfils with the list of their summaries in input
    order, whatever the order in which their timers fire, at the instant the
    slowest descriptor is done.  When some descriptor fails it rejects, at
    the instant of the call, with the error of the first failing descriptor
    (the first rejection there is to observe); the outcome carries that
    error and no result list. *)
Theorem C2_parallel_input_order_or_first_error (items : list value) (t0 : Z) :
  items <> [] ->
  (Forall succeeds items ->
     exists slowest,
       slowest ∈ items
       /\ (forall y, y ∈ items -> wait_of y <= wait_of slowest)
       /\ settles_with (start_policy Parallel (VArr items) t0) 0
            (t0 + wait_of slowest) (Fulfilled (VArr (List.map summary_of items))))
  /\ (forall pre x post e,
        items = pre ++ x :: post -> Forall succeeds pre -> validateTask x = Throw e ->
        settles_with (start_policy Parallel (VArr items) t0) 0 t0 (Rejected e))
  /\ (exists t o,
        settles_with (start_policy Parallel (VArr items) t0) 0 t o
        /\ (o = Fulfilled (VArr (List.map summary_of items)) \/ exists e, o = Rejected e)).
Proof.
  intros Hne. split; [|split].
  - intros Hall. now apply parallel_all_succeed.
  - intros pre x post e -> Hpre Hx. now apply parallel_first_rejection.
  - destruct (first_failure_split items) as [Hall|(pre & x & post & e & -> & Hpre & Hx)].
    + destruct (parallel_all_succeed items t0 Hne Hall) as (x & _ & _ & H).
      exists (t0 + wait_of x), (Fulfilled (VArr (List.map summary_of items))). eauto.
    + exists t0, (Rejected e). split; [now apply parallel_first_rejection | eauto].
Qed.

Lemma C2_witness :
  (exists slowest,
     slowest ∈ [descriptor 1 "Load" 100; descriptor 2 "Parse" 50; descriptor 3 "Send" 200]
     /\ (forall y,
           y ∈ [descriptor 1 "Load" 100; descriptor 2 "Parse" 50; descriptor 3 "Send" 200] ->
           wait_of y <= wait_of slowest)
     /\ settles_with
          (start_policy Parallel
             (VArr [descriptor 1 "Load" 100; descriptor 2 "Parse" 50;
                    descriptor 3 "Send" 200]) 0)
          0 (0 + wait_of slowest)
          (Fulfilled (VArr (List.map summary_of
                              [descriptor 1 "Load" 100; descriptor 2 "Parse" 50;
                               descriptor 3 "Send" 200]))))
  /\ settles_with
       (start_policy Parallel
          (VArr [descriptor 1 "Load" 100; VObj [("id", VNum 2)];
                 failing_descriptor 3 "Report" 10]) 0)
       0 0
       (Rejected (TaskValidationError msg_no_id_name (VObj [("id", VNum 2)]))).
Proof.
  split.
  - apply (proj1 (C2_parallel_input_order_or_first_error
                    [descriptor 1 "Load" 100; descriptor 2 "Parse" 50;
                     descriptor 3 "Send" 200] 0 ltac:(discriminate))).
    each ltac:(reflexivity).
  - apply (proj1 (proj2 (C2_parallel_input_order_or_first_error
                           [descriptor 1 "Load" 100; VObj [("id", VNum 2)];
                            failing_descriptor 3 "Report" 10] 0 ltac:(discriminate)))
             [descriptor 1 "Load" 100] (VObj [("id", VNum 2)])
             [failing_descriptor 3 "Report" 10]).
    + reflexivity.
    + each ltac:(reflexivity).
    + reflexivity.
Defined.


(** * Further properties of [taskRunner.js] *)

(** ** The sequential policies on a batch that succeeds *)

Lemma processTasksPromises_done results self t st ag tr :
  st !! self = Some (Pending []) ->
  let s := snd (processTasksPromises_loop [] results self (mkState t st ag [] [] tr)) in
  quiescent s /\ settled s self = Some (t, Fulfilled (VArr results)) /\ trace s = tr.
Proof.
  intros H. cbn [processTasksPromises_loop].
  rewrite (settle_pending _ _ _ _ _ _ _ _ _ H). cbn.
  unfold quiescent, settled, step; cbn.
  rewrite list_lookup_insert_eq by (now apply lookup_lt_Some in H). repeat split.
Qed.

Lemma processTasksAsyncAwait_done results self t st ag tr :
  st !! self = Some (Pending []) ->
  let s := snd (processTasksAsyncAwait_loop [] results self (mkState t st ag [] [] tr)) in
  quiescent s /\ settled s self = Some (t, Fulfilled (VArr results)) /\ trace s = tr.
Proof.
  intros H. cbn [processTasksAsyncAwait_loop].
  rewrite (settle_pending _ _ _ _ _ _ _ _ _ H). cbn.
  unfold quiescent, settled, step; cbn.
  rewrite list_lookup_insert_eq by (now apply lookup_lt_Some in H). repeat split.
Qed.

Lemma processNext_done tasks results t st ag tr :
  let s := snd (processNext tasks (length tasks) results CB_handler
                  (mkState t st ag [] [] tr)) in
  quiescent s /\ trace s = tr ++ [E_handler t None (VArr results)].
Proof.
  unfold processNext. rewrite Nat.leb_refl. cbn. split; reflexivity.
Qed.

Lemma batch_guard_nonempty items : items <> [] -> batch_guard (VArr items) = Ok items.
Proof. destruct items; [contradiction | reflexivity]. Qed.

Section AllSucceed.
Variables (items : list value) (t0 : Z).
Hypothesis Hne : items <> [].
Hypothesis Hall : Forall succeeds items.

Lemma all_succeed_promises :
  exists n,
    let s := run n (snd (processTasksPromises (VArr items) (init t0))) in
    quiescent s
    /\ settled s 0 = Some (t0 + total_wait items, Fulfilled (VArr (List.map summary_of items)))
    /\ executed s = items
    /\ List.map snd (processing_timers s) = List.map wait_of items
    /\ handler_calls s = [].
Proof.
  exists (2 * length items)%nat. cbv zeta.
  rewrite processTasksPromises_start by now apply batch_guard_nonempty.
  destruct (promises_prefix items [] 0%nat [] t0 [Pending []] [] [] Hall)
    as (st' & tr' & Hrun & C1 & C2 & C3).
  rewrite app_nil_r in Hrun. rewrite Hrun.
  destruct (processTasksPromises_done ([] ++ List.map summary_of items) 0
              (t0 + total_wait items) ([Pending []] ++ st') [] ([] ++ tr') eq_refl)
    as (Q & S & T).
  unfold executed, processing_timers, handler_calls. rewrite T. cbn [app].
  rewrite C1, C2, C3. repeat split; assumption.
Qed.

Lemma all_succeed_async :
  exists n,
    let s := run n (snd (processTasksAsyncAwait (VArr items) (init t0))) in
    quiescent s
    /\ settled s 0 = Some (t0 + total_wait items, Fulfilled (VArr (List.map summary_of items)))
    /\ executed s = items
    /\ List.map snd (processing_timers s) = List.map wait_of items
    /\ handler_calls s = [].
Proof.
  exists (3 * length items)%nat. cbv zeta.
  rewrite processTasksAsyncAwait_start by now apply batch_guard_nonempty.
  destruct (async_prefix items [] 0%nat [] t0 [Pending []] [] [] Hall)
    as (st' & tr' & Hrun & C1 & C2 & C3).
  rewrite app_nil_r in Hrun. rewrite Hrun.
  destruct (processTasksAsyncAwait_done ([] ++ List.map summary_of items) 0
              (t0 + total_wait items) ([Pending []] ++ st') [] ([] ++ tr') eq_refl)
    as (Q & S & T).
  unfold executed, processing_timers, handler_calls. rewrite T. cbn [app].
  rewrite C1, C2, C3. repeat split; assumption.
Qed.

Lemma all_succeed_callbacks :
  exists n,
    let s := run n (snd (processTasksCallbacks (VArr items) CB_handler (init t0))) in
    quiescent s
    /\ handler_calls s
       = [(t0 + total_wait items, None, VArr (List.map summary_of items))]
    /\ executed s = items
    /\ List.map snd (processing_timers s) = List.map wait_of items.
Proof.
  exists (2 * length items)%nat. cbv zeta.
  unfold processTasksCallbacks, init. rewrite batch_guard_nonempty by assumption.
  destruct (callbacks_prefix CB_handler [] items [] [] t0 [] [] [] Hall)
    as (tr' & Hrun & C1 & C2 & C3).
  cbn [app length Nat.add] in Hrun. rewrite app_nil_r in Hrun. rewrite Hrun.
  destruct (processNext_done items (List.map summary_of items)
              (t0 + total_wait items) [] [] tr') as (Q & T).
  unfold executed, processing_timers, handler_calls. rewrite T.
  rewrite trace_calls_app, trace_timers_app, trace_handler_app, map_app, C1, C2, C3.
  cbn. rewrite !app_nil_r. repeat split; assumption.
Qed.
End AllSucceed.

(** X1: on a non-empty batch whose descriptors all pass validation, each
    sequential policy fulfils with the summaries in input order once the
    waits of all descriptors have elapsed one after the other; by then the
    executor has been given every descriptor, in order, and nothing is left
    to run. *)
Theorem sequential_all_succeed (p : policy) (items : list value) (t0 : Z) :
  sequential p -> items <> [] -> Forall succeeds items ->
  exists n,
    let s := run n (start_policy p (VArr items) t0) in
    quiescent s
    /\ policy_outcome p s
       = Some (t0 + total_wait items, Fulfilled (VArr (List.map summary_of items)))
    /\ executed s = items
    /\ List.map snd (processing_timers s) = List.map wait_of items.
Proof.
  intros Hp Hne Hall.
  destruct Hp as [-> | [-> | ->]]; cbn [start_policy policy_outcome].
  - destruct (all_succeed_callbacks items t0 Hne Hall) as (n & Q & H & X & T).
    exists n; cbv zeta. rewrite H. auto.
  - destruct (all_succeed_promises items t0 Hne Hall) as (n & Q & H & X & T & _).
    exists n; cbv zeta. auto.
  - destruct (all_succeed_async items t0 Hne Hall) as (n & Q & H & X & T & _).
    exists n; cbv zeta. auto.
Qed.

Lemma sequential_all_succeed_witness :
  exists n,
    let s := run n (start_policy SequentialCallbacks
                      (VArr [descriptor 1 "Load" 100; untimed_descriptor 2 "Parse"]) 0) in
    quiescent s
    /\ policy_outcome SequentialCallbacks s
       = Some (0 + total_wait [descriptor 1 "Load" 100; untimed_descriptor 2 "Parse"],
               Fulfilled (VArr (List.map summary_of
                                  [descriptor 1 "Load" 100; untimed_descriptor 2 "Parse"])))
    /\ executed s = [descriptor 1 "Load" 100; untimed_descriptor 2 "Parse"]
    /\ List.map snd (processing_timers s)
       = List.map wait_of [descriptor 1 "Load" 100; untimed_descriptor 2 "Parse"].
Proof.
  apply (sequential_all_succeed SequentialCallbacks
           [descriptor 1 "Load" 100; untimed_descriptor 2 "Parse"] 0).
  - left; reflexivity.
  - discriminate.
  - each ltac:(reflexivity).
Defined.

(** ** Exactly one outcome, whatever the batch *)

Lemma batch_guard_cases batch :
  (batch_guard batch = Throw (Error msg_batch) /\ empty_or_not_list batch)
  \/ exists items, batch = VArr items /\ items <> [] /\ batch_guard batch = Ok items.
Proof.
  destruct batch as [| | | | |items|];
    try (left; split; [reflexivity | right; intros items H; discriminate H]).
  destruct items as [|x items].
  - left. split; [reflexivity | now left].
  - right. exists (x :: items). repeat split. discriminate.
Qed.

Lemma guard_rejects (p : policy) batch t0 :
  batch_guard batch = Throw (Error msg_batch) ->
  let s := start_policy p batch t0 in
  quiescent s
  /\ policy_outcome p s = Some (t0, Rejected (Error msg_batch))
  /\ executed s = []
  /\ handler_calls s
     = match p with
       | SequentialCallbacks => [(t0, Some (Error msg_batch), VNull)]
       | _ => []
       end.
Proof.
  intros E.
  destruct p; cbv zeta; unfold start_policy, policy_outcome, processTasksCallbacks,
    processTasksPromises, processTasksAsyncAwait, processTasksParallel, processTasksRace,
    processTasksParallelAsync, processTasksRaceAsync; rewrite E; repeat split.
Qed.

(** X2: whatever value a sequential policy is given as its batch, the run
    comes to rest and the caller has then observed exactly one outcome: the
    guard's error for an empty batch or a value that is not a list, the
    full list of summaries when every descriptor passes validation, and
    otherwise the error of the first descriptor that fails.  The callback
    chain has called the completion handler exactly once. *)
Theorem sequential_one_outcome (p : policy) (batch : value) (t0 : Z) :
  sequential p ->
  exists n t o,
    let s := run n (start_policy p batch t0) in
    quiescent s
    /\ policy_outcome p s = Some (t, o)
    /\ (p = SequentialCallbacks -> length (handler_calls s) = 1%nat)
    /\ ((empty_or_not_list batch /\ o = Rejected (Error msg_batch) /\ t = t0)
        \/ (exists items, batch = VArr items /\ Forall succeeds items
                          /\ o = Fulfilled (VArr (List.map summary_of items))
                          /\ t = t0 + total_wait items)
        \/ (exists pre x post e,
              batch = VArr (pre ++ x :: post) /\ Forall succeeds pre
              /\ validateTask x = Throw e /\ o = Rejected e /\ t = t0 + total_wait pre)).
Proof.
  intros Hp.
  destruct (batch_guard_cases batch) as [[E Hb] | (items & -> & Hne & E)].
  - destruct (guard_rejects p batch t0 E) as (Q & O & _ & Hc).
    exists 0%nat, t0, (Rejected (Error msg_batch)). cbn [run].
    split; [exact Q|]. split; [exact O|].
    split; [intros ->; now rewrite Hc | left; auto].
  - destruct (first_failure_split items) as [Hall | (pre & x & post & e & -> & Hpre & Hx)].
    + destruct Hp as [-> | [-> | ->]]; cbn [start_policy policy_outcome].
      * destruct (all_succeed_callbacks items t0 Hne Hall) as (n & Q & H & _).
        exists n, (t0 + total_wait items), (Fulfilled (VArr (List.map summary_of items))).
        cbv zeta. rewrite H. repeat split; try assumption. right; left; eauto.
      * destruct (all_succeed_promises items t0 Hne Hall) as (n & Q & H & _).
        exists n, (t0 + total_wait items), (Fulfilled (VArr (List.map summary_of items))).
        cbv zeta. repeat split; try assumption; [discriminate | right; left; eauto].
      * destruct (all_succeed_async items t0 Hne Hall) as (n & Q & H & _).
        exists n, (t0 + total_wait items), (Fulfilled (VArr (List.map summary_of items))).
        cbv zeta. repeat split; try assumption; [discriminate | right; left; eauto].
    + destruct Hp as [-> | [-> | ->]]; cbn [start_policy policy_outcome].
      * destruct (first_failure_callbacks pre post x e t0 Hpre Hx) as (n & Q & H & _).
        exists n, (t0 + total_wait pre), (Rejected e).
        cbv zeta. rewrite H. repeat split; try assumption. right; right; eauto 10.
      * destruct (first_failure_promises pre post x e t0 Hpre Hx) as (n & Q & H & _).
        exists n, (t0 + total_wait pre), (Rejected e).
        cbv zeta. repeat split; try assumption; [discriminate | right; right; eauto 10].
      * destruct (first_failure_async pre post x e t0 Hpre Hx) as (n & Q & H & _).
        exists n, (t0 + total_wait pre), (Rejected e).
        cbv zeta. repeat split; try assumption; [discriminate | right; right; eauto 10].
Qed.

Lemma sequential_one_outcome_witness :
  exists n t o,
    let s := run n (start_policy SequentialCallbacks (VStr "tasks") 3) in
    quiescent s
    /\ policy_outcome SequentialCallbacks s = Some (t, o)
    /\ (SequentialCallbacks = SequentialCallbacks -> length (handler_calls s) = 1%nat)
    /\ ((empty_or_not_list (VStr "tasks") /\ o = Rejected (Error msg_batch) /\ t = 3)
        \/ (exists items, VStr "tasks" = VArr items /\ Forall succeeds items
                          /\ o = Fulfilled (VArr (List.map summary_of items))
                          /\ t = 3 + total_wait items)
        \/ (exists pre x post e,
              VStr "tasks" = VArr (pre ++ x :: post) /\ Forall succeeds pre
              /\ validateTask x = Throw e /\ o = Rejected e /\ t = 3 + total_wait pre)).
Proof.
  apply (sequential_one_outcome SequentialCallbacks (VStr "tasks") 3).
  left; reflexivity.
Defined.

(** ** Parallel against sequential *)

Lemma delayMs_nonneg v : 0 <= delayMs v.
Proof. unfold delayMs. destruct (toNumber v); lia. Qed.

Lemma total_wait_nonneg items : 0 <= total_wait items.
Proof.
  induction items as [|x items IH]; [cbn; lia|].
  change (total_wait (x :: items)) with (wait_of x + total_wait items).
  pose proof (delayMs_nonneg (duration_of x)). unfold wait_of. lia.
Qed.

Lemma wait_le_total items x : x ∈ items -> wait_of x <= total_wait items.
Proof.
  induction items as [|y items IH]; intros H; [now apply elem_of_nil in H|].
  change (total_wait (y :: items)) with (wait_of y + total_wait items).
  pose proof (total_wait_nonneg items). pose proof (delayMs_nonneg (duration_of y)).
  unfold wait_of in *.
  apply elem_of_cons in H as [->|H]; [lia | specialize (IH H); lia].
Qed.

(** X3: on a non-empty batch whose descriptors all pass validation, the
    parallel policy and the sequential one deliver the same result list;
    the parallel one delivers it when the slowest descriptor is done, the
    sequential one after the sum of all waits, hence never earlier. *)
Theorem parallel_no_later_than_sequential (items : list value) (t0 : Z) :
  items <> [] -> Forall succeeds items ->
  exists slowest n,
    slowest ∈ items
    /\ (forall y, y ∈ items -> wait_of y <= wait_of slowest)
    /\ settles_with (start_policy Parallel (VArr items) t0) 0
         (t0 + wait_of slowest) (Fulfilled (VArr (List.map summary_of items)))
    /\ policy_outcome SequentialPromises
         (run n (start_policy SequentialPromises (VArr items) t0))
       = Some (t0 + total_wait items, Fulfilled (VArr (List.map summary_of items)))
    /\ t0 + wait_of slowest <= t0 + total_wait items.
Proof.
  intros Hne Hall.
  destruct (parallel_all_succeed items t0 Hne Hall) as (x & Hx & Hmax & Hpar).
  destruct (all_succeed_promises items t0 Hne Hall) as (n & _ & Hseq & _).
  exists x, n. repeat split; try assumption.
  pose proof (wait_le_total items x Hx). lia.
Qed.

Lemma parallel_no_later_than_sequential_witness :
  exists slowest n,
    slowest ∈ [descriptor 1 "Load" 100; descriptor 2 "Parse" 50; descriptor 3 "Send" 200]
    /\ (forall y,
          y ∈ [descriptor 1 "Load" 100; descriptor 2 "Parse" 50; descriptor 3 "Send" 200] ->
          wait_of y <= wait_of slowest)
    /\ settles_with
         (start_policy Parallel
            (VArr [descriptor 1 "Load" 100; descriptor 2 "Parse" 50;
                   descriptor 3 "Send" 200]) 0)
         0 (0 + wait_of slowest)
         (Fulfilled (VArr (List.map summary_of
                             [descriptor 1 "Load" 100; descriptor 2 "Parse" 50;
                              descriptor 3 "Send" 200])))
    /\ policy_outcome SequentialPromises
         (run n (start_policy SequentialPromises
                   (VArr [descriptor 1 "Load" 100; descriptor 2 "Parse" 50;
                          descriptor 3 "Send" 200]) 0))
       = Some (0 + total_wait [descriptor 1 "Load" 100; descriptor 2 "Parse" 50;
                               descriptor 3 "Send" 200],
               Fulfilled (VArr (List.map summary_of
                                  [descriptor 1 "Load" 100; descriptor 2 "Parse" 50;
                                   descriptor 3 "Send" 200])))
    /\ 0 + wait_of slowest
       <= 0 + total_wait [descriptor 1 "Load" 100; descriptor 2 "Parse" 50;
                          descriptor 3 "Send" 200].
Proof.
  apply (parallel_no_later_than_sequential
           [descriptor 1 "Load" 100; descriptor 2 "Parse" 50; descriptor 3 "Send" 200] 0).
  - discriminate.
  - each ltac:(reflexivity).
Defined.

(** ** One descriptor in flight at a time *)

Lemma quiescent_idle s : quiescent s -> idle s.
Proof.
  unfold quiescent, step, idle. destruct (micro s) as [|[r o] q]; [|discriminate].
  destruct (timers s) as [|u tm]; [auto|].
  destruct (pop_timer_nonempty u tm) as (v & rest & ->). discriminate.
Qed.

Lemma quiescent_no_timer m s : quiescent s -> length (timers (run m s)) = 0%nat.
Proof.
  intros Q. rewrite run_quiescent by assumption.
  now destruct (quiescent_idle _ Q) as [-> _].
Qed.

Lemma promises_one_pending rest : forall results self t st ag tr m,
  st !! self = Some (Pending []) ->
  (length (timers (run m (snd (processTasksPromises_loop rest results self
                                 (mkState t st ag [] [] tr))))) <= 1)%nat.
Proof.
  induction rest as [|x rest IH]; intros results self t st ag tr m Hself.
  - destruct (processTasksPromises_done results self t st ag tr Hself) as (Q & _).
    rewrite (quiescent_no_timer m _ Q). lia.
  - destruct (validateTask x) as [[]|e] eqn:E.
    + destruct m as [|[|m]].
      * unfold processTasksPromises_loop, bind.
        rewrite (processTaskPromise_ok _ _ _ _ _ _ _ E). machine. lia.
      * unfold processTasksPromises_loop, bind.
        rewrite (processTaskPromise_ok _ _ _ _ _ _ _ E). machine.
        unfold step. machine. lia.
      * change (S (S m)) with (2 + m)%nat. rewrite run_add, promises_turn by exact E.
        apply IH. now apply lookup_app_l_Some.
    + destruct (promises_abort x rest results self e t st ag tr E Hself) as (s1 & Hs1 & Q & _).
      destruct m as [|m].
      * unfold processTasksPromises_loop, bind.
        rewrite (processTaskPromise_throw _ _ _ _ _ _ _ _ E). machine. lia.
      * change (S m) with (1 + m)%nat. rewrite run_add, Hs1, (quiescent_no_timer m _ Q). lia.
Qed.

Lemma async_one_pending rest : forall results self t st ag tr m,
  st !! self = Some (Pending []) ->
  (length (timers (run m (snd (processTasksAsyncAwait_loop rest results self
                                 (mkState t st ag [] [] tr))))) <= 1)%nat.
Proof.
  induction rest as [|x rest IH]; intros results self t st ag tr m Hself.
  - destruct (processTasksAsyncAwait_done results self t st ag tr Hself) as (Q & _).
    rewrite (quiescent_no_timer m _ Q). lia.
  - destruct (validateTask x) as [[]|e] eqn:E.
    + destruct m as [|[|[|m]]].
      * unfold processTasksAsyncAwait_loop, processTaskAsync, delay. rewrite E. machine. lia.
      * unfold processTasksAsyncAwait_loop, processTaskAsync, delay. rewrite E. machine.
        unfold step. machine. lia.
      * unfold processTasksAsyncAwait_loop, processTaskAsync, delay. rewrite E. machine.
        unfold step. machine. lia.
      * change (S (S (S m))) with (3 + m)%nat. rewrite run_add, async_turn by exact E.
        apply IH. now apply lookup_app_l_Some.
    + destruct (async_abort x rest results self e t st ag tr E Hself) as (s1 & Hs1 & Q & _).
      destruct m as [|m].
      * unfold processTasksAsyncAwait_loop, processTaskAsync. rewrite E. machine. lia.
      * change (S m) with (1 + m)%nat. rewrite run_add, Hs1, (quiescent_no_timer m _ Q). lia.
Qed.

Lemma callbacks_one_pending rest : forall done results t st ag tr m,
  (length (timers (run m (snd (processNext (done ++ rest) (length done) results CB_handler
                                 (mkState t st ag [] [] tr))))) <= 1)%nat.
Proof.
  induction rest as [|x rest IH]; intros done results t st ag tr m.
  - rewrite app_nil_r.
    destruct (processNext_done done results t st ag tr) as (Q & _).
    rewrite (quiescent_no_timer m _ Q). lia.
  - assert (Hi : (done ++ x :: rest) !! length done = Some x) by apply lookup_mid0.
    assert (Hlt : (length done < length (done ++ x :: rest))%nat)
      by (now apply lookup_lt_Some in Hi).
    destruct (validateTask x) as [[]|e] eqn:E.
    + destruct m as [|[|m]].
      * unfold processNext. destruct (Nat.leb_spec (length (done ++ x :: rest)) (length done));
          [lia|]. rewrite Hi. unfold processTaskCallback. machine. lia.
      * unfold processNext. destruct (Nat.leb_spec (length (done ++ x :: rest)) (length done));
          [lia|]. rewrite Hi. unfold processTaskCallback. machine.
        unfold step. machine. rewrite E. machine. lia.
      * change (S (S m)) with (2 + m)%nat.
        rewrite run_add, (callbacks_turn _ _ _ _ x) by assumption.
        replace (done ++ x :: rest) with ((done ++ [x]) ++ rest) by (now rewrite <- app_assoc).
        rewrite <- (length_snoc done x). apply IH.
    + destruct (callbacks_abort _ _ results x e t st ag tr Hi E) as (s1 & Hs1 & Q & _).
      destruct m as [|m].
      * unfold processNext. destruct (Nat.leb_spec (length (done ++ x :: rest)) (length done));
          [lia|]. rewrite Hi. unfold processTaskCallback. machine. lia.
      * change (S m) with (1 + m)%nat. rewrite run_add, Hs1, (quiescent_no_timer m _ Q). lia.
Qed.

(** X4: a sequential policy never has more than one timer pending: at every
    moment of its run, on any batch, at most one descriptor is in flight. *)
Theorem sequential_one_in_flight (p : policy) (batch : value) (t0 : Z) (m : nat) :
  sequential p ->
  (length (timers (run m (start_policy p batch t0))) <= 1)%nat.
Proof.
  intros Hp.
  destruct (batch_guard_cases batch) as [[E _] | (items & -> & Hne & E)].
  - destruct (guard_rejects p batch t0 E) as (Q & _).
    rewrite (quiescent_no_timer m _ Q). lia.
  - destruct Hp as [-> | [-> | ->]]; cbn [start_policy].
    + unfold processTasksCallbacks, init. rewrite E.
      apply (callbacks_one_pending items []).
    + rewrite processTasksPromises_start by exact E. now apply promises_one_pending.
    + rewrite processTasksAsyncAwait_start by exact E. now apply async_one_pending.
Qed.

Lemma sequential_one_in_flight_witness :
  (length (timers (run 3 (start_policy SequentialAsyncAwait
                            (VArr [descriptor 1 "Load" 100; descriptor 2 "Parse" 50]) 0)))
   <= 1)%nat.
Proof.
  apply (sequential_one_in_flight SequentialAsyncAwait
           (VArr [descriptor 1 "Load" 100; descriptor 2 "Parse" 50]) 0 3).
  right; right; reflexivity.
Defined.

(** ** Concurrent policies start every descriptor within the call *)

Lemma created_timers_due t items : forall base,
  List.map t_due (created_timers t base items)
  = List.map (fun x => t + wait_of x) (List.filter passes items).
Proof.
  induction items as [|x items IH]; intros base; [reflexivity|].
  cbn [created_timers List.filter]. unfold passes at 1.
  destruct (validateTask x) as [[]|e]; cbn [app List.map]; now rewrite IH.
Qed.

Lemma mapM_processTaskPromise_calls items : forall s,
  trace_calls (trace (snd (mapM processTaskPromise items s)))
  = trace_calls (trace s) ++ items.
Proof.
  induction items as [|x items IH]; intros [t st ag tm mq tr].
  - cbn. now rewrite app_nil_r.
  - cbn [mapM]. unfold bind at 1.
    destruct (validateTask x) as [[]|e] eqn:E.
    + rewrite (processTaskPromise_ok _ _ _ _ _ _ _ E). unfold bind at 1.
      specialize (IH (mkState t (st ++ [Pending []]) ag
                        (tm ++ [mkTimer (t + wait_of x)
                                  (T_promiseDone x (duration_of x) (length st))]) mq
                        (tr ++ [E_call Promise x;
                                E_setTimeout (T_promiseDone x (duration_of x) (length st))
                                  (wait_of x)]))).
      destruct (mapM processTaskPromise items _) as [ys s']. cbn [ret snd] in *.
      rewrite IH. cbn [trace]. rewrite trace_calls_app. cbn. now rewrite <- app_assoc.
    + rewrite (processTaskPromise_throw _ _ _ _ _ _ _ _ E). unfold bind at 1.
      specialize (IH (mkState t (st ++ [Settled t (Rejected e)]) ag tm mq
                        (tr ++ [E_call Promise x]))).
      destruct (mapM processTaskPromise items _) as [ys s']. cbn [ret snd] in *.
      rewrite IH. cbn [trace]. rewrite trace_calls_app. cbn. now rewrite <- app_assoc.
Qed.

Lemma silent_ret {A} (a : A) : silent (ret a).
Proof. intros s; reflexivity. Qed.

Lemma bind_trace {A B} (m : M A) (k : A -> M B) s :
  (forall a, silent (k a)) -> trace (snd (bind m k s)) = trace (snd (m s)).
Proof. intros Hk. unfold bind. destruct (m s) as [a s1]. apply Hk. Qed.

Lemma silent_bind {A B} (m : M A) (k : A -> M B) :
  silent m -> (forall a, silent (k a)) -> silent (bind m k).
Proof. intros Hm Hk s. rewrite bind_trace by assumption. apply Hm. Qed.

Lemma silent_newPromise : silent newPromise.
Proof. intros s; reflexivity. Qed.

Lemma silent_newAgg n : silent (newAgg n).
Proof. intros s; reflexivity. Qed.

Lemma silent_settle p o : silent (settle p o).
Proof. intros s; unfold settle. now destruct (store s !! p) as [[|]|]. Qed.

Lemma silent_subscribe p r : silent (subscribe p r).
Proof. intros s; unfold subscribe. now destruct (store s !! p) as [[|]|]. Qed.

Lemma silent_iforM_ {A} (f : nat -> A -> M unit) l :
  (forall j a, silent (f j a)) -> forall i, silent (iforM_ f i l).
Proof.
  intros Hf; induction l as [|x l IH]; intros i; cbn [iforM_]; [apply silent_ret|].
  apply silent_bind; [apply Hf | intros _; apply IH].
Qed.

Lemma silent_Promise_race ps : silent (Promise_race ps).
Proof.
  unfold Promise_race. apply silent_bind; [apply silent_newPromise | intros res].
  apply silent_bind; [|intros _; apply silent_ret].
  apply silent_iforM_. intros; apply silent_subscribe.
Qed.

Lemma silent_Promise_all ps : silent (Promise_all ps).
Proof.
  unfold Promise_all. apply silent_bind; [apply silent_newPromise | intros res].
  apply silent_bind; [apply silent_newAgg | intros a].
  apply silent_bind; [apply silent_iforM_; intros; apply silent_subscribe | intros _].
  apply silent_bind; [|intros _; apply silent_ret].
  destruct (Nat.eqb _ _); [apply silent_settle | apply silent_ret].
Qed.

(** X5: the parallel and the race policy hand every descriptor of a
    non-empty batch to the executor within the call itself, in input order,
    and arm at that instant one timer for each descriptor that passes
    validation, also in input order; no job has run yet, the clock has not
    moved and the policy's own promise is still pending. *)
Theorem concurrent_all_started (p : policy) (items : list value) (t0 : Z) :
  concurrent p -> items <> [] ->
  let s := start_policy p (VArr items) t0 in
  executed s = items
  /\ List.map t_due (timers s)
     = List.map (fun x => t0 + wait_of x) (List.filter passes items)
  /\ now s = t0
  /\ settled s 0 = None.
Proof.
  intros Hp Hne. cbv zeta.
  pose proof (batch_guard_nonempty items Hne) as E.
  destruct Hp as [-> | ->]; cbn [start_policy].
  - split.
    + unfold executed, processTasksParallel, init. unfold bind at 1.
      cbn [newPromise store length now aggs timers micro trace app].
      rewrite E, snd_bind_ret, bind_trace, mapM_processTaskPromise_calls; [reflexivity|].
      intros ps. apply silent_bind; [apply silent_Promise_all | intros; apply silent_subscribe].
    + destruct (processTasksParallel_setup items t0 E) as (tr & ->).
      cbn [timers now]. split; [apply created_timers_due | now split].
  - split.
    + unfold executed, processTasksRace, init. unfold bind at 1.
      cbn [newPromise store length now aggs timers micro trace app].
      rewrite E, snd_bind_ret, bind_trace, mapM_processTaskPromise_calls; [reflexivity|].
      intros ps. apply silent_bind; [apply silent_Promise_race | intros; apply silent_subscribe].
    + destruct (processTasksRace_setup items t0 E) as (tr & ->).
      cbn [timers now]. split; [apply created_timers_due | now split].
Qed.

Lemma concurrent_all_started_witness :
  let s := start_policy Race
             (VArr [descriptor 1 "Load" 100; failing_descriptor 2 "Report" 5;
                    descriptor 3 "Send" 20]) 7 in
  executed s = [descriptor 1 "Load" 100; failing_descriptor 2 "Report" 5;
                descriptor 3 "Send" 20]
  /\ List.map t_due (timers s)
     = List.map (fun x => 7 + wait_of x)
         (List.filter passes [descriptor 1 "Load" 100; failing_descriptor 2 "Report" 5;
                              descriptor 3 "Send" 20])
  /\ now s = 7
  /\ settled s 0 = None.
Proof.
  apply (concurrent_all_started Race
           [descriptor 1 "Load" 100; failing_descriptor 2 "Report" 5;
            descriptor 3 "Send" 20] 7).
  - right; reflexivity.
  - discriminate.
Defined.

(** ** The wait of an executor, by the [duration] property *)



(** ** When the completion handler is called *)

(** X7: [processTaskCallback] never calls the handler before it returns,
    whatever the descriptor, invalid ones included; once the run has come
    to rest the handler has been called exactly once. *)
Theorem processTaskCallback_asynchronous (task : value) (t0 : Z) :
  handler_calls (start_executor Callback task t0) = []
  /\ length (handler_calls (run_executor Callback task t0)) = 1%nat
  /\ quiescent (run_executor Callback task t0).
Proof.
  split; [reflexivity|]. split; [|apply executor_quiescent].
  unfold run_executor, start_executor, processTaskCallback. cbn.
  destruct (validateTask task) as [[]|e] eqn:E; cbn; rewrite ?E; reflexivity.
Qed.

(** X8: [processTasksCallbacks] calls the handler before it returns exactly
    when the batch is empty or not a list (the guard's error, with [null]
    as result); on any other batch nothing has been delivered when the call
    returns. *)
Theorem processTasksCallbacks_synchronous_iff_guard (batch : value) (t0 : Z) :
  (empty_or_not_list batch ->
     handler_calls (start_policy SequentialCallbacks batch t0)
     = [(t0, Some (Error msg_batch), VNull)])
  /\ (~ empty_or_not_list batch ->
        handler_calls (start_policy SequentialCallbacks batch t0) = []
        /\ length (timers (start_policy SequentialCallbacks batch t0)) = 1%nat).
Proof.
  destruct (batch_guard_cases batch) as [[E Hb] | (items & -> & Hne & E)].
  - split; [|intros H; now contradiction H].
    intros _. now destruct (guard_rejects SequentialCallbacks batch t0 E) as (_ & _ & _ & H).
  - split.
    + intros [[= ->] | H]; [now contradiction Hne | now contradiction (H items)].
    + intros _. cbn [start_policy]. unfold processTasksCallbacks. rewrite E.
      unfold processNext. destruct items as [|x items]; [now contradiction Hne|].
      split; reflexivity.
Qed.

Lemma processTasksCallbacks_synchronous_iff_guard_witness :
  handler_calls (start_policy SequentialCallbacks (VArr []) 4)
  = [(4, Some (Error msg_batch), VNull)]
  /\ handler_calls (start_policy SequentialCallbacks (VArr [VNull]) 4) = []
  /\ length (timers (start_policy SequentialCallbacks (VArr [VNull]) 4)) = 1%nat.
Proof.
  split.
  - apply (processTasksCallbacks_synchronous_iff_guard (VArr []) 4). now left.
  - apply (processTasksCallbacks_synchronous_iff_guard (VArr [VNull]) 4).
    intros [H | H]; [discriminate H | now apply (H [VNull])].
Defined.

(** ** The batches of [main] *)

Lemma type_is_error_false_not_processing task :
  type_is_error task = Ok false -> forall e,
  validateTask task = Throw e -> is_processing e = false.
Proof.
  unfold type_is_error. intros H e He.
  assert (Hs : strict_eq_str (get task "type") "error" = false).
  { destruct task; cbn in H |- *; try discriminate; try reflexivity; congruence. }
  destruct (validateTask_cases task) as [E|[(msg & E & _)|(E & _ & _ & _ & _ & E')]];
    rewrite E in He; try discriminate.
  - now injection He as <-.
  - congruence.
Qed.

Lemma filter_not_error_spec items : forall kept,
  filter_not_error items = Ok kept ->
  (forall x, x ∈ kept -> x ∈ items /\ type_is_error x = Ok false)
  /\ forall x, x ∈ items -> exists b, type_is_error x = Ok b.
Proof.
  induction items as [|y items IH]; intros kept H.
  - injection H as <-. split; intros x Hx; now apply elem_of_nil in Hx.
  - cbn in H. destruct (type_is_error y) as [b|e] eqn:Ey; [|discriminate].
    destruct (filter_not_error items) as [kept'|e] eqn:Ek; [|discriminate].
    injection H as <-. destruct (IH kept' eq_refl) as [IH1 IH2]. split.
    + intros x Hx. destruct b.
      * destruct (IH1 x Hx). split; [now apply list_elem_of_further | assumption].
      * apply elem_of_cons in Hx as [->|Hx]; [split; [apply list_elem_of_here | exact Ey]|].
        destruct (IH1 x Hx). split; [now apply list_elem_of_further | assumption].
    + intros x Hx. apply elem_of_cons in Hx as [->|Hx]; [eauto | now apply IH2].
Qed.

Lemma elem_of_firstn {A} (x : A) k l : x ∈ firstn k l -> x ∈ l.
Proof.
  revert l; induction k as [|k IH]; intros [|y l] H; cbn in H;
    try (now apply elem_of_nil in H).
  apply elem_of_cons in H as [->|H]; [apply list_elem_of_here|].
  apply list_elem_of_further, IH, H.
Qed.

(** X9: whatever [tasks.json] holds, a sequential policy run on the first
    [k] of [validTasks] (the descriptors not tagged [error], as [main]
    selects them) comes to rest with one outcome, and that outcome is never
    a processing error: it is the list of summaries, the guard's error when
    nothing is left after filtering, or a validation error. *)
Theorem validTasks_never_processing_error (p : policy) (allTasks : value)
    (valid : list value) (k : nat) (t0 : Z) :
  sequential p -> validTasks allTasks = Ok valid ->
  exists n t o,
    let s := run n (start_policy p (VArr (firstn k valid)) t0) in
    quiescent s
    /\ policy_outcome p s = Some (t, o)
    /\ forall e, o = Rejected e -> is_processing e = false.
Proof.
  intros Hp Hvalid.
  assert (Hkept : forall x, x ∈ firstn k valid -> type_is_error x = Ok false).
  { destruct allTasks; try discriminate. cbn in Hvalid.
    intros x Hx. apply elem_of_firstn in Hx.
    now apply (filter_not_error_spec _ _ Hvalid). }
  destruct (batch_guard_cases (VArr (firstn k valid)))
    as [[E Hb] | (items & Heq & Hne & E)].
  2: injection Heq as <-.
  - destruct (guard_rejects p _ t0 E) as (Q & O & _).
    exists 0%nat, t0, (Rejected (Error msg_batch)). cbn [run].
    repeat split; try assumption. now intros e [= <-].
  - destruct (first_failure_split (firstn k valid))
      as [Hall | (pre & x & post & e & Hsplit & Hpre & Hx)].
    + destruct Hp as [-> | [-> | ->]]; cbn [start_policy policy_outcome].
      * destruct (all_succeed_callbacks _ t0 Hne Hall) as (n & Q & H & _).
        exists n, (t0 + total_wait (firstn k valid)),
          (Fulfilled (VArr (List.map summary_of (firstn k valid)))).
        cbv zeta. rewrite H. repeat split; try assumption. discriminate.
      * destruct (all_succeed_promises _ t0 Hne Hall) as (n & Q & H & _).
        exists n, (t0 + total_wait (firstn k valid)),
          (Fulfilled (VArr (List.map summary_of (firstn k valid)))).
        cbv zeta. repeat split; try assumption. discriminate.
      * destruct (all_succeed_async _ t0 Hne Hall) as (n & Q & H & _).
        exists n, (t0 + total_wait (firstn k valid)),
          (Fulfilled (VArr (List.map summary_of (firstn k valid)))).
        cbv zeta. repeat split; try assumption. discriminate.
    + assert (He : is_processing e = false).
      { apply (type_is_error_false_not_processing x); [|exact Hx].
        apply Hkept. rewrite Hsplit. apply elem_of_app; right; apply list_elem_of_here. }
      rewrite Hsplit.
      destruct Hp as [-> | [-> | ->]]; cbn [start_policy policy_outcome].
      * destruct (first_failure_callbacks pre post x e t0 Hpre Hx) as (n & Q & H & _).
        exists n, (t0 + total_wait pre), (Rejected e). cbv zeta. rewrite H.
        repeat split; try assumption. now intros e' [= <-].
      * destruct (first_failure_promises pre post x e t0 Hpre Hx) as (n & Q & H & _).
        exists n, (t0 + total_wait pre), (Rejected e). cbv zeta.
        repeat split; try assumption. now intros e' [= <-].
      * destruct (first_failure_async pre post x e t0 Hpre Hx) as (n & Q & H & _).
        exists n, (t0 + total_wait pre), (Rejected e). cbv zeta.
        repeat split; try assumption. now intros e' [= <-].
Qed.

Lemma validTasks_never_processing_error_witness :
  exists n t o,
    let s := run n (start_policy SequentialPromises
                      (VArr (firstn 3 [descriptor 1 "Load" 100; VObj [("id", VNum 2)]])) 0) in
    quiescent s
    /\ policy_outcome SequentialPromises s = Some (t, o)
    /\ forall e, o = Rejected e -> is_processing e = false.
Proof.
  apply (validTasks_never_processing_error SequentialPromises
           (VArr [descriptor 1 "Load" 100; failing_descriptor 9 "Report" 5;
                  VObj [("id", VNum 2)]])
           [descriptor 1 "Load" 100; VObj [("id", VNum 2)]] 3 0).
  - right; left; reflexivity.
  - reflexivity.
Defined.

Lemma find_error_spec items : forall found,
  find_error items = Ok found ->
  (found = VUndefined /\ forall x, x ∈ items -> type_is_error x = Ok false)
  \/ (found ∈ items /\ type_is_error found = Ok true).
Proof.
  induction items as [|y items IH]; intros found H.
  - injection H as <-. left. split; [reflexivity|]. intros x Hx; now apply elem_of_nil in Hx.
  - cbn in H. destruct (type_is_error y) as [[|]|e] eqn:Ey; try discriminate.
    + injection H as <-. right. split; [apply list_elem_of_here | exact Ey].
    + destruct (IH found H) as [[-> Hnone] | [Hin Hty]].
      * left. split; [reflexivity|]. intros x Hx.
        apply elem_of_cons in Hx as [->|Hx]; [exact Ey | now apply Hnone].
      * right. split; [now apply list_elem_of_further | exact Hty].
Qed.

Lemma type_is_error_true_tagged task : type_is_error task = Ok true -> tagged_error task.
Proof.
  unfold type_is_error, tagged_error. intros H.
  apply strict_eq_str_true. destruct task; cbn in H |- *; try discriminate; congruence.
Qed.

Lemma tagged_error_fails task : tagged_error task -> exists e, validateTask task = Throw e.
Proof.
  intros Htag.
  destruct (validateTask_cases task) as [E|[(msg & E & _)|(E & _)]]; eauto.
  exfalso. unfold validateTask in E. unfold tagged_error in Htag. rewrite Htag in E.
  cbn [strict_eq_str] in E. rewrite String.eqb_refl in E.
  destruct (_ || _); [discriminate|]. destruct (_ || _); discriminate.
Qed.

(** X10: the batch of the error demonstration of [main] is the first three
    of [validTasks] followed by the first descriptor tagged [error], or by
    [undefined] when no descriptor is tagged.  If the first three pass
    validation, [processTasksAsyncAwait] runs them in order and then fails
    on the last element: with the processing error of the tagged descriptor
    when it is well-formed, and with the validation error "Task must be an
    object" when none was found. *)
Theorem errorDemoTasks_outcome (allTasks : value) (demo : list value) (t0 : Z) :
  errorDemoTasks allTasks = Ok demo ->
  exists first3 found,
    demo = first3 ++ [found]
    /\ (length first3 <= 3)%nat
    /\ (found = VUndefined \/ tagged_error found)
    /\ (Forall succeeds first3 ->
          exists n e,
            let s := run n (start_policy SequentialAsyncAwait (VArr demo) t0) in
            quiescent s
            /\ policy_outcome SequentialAsyncAwait s
               = Some (t0 + total_wait first3, Rejected e)
            /\ executed s = demo
            /\ (found = VUndefined -> e = TaskValidationError msg_not_object VUndefined)
            /\ (well_formed found ->
                  e = TaskProcessingError (processing_message found)
                        (get found "id") (get found "name"))).
Proof.
  unfold errorDemoTasks. intros H.
  destruct (validTasks allTasks) as [valid|e0] eqn:Ev; [|discriminate].
  assert (Hfound : exists found, demo = firstn 3 valid ++ [found]
                                 /\ (found = VUndefined \/ tagged_error found)).
  { destruct allTasks; try discriminate Ev;
      try (injection H as <-; exists VUndefined; split; [reflexivity | now left]).
    destruct (find_error items) as [found|e1] eqn:Ef; [|discriminate].
    injection H as <-. exists found. split; [reflexivity|].
    destruct (find_error_spec _ _ Ef) as [[-> _] | [_ Hty]];
      [now left | right; now apply type_is_error_true_tagged]. }
  destruct Hfound as (found & -> & Hkind).
  exists (firstn 3 valid), found. split; [reflexivity|].
  split; [apply length_firstn_le || (rewrite length_firstn; lia)|].
  split; [exact Hkind|]. intros Hpre.
  assert (Hfail : exists e, validateTask found = Throw e).
  { destruct Hkind as [-> | Htag]; [eexists; reflexivity | now apply tagged_error_fails]. }
  destruct Hfail as (e & He).
  destruct (first_failure_async (firstn 3 valid) [] found e t0 Hpre He)
    as (n & Q & O & X & _).
  exists n, e. cbv zeta. cbn [start_policy policy_outcome].
  repeat split; try assumption.
  - intros ->. cbn in He. now injection He as <-.
  - intros Hwf. destruct Hkind as [-> | Htag].
    + destruct Hwf as [[fs Hfs] _]; discriminate Hfs.
    + rewrite (validateTask_tagged _ Hwf Htag) in He. now injection He as <-.
Qed.

Lemma errorDemoTasks_outcome_witness :
  exists first3 found,
    [descriptor 1 "Load" 100; descriptor 3 "Send" 20; failing_descriptor 2 "Report" 5]
    = first3 ++ [found]
    /\ (length first3 <= 3)%nat
    /\ (found = VUndefined \/ tagged_error found)
    /\ (Forall succeeds first3 ->
          exists n e,
            let s := run n (start_policy SequentialAsyncAwait
                              (VArr [descriptor 1 "Load" 100; descriptor 3 "Send" 20;
                                     failing_descriptor 2 "Report" 5]) 0) in
            quiescent s
            /\ policy_outcome SequentialAsyncAwait s
               = Some (0 + total_wait first3, Rejected e)
            /\ executed s = [descriptor 1 "Load" 100; descriptor 3 "Send" 20;
                             failing_descriptor 2 "Report" 5]
            /\ (found = VUndefined -> e = TaskValidationError msg_not_object VUndefined)
            /\ (well_formed found ->
                  e = TaskProcessingError (processing_message found)
                        (get found "id") (get found "name"))).
Proof.
  apply (errorDemoTasks_outcome
           (VArr [descriptor 1 "Load" 100; failing_descriptor 2 "Report" 5;
                  descriptor 3 "Send" 20])
           [descriptor 1 "Load" 100; descriptor 3 "Send" 20;
            failing_descriptor 2 "Report" 5] 0).
  reflexivity.
Defined.

(** * Properties of [asyncTasks.js] *)

(** ** The Promise executor *)



(** * Console output of the sequential policies *)

Lemma trace_console_app a b : trace_console (a ++ b) = trace_console a ++ trace_console b.
Proof. apply flat_map_app. Qed.

Lemma async_prefix_console pre : forall rest self results t st ag tr,
  Forall succeeds pre ->
  exists st' tr',
    run (3 * length pre)
        (snd (processTasksAsyncAwait_loop (pre ++ rest) results self
                (mkState t st ag [] [] tr)))
    = snd (processTasksAsyncAwait_loop rest (results ++ List.map summary_of pre) self
             (mkState (t + total_wait pre) (st ++ st') ag [] [] (tr ++ tr')))
    /\ trace_console tr' = List.map logged pre.
Proof.
  induction pre as [|x pre IH]; intros rest self results t st ag tr Hpre.
  - exists [], []. cbn. rewrite !app_nil_r, Z.add_0_r. split; reflexivity.
  - inversion Hpre as [|? ? Hx Hpre']; subst.
    replace (3 * length (x :: pre))%nat with (3 + 3 * length pre)%nat by (cbn; lia).
    rewrite run_add. cbn [app]. rewrite async_turn by assumption.
    edestruct IH as (st' & tr' & Hrun & Htr); [exact Hpre'|].
    rewrite Hrun. eexists (_ :: _ :: st'), (_ :: _ :: _ :: tr').
    split.
    + cbn [List.map total_wait fold_right]. rewrite <- !app_assoc.
      rewrite Z.add_assoc. reflexivity.
    + change (?a :: ?b :: ?c :: tr') with ([a; b; c] ++ tr').
      rewrite trace_console_app, Htr. reflexivity.
Qed.

Lemma promises_prefix_console pre : forall rest self results t st ag tr,
  Forall succeeds pre ->
  exists st' tr',
    run (2 * length pre)
        (snd (processTasksPromises_loop (pre ++ rest) results self
                (mkState t st ag [] [] tr)))
    = snd (processTasksPromises_loop rest (results ++ List.map summary_of pre) self
             (mkState (t + total_wait pre) (st ++ st') ag [] [] (tr ++ tr')))
    /\ trace_console tr' = [].
Proof.
  induction pre as [|x pre IH]; intros rest self results t st ag tr Hpre.
  - exists [], []. cbn. rewrite !app_nil_r, Z.add_0_r. split; reflexivity.
  - inversion Hpre as [|? ? Hx Hpre']; subst.
    replace (2 * length (x :: pre))%nat with (2 + 2 * length pre)%nat by (cbn; lia).
    rewrite run_add. cbn [app]. rewrite promises_turn by assumption.
    edestruct IH as (st' & tr' & Hrun & Htr); [exact Hpre'|].
    rewrite Hrun. eexists (_ :: st'), (_ :: _ :: tr').
    split.
    + cbn [List.map total_wait fold_right]. rewrite <- !app_assoc.
      rewrite Z.add_assoc. reflexivity.
    + change (?a :: ?b :: tr') with ([a; b] ++ tr').
      rewrite trace_console_app, Htr. reflexivity.
Qed.

(** X12: when a batch fails at its descriptor [d] after the descriptors
    [pre] succeeded, [processTasksAsyncAwait] has by then written to the
    console one success line per descriptor of [pre], in order, followed by
    one error line for [d]; [processTasksPromises], on the same batch and
    with the same rejection, has written nothing. *)
Theorem sequential_console_on_failure (pre post : list value) (d : value) (e : error)
    (t0 : Z) :
  Forall succeeds pre -> validateTask d = Throw e ->
  exists n k,
    let s := run n (start_policy SequentialAsyncAwait (VArr (pre ++ d :: post)) t0) in
    let s' := run k (start_policy SequentialPromises (VArr (pre ++ d :: post)) t0) in
    quiescent s /\ quiescent s'
    /\ settled s 0 = Some (t0 + total_wait pre, Rejected e)
    /\ settled s' 0 = Some (t0 + total_wait pre, Rejected e)
    /\ console s = List.map logged pre ++ [(false, console_error_AsyncAwait e)]
    /\ console s' = [].
Proof.
  intros Hpre Hd.
  exists (3 * length pre + 1)%nat, (2 * length pre + 1)%nat. cbv zeta.
  cbn [start_policy].
  rewrite processTasksAsyncAwait_start, processTasksPromises_start
    by apply batch_guard_middle.
  destruct (async_prefix_console pre (d :: post) 0%nat [] t0 [Pending []] [] [] Hpre)
    as (st1 & tr1 & Hrun1 & C1).
  destruct (promises_prefix_console pre (d :: post) 0%nat [] t0 [Pending []] [] [] Hpre)
    as (st2 & tr2 & Hrun2 & C2).
  rewrite !run_add, Hrun1, Hrun2.
  edestruct (async_abort d post) as (s1 & Hs1 & Q1 & S1 & T1);
    [exact Hd | | rewrite Hs1]; [reflexivity|].
  edestruct (promises_abort d post) as (s2 & Hs2 & Q2 & S2 & T2);
    [exact Hd | | rewrite Hs2]; [reflexivity|].
  unfold console. rewrite T1, T2, !trace_console_app, C1, C2.
  repeat split; assumption.
Qed.

Lemma sequential_console_on_failure_witness :
  exists n k,
    let s := run n (start_policy SequentialAsyncAwait
                      (VArr ([descriptor 1 "Load" 100] ++ VNull :: [descriptor 3 "Send" 20]))
                      0) in
    let s' := run k (start_policy SequentialPromises
                       (VArr ([descriptor 1 "Load" 100] ++ VNull :: [descriptor 3 "Send" 20]))
                       0) in
    quiescent s /\ quiescent s'
    /\ settled s 0 = Some (0 + total_wait [descriptor 1 "Load" 100],
                           Rejected (TaskValidationError msg_not_object VNull))
    /\ settled s' 0 = Some (0 + total_wait [descriptor 1 "Load" 100],
                            Rejected (TaskValidationError msg_not_object VNull))
    /\ console s
       = List.map logged [descriptor 1 "Load" 100]
         ++ [(false, console_error_AsyncAwait (TaskValidationError msg_not_object VNull))]
    /\ console s' = [].
Proof.
  apply (sequential_console_on_failure [descriptor 1 "Load" 100] [descriptor 3 "Send" 20]
           VNull (TaskValidationError msg_not_object VNull) 0).
  - each ltac:(reflexivity).
  - reflexivity.
Defined.

(** * The await-style concurrent policies *)

(** ** The synchronous part *)

Lemma processTaskAsync_ok task t st ag tm mq tr :
  succeeds task ->
  processTaskAsync task (mkState t st ag tm mq tr)
  = (length st,
     mkState t
       (st ++ [Pending [];
               Pending [R_await (F_processTaskAsync task (duration_of task) (length st))]])
       ag
       (tm ++ [mkTimer (t + wait_of task) (T_delay (S (length st)))]) mq
       (tr ++ [E_call Async task; E_setTimeout (T_delay (S (length st))) (wait_of task)])).
Proof.
  intros E. unfold processTaskAsync, delay. rewrite E. machine. reflexivity.
Qed.

Lemma processTaskAsync_throw task e t st ag tm mq tr :
  validateTask task = Throw e ->
  processTaskAsync task (mkState t st ag tm mq tr)
  = (length st,
     mkState t (st ++ [Settled t (Rejected e)]) ag tm mq (tr ++ [E_call Async task])).
Proof.
  intros E. unfold processTaskAsync. rewrite E. machine. reflexivity.
Qed.

Lemma async_cells_ext rs items : forall i i' t base,
  async_cells (fun _ => rs) i t base items = async_cells (fun _ => rs) i' t base items.
Proof.
  induction items as [|x items IH]; intros i i' t base; [reflexivity|].
  cbn [async_cells]. now rewrite (IH (S i) (S i')).
Qed.

Lemma mapM_processTaskAsync items : forall t st ag tm mq tr,
  exists tr',
    mapM processTaskAsync items (mkState t st ag tm mq tr)
    = (async_promises (length st) items,
       mkState t (st ++ async_cells (fun _ => []) 0 t (length st) items) ag
         (tm ++ async_timers t (length st) items) mq tr')
    /\ trace_console tr' = trace_console tr.
Proof.
  induction items as [|x items IH]; intros t st ag tm mq tr.
  - exists tr. cbn. now rewrite !app_nil_r.
  - cbn [mapM]. unfold bind at 1.
    destruct (validateTask x) as [[]|e] eqn:E.
    + rewrite (processTaskAsync_ok _ _ _ _ _ _ _ E).
      edestruct IH as (tr' & Hrun & Htr). unfold bind at 1. rewrite Hrun.
      exists tr'. cbn [ret async_promises async_cells async_timers]. unfold async_next.
      rewrite E, !length_app, <- !app_assoc. cbn [length].
      replace (length st + 2)%nat with (S (S (length st))) by lia.
      rewrite (async_cells_ext [] items 1 0).
      split; [reflexivity|]. rewrite Htr, trace_console_app. cbn. apply app_nil_r.
    + rewrite (processTaskAsync_throw _ _ _ _ _ _ _ _ E).
      edestruct IH as (tr' & Hrun & Htr). unfold bind at 1. rewrite Hrun.
      exists tr'. cbn [ret async_promises async_cells async_timers]. unfold async_next.
      rewrite E, length_snoc, <- !app_assoc. cbn [app].
      rewrite (async_cells_ext [] items 1 0).
      split; [reflexivity|]. rewrite Htr, trace_console_app. cbn. apply app_nil_r.
Qed.

Lemma iforM_subscribe_async f items : forall i st rest t ag tm mq tr,
  iforM_ (fun i p => subscribe p (f i)) i (async_promises (length st) items)
    (mkState t (st ++ async_cells (fun _ => []) i t (length st) items ++ rest) ag tm mq tr)
  = (tt, mkState t (st ++ async_cells (fun i => [f i]) i t (length st) items ++ rest) ag tm
           (mq ++ async_queued f i items) tr).
Proof.
  induction items as [|x items IH]; intros i st rest t ag tm mq tr.
  - cbn. now rewrite app_nil_r.
  - cbn [async_promises async_cells async_queued iforM_]. unfold bind, subscribe at 1.
    cbn [store]. unfold async_next.
    destruct (validateTask x) as [[]|e] eqn:E; cbn [app]; rewrite lookup_mid0;
      cbn [now aggs timers micro trace].
    + rewrite insert_mid0. cbn [app].
      set (a := Pending [f i]). set (b := Pending [R_await _]).
      replace (st ++ a :: b :: async_cells (fun _ => []) (S i) t (S (S (length st))) items ++ rest)
        with ((st ++ [a; b])
                ++ async_cells (fun _ => []) (S i) t (S (S (length st))) items ++ rest)
        by now rewrite <- app_assoc.
      replace (S (S (length st))) with (length (st ++ [a; b]))
        by (rewrite length_app; cbn; lia).
      rewrite IH. now rewrite <- !app_assoc.
    + set (a := Settled t (Rejected e)).
      replace (st ++ a :: async_cells (fun _ => []) (S i) t (S (length st)) items ++ rest)
        with ((st ++ [a]) ++ async_cells (fun _ => []) (S i) t (S (length st)) items ++ rest)
        by now rewrite <- app_assoc.
      rewrite <- (length_snoc st a), IH. now rewrite <- !app_assoc.
Qed.

Lemma async_cells_length rs items : forall i t base,
  (base + length (async_cells rs i t base items))%nat = async_end base items.
Proof.
  induction items as [|x items IH]; intros i t base; cbn [async_cells async_end length].
  - lia.
  - rewrite length_app, <- (IH (S i) t). unfold async_next.
    destruct (validateTask x) as [[]|e]; cbn [length]; lia.
Qed.

Lemma async_store_self rs t items c :
  (Pending [] :: async_cells rs 0 t 1 items ++ [c]) !! 0%nat = Some (Pending []).
Proof. reflexivity. Qed.

Lemma async_store_result rs t items c :
  (Pending [] :: async_cells rs 0 t 1 items ++ [c]) !! async_end 1 items = Some c.
Proof.
  rewrite <- (async_cells_length rs items 0 t 1).
  change (Pending [] :: async_cells rs 0 t 1 items ++ [c])
    with ((Pending [] :: async_cells rs 0 t 1 items) ++ [c]).
  apply (lookup_mid0 (Pending [] :: _)).
Qed.

Lemma async_store_insert rs t items c c' :
  <[async_end 1 items := c']> (Pending [] :: async_cells rs 0 t 1 items ++ [c])
  = Pending [] :: async_cells rs 0 t 1 items ++ [c'].
Proof.
  rewrite <- (async_cells_length rs items 0 t 1).
  change (Pending [] :: async_cells rs 0 t 1 items ++ [c])
    with ((Pending [] :: async_cells rs 0 t 1 items) ++ [c]).
  apply (insert_mid0 (Pending [] :: _)).
Qed.

Lemma processTasksRaceAsync_setup items t0 :
  batch_guard (VArr items) = Ok items ->
  exists tr,
    snd (processTasksRaceAsync (VArr items) (init t0))
    = mkState t0
        (Pending [] :: async_cells (fun _ => [R_race (async_end 1 items)]) 0 t0 1 items
           ++ [Pending [R_await (F_processTasksRaceAsync 0)]])
        [] (async_timers t0 1 items)
        (async_queued (fun _ => R_race (async_end 1 items)) 0 items) tr
    /\ trace_console tr = [].
Proof.
  intros E. unfold processTasksRaceAsync, init. unfold bind at 1.
  cbn [newPromise store length now aggs timers micro trace app].
  rewrite E, snd_bind_ret. unfold bind at 1.
  destruct (mapM_processTaskAsync items t0 [Pending []] [] [] [] []) as (tr & -> & Htr).
  unfold Promise_race, bind. cbn [newPromise store now aggs timers micro trace length app].
  pose proof (async_cells_length (fun _ => []) items 0 t0 1) as Hl. cbn [Nat.add] in Hl.
  rewrite Hl.
  pose proof (iforM_subscribe_async (fun _ => R_race (async_end 1 items)) items 0
                [Pending []] [Pending []] t0 [] (async_timers t0 1 items) [] tr) as H.
  cbn [length app] in H. rewrite H. cbn [ret snd fst].
  exists tr. split; [|exact Htr].
  unfold subscribe. cbn [store now aggs timers micro trace].
  rewrite async_store_result.
  rewrite async_store_insert. reflexivity.
Qed.

Lemma processTasksParallelAsync_setup items t0 :
  batch_guard (VArr items) = Ok items ->
  exists tr,
    snd (processTasksParallelAsync (VArr items) (init t0))
    = mkState t0
        (Pending [] :: async_cells (fun i => [R_all (async_end 1 items) 0 i]) 0 t0 1 items
           ++ [Pending [R_await (F_processTasksParallelAsync 0)]])
        [mkAgg (replicate (length items) VUndefined) (length items)]
        (async_timers t0 1 items)
        (async_queued (R_all (async_end 1 items) 0) 0 items) tr
    /\ trace_console tr = [].
Proof.
  intros E. unfold processTasksParallelAsync, init. unfold bind at 1.
  cbn [newPromise store length now aggs timers micro trace app].
  rewrite E, snd_bind_ret. unfold bind at 1.
  destruct (mapM_processTaskAsync items t0 [Pending []] [] [] [] []) as (tr & -> & Htr).
  unfold Promise_all, bind.
  cbn [newPromise newAgg store now aggs timers micro trace length app].
  pose proof (async_cells_length (fun _ => []) items 0 t0 1) as Hl. cbn [Nat.add] in Hl.
  rewrite Hl.
  assert (Hps : forall base, length (async_promises base items) = length items).
  { clear. induction items as [|x items IH]; intros base; cbn; [reflexivity|].
    now rewrite IH. }
  rewrite !Hps.
  pose proof (iforM_subscribe_async (R_all (async_end 1 items) 0) items 0
                [Pending []] [Pending []] t0
                [mkAgg (replicate (length items) VUndefined) (length items)]
                (async_timers t0 1 items) [] tr) as H.
  cbn [length app] in H. rewrite H, (batch_guard_Ok_nonempty _ E). cbn [ret snd fst].
  exists tr. split; [|exact Htr].
  unfold subscribe. cbn [store now aggs timers micro trace].
  rewrite async_store_result.
  rewrite async_store_insert. reflexivity.
Qed.

(** ** A rejection already in the microtask queue wins *)

Section RejectionWinsAsync.
Variables (f : nat -> reaction) (F : frame) (res : nat) (line : error -> list (bool * string)).
Hypothesis react_f : forall j e, react (f j) (Rejected e) = settle res (Rejected e).
Hypothesis resume_F : forall e t st ag tm mq tr,
  exists tr',
    resume F (Rejected e) (mkState t st ag tm mq tr)
    = settle 0 (Rejected e) (mkState t st ag tm mq tr')
    /\ trace_console tr' = trace_console tr ++ line e.

Lemma rejection_wins_async j0 e q t st ag tm tr :
  st !! 0%nat = Some (Pending []) -> st !! res = Some (Pending [R_await F]) ->
  res <> 0%nat -> Forall (rejection_of f) q ->
  let s := run (1 + (length q + 1)) (mkState t st ag tm ((f j0, Rejected e) :: q) tr) in
  settled s 0 = Some (t, Rejected e) /\ console s = trace_console tr ++ line e.
Proof.
  intros H0 Hres Hne Hq. cbv zeta.
  rewrite run_add. cbn [run]. rewrite step_micro, react_f.
  rewrite (settle_pending _ _ _ _ _ _ _ _ _ Hres). cbn [snd List.map].
  rewrite run_add.
  rewrite (drain_rejections f res react_f q _ _ _ _ _ _ t (Rejected e)); [|
    apply list_lookup_insert_eq; now apply lookup_lt_Some in Hres | exact Hq].
  cbn [run]. rewrite step_micro. cbn [react].
  edestruct resume_F as (tr' & -> & Htr).
  assert (H0' : <[res := Settled t (Rejected e)]> st !! 0%nat = Some (Pending []))
    by now rewrite list_lookup_insert_ne.
  rewrite (settle_pending _ _ _ _ _ _ _ _ _ H0'). cbn [snd].
  unfold settled, console; cbn [store trace].
  rewrite list_lookup_insert_eq; [now split|]. now apply lookup_lt_Some in H0'.
Qed.
End RejectionWinsAsync.

Lemma resume_RaceAsync_rejected self e t st ag tm mq tr :
  exists tr',
    resume (F_processTasksRaceAsync self) (Rejected e) (mkState t st ag tm mq tr)
    = settle self (Rejected e) (mkState t st ag tm mq tr')
    /\ trace_console tr' = trace_console tr ++ [console_error_RaceAsync e].
Proof.
  eexists. split; [reflexivity|]. now rewrite trace_console_app.
Qed.

Lemma resume_ParallelAsync_rejected self e t st ag tm mq tr :
  exists tr',
    resume (F_processTasksParallelAsync self) (Rejected e) (mkState t st ag tm mq tr)
    = settle self (Rejected e) (mkState t st ag tm mq tr')
    /\ trace_console tr' = trace_console tr ++ console_error_ParallelAsync e.
Proof.
  destruct e; (eexists; split; [reflexivity|]);
    cbn [console_error_ParallelAsync trace]; rewrite ?trace_console_app, ?app_nil_r;
    reflexivity.
Qed.

Lemma async_queued_succeeding_prefix f pre : forall i l,
  Forall succeeds pre ->
  async_queued f i (pre ++ l) = async_queued f (i + length pre) l.
Proof.
  induction pre as [|x pre IH]; intros i l H; cbn [app length].
  - now rewrite Nat.add_0_r.
  - inversion H as [|? ? Hx Hpre]; subst.
    cbn [async_queued]. rewrite Hx. cbn [app].
    rewrite IH by assumption. now rewrite Nat.add_succ_r.
Qed.

Lemma async_queued_rejections f l : forall i, Forall (rejection_of f) (async_queued f i l).
Proof.
  induction l as [|x l IH]; intros i; cbn [async_queued]; [constructor|].
  destruct (validateTask x) as [[]|e]; cbn [app]; [apply IH|].
  constructor; [now exists i, e | apply IH].
Qed.

Lemma async_queued_first_failure f pre x e post :
  Forall succeeds pre -> validateTask x = Throw e ->
  async_queued f 0 (pre ++ x :: post)
  = (f (length pre), Rejected e) :: async_queued f (S (length pre)) post.
Proof.
  intros Hpre Hx. rewrite async_queued_succeeding_prefix by assumption.
  cbn [async_queued Nat.add]. now rewrite Hx.
Qed.

Lemma async_end_pos items : forall base, (base <= async_end base items)%nat.
Proof.
  induction items as [|x items IH]; intros base; cbn [async_end]; [lia|].
  specialize (IH (async_next base x)). unfold async_next in *.
  destruct (validateTask x); lia.
Qed.

Section FirstRejectionAsync.
Variables (pre post : list value) (x : value) (e : error) (t0 : Z).
Hypothesis Hpre : Forall succeeds pre.
Hypothesis Hx : validateTask x = Throw e.

Lemma race_async_first_rejection :
  exists n,
    let s := run n (snd (processTasksRaceAsync (VArr (pre ++ x :: post)) (init t0))) in
    settled s 0 = Some (t0, Rejected e) /\ console s = [console_error_RaceAsync e].
Proof.
  destruct (processTasksRaceAsync_setup _ t0 (batch_guard_middle pre x post))
    as (tr & -> & Htr).
  rewrite (async_queued_first_failure _ _ _ _ _ Hpre Hx).
  set (q := async_queued _ (S (length pre)) _).
  exists (1 + (length q + 1))%nat.
  cbv zeta.
  edestruct (rejection_wins_async (fun _ => R_race (async_end 1 (pre ++ x :: post)))
               (F_processTasksRaceAsync 0) (async_end 1 (pre ++ x :: post))
               (fun e => [console_error_RaceAsync e]))
    with (j0 := length pre) as [H1 H2]; cycle -1.
  - split; [exact H1|]. rewrite H2, Htr. reflexivity.
  - reflexivity.
  - intros. apply resume_RaceAsync_rejected.
  - apply async_store_self.
  - apply async_store_result.
  - pose proof (async_end_pos (pre ++ x :: post) 1). lia.
  - apply async_queued_rejections.
Qed.

Lemma parallel_async_first_rejection :
  exists n,
    let s := run n (snd (processTasksParallelAsync (VArr (pre ++ x :: post)) (init t0))) in
    settled s 0 = Some (t0, Rejected e) /\ console s = console_error_ParallelAsync e.
Proof.
  destruct (processTasksParallelAsync_setup _ t0 (batch_guard_middle pre x post))
    as (tr & -> & Htr).
  rewrite (async_queued_first_failure _ _ _ _ _ Hpre Hx).
  set (q := async_queued _ (S (length pre)) _).
  exists (1 + (length q + 1))%nat.
  cbv zeta.
  edestruct (rejection_wins_async (R_all (async_end 1 (pre ++ x :: post)) 0)
               (F_processTasksParallelAsync 0) (async_end 1 (pre ++ x :: post))
               console_error_ParallelAsync)
    with (j0 := length pre) as [H1 H2]; cycle -1.
  - split; [exact H1|]. rewrite H2, Htr. reflexivity.
  - reflexivity.
  - intros. apply resume_ParallelAsync_rejected.
  - apply async_store_self.
  - apply async_store_result.
  - pose proof (async_end_pos (pre ++ x :: post) 1). lia.
  - apply async_queued_rejections.
Qed.
End FirstRejectionAsync.

(** ** With no rejection, the timers decide *)

Lemma async_end_all_succeed items : forall base,
  Forall succeeds items -> async_end base items = (base + (length items + length items))%nat.
Proof.
  induction items as [|x items IH]; intros base H; cbn [async_end length]; [lia|].
  inversion H as [|? ? Hx Hrest]; subst.
  unfold async_next. rewrite Hx, IH by assumption. lia.
Qed.

Lemma async_queued_all_succeed f items :
  Forall succeeds items -> async_queued f 0 items = [].
Proof.
  intros H. rewrite <- (app_nil_r items).
  now rewrite async_queued_succeeding_prefix.
Qed.

Lemma async_timers_lookup t items : forall base j,
  Forall succeeds items ->
  async_timers t base items !! j
  = (fun x => mkTimer (t + wait_of x) (T_delay (S (base + (j + j))))) <$> items !! j.
Proof.
  induction items as [|x items IH]; intros base j H; [reflexivity|].
  inversion H as [|? ? Hx Hrest]; subst.
  cbn [async_timers]. unfold async_next. rewrite Hx. cbn [app].
  destruct j as [|j].
  - cbn. now rewrite !Nat.add_0_r.
  - etransitivity; [exact (IH (S (S base)) j Hrest)|].
    change ((x :: items) !! S j) with (items !! j).
    destruct (items !! j); cbn [fmap option_fmap option_map]; [|reflexivity].
    do 3 f_equal. lia.
Qed.

Lemma async_timers_length t items : forall base,
  Forall succeeds items -> length (async_timers t base items) = length items.
Proof.
  induction items as [|x items IH]; intros base H; [reflexivity|].
  inversion H as [|? ? Hx Hrest]; subst.
  cbn [async_timers]. rewrite Hx. cbn. now rewrite IH.
Qed.

Lemma async_cells_lookup rs t items : forall i base j x,
  Forall succeeds items -> items !! j = Some x ->
  async_cells rs i t base items !! (j + j)%nat = Some (Pending (rs (i + j)%nat))
  /\ async_cells rs i t base items !! S (j + j)
     = Some (Pending [R_await (F_processTaskAsync x (duration_of x) (base + (j + j)))]).
Proof.
  induction items as [|y items IH]; intros i base j x H Hj; [discriminate|].
  inversion H as [|? ? Hy Hrest]; subst.
  cbn [async_cells]. unfold async_next. rewrite Hy. cbn [app].
  destruct j as [|j].
  - injection Hj as ->. cbn [Nat.add lookup list_lookup]. now rewrite !Nat.add_0_r.
  - change (items !! j = Some x) in Hj.
    replace (S j + S j)%nat with (S (S (j + j))) by lia.
    destruct (IH (S i) (S (S base)) j x Hrest Hj) as [H1 H2].
    replace (i + S j)%nat with (S i + j)%nat by lia.
    replace (base + S (S (j + j)))%nat with (S (S base) + (j + j))%nat by lia.
    split; [exact H1 | exact H2].
Qed.

Lemma async_store_contender rs t items c j x :
  Forall succeeds items -> items !! j = Some x ->
  (Pending [] :: async_cells rs 0 t 1 items ++ [c]) !! S (j + j) = Some (Pending (rs j))
  /\ (Pending [] :: async_cells rs 0 t 1 items ++ [c]) !! S (S (j + j))
     = Some (Pending [R_await (F_processTaskAsync x (duration_of x) (S (j + j)))]).
Proof.
  intros Hall Hj. destruct (async_cells_lookup rs t items 0 1 j x Hall Hj) as [H1 H2].
  split.
  - change ((Pending [] :: async_cells rs 0 t 1 items ++ [c]) !! S (j + j))
      with ((async_cells rs 0 t 1 items ++ [c]) !! (j + j)%nat).
    now apply lookup_app_l_Some.
  - change ((Pending [] :: async_cells rs 0 t 1 items ++ [c]) !! S (S (j + j)))
      with ((async_cells rs 0 t 1 items ++ [c]) !! S (j + j)).
    now apply lookup_app_l_Some.
Qed.

Lemma earliest_exists items : items <> [] -> exists i x, earliest items i x.
Proof.
  induction items as [|y items IH]; [contradiction|]. intros _.
  destruct items as [|z items].
  - exists 0%nat, y. split; [reflexivity|]. split.
    + intros [|j] v H; [injection H as <-; lia | discriminate].
    + intros j v Hlt; lia.
  - destruct IH as (i & x & Hi & Hmin & Hfirst); [discriminate|].
    destruct (Z.le_gt_cases (wait_of y) (wait_of x)) as [Hle|Hgt].
    + exists 0%nat, y. split; [reflexivity|]. split.
      * intros [|j] v H; [injection H as <-; lia|].
        specialize (Hmin j v H). lia.
      * intros j v Hlt; lia.
    + exists (S i), x. split; [exact Hi|]. split.
      * intros [|j] v H; [injection H as <-; lia | exact (Hmin j v H)].
      * intros [|j] v Hlt H; [injection H as <-; lia|].
        apply (Hfirst j v); [lia | exact H].
Qed.

Lemma race_async_earliest_wins items i x t0 :
  Forall succeeds items -> earliest items i x ->
  exists n,
    let s := run n (snd (processTasksRaceAsync (VArr items) (init t0))) in
    settled s 0 = Some (t0 + wait_of x, Fulfilled (summary_of x)) /\ console s = [].
Proof.
  intros Hall (Hi & Hmin & Hfirst).
  assert (Hx : succeeds x).
  { eapply Forall_lookup_1; eassumption. }
  assert (E : batch_guard (VArr items) = Ok items) by (destruct items; [discriminate | reflexivity]).
  destruct (processTasksRaceAsync_setup _ t0 E) as (tr & -> & Htr).
  rewrite (async_queued_all_succeed _ _ Hall).
  set (u := mkTimer (t0 + wait_of x) (T_delay (S (S (i + i))))).
  destruct (pop_timer_min (async_timers t0 1 items) i u) as (rest & Hpop).
  { rewrite async_timers_lookup, Hi by assumption. reflexivity. }
  { intros j v. rewrite async_timers_lookup by assumption.
    destruct (items !! j) as [y|] eqn:Hj; [|discriminate].
    intros [= <-]. cbn. specialize (Hmin j y Hj). lia. }
  { intros j v Hlt. rewrite async_timers_lookup by assumption.
    destruct (items !! j) as [y|] eqn:Hj; [|discriminate].
    intros [= <-]. cbn. specialize (Hfirst j y Hlt Hj). lia. }
  exists 4%nat. cbv zeta.
  rewrite (async_end_all_succeed _ _ Hall).
  set (res := (1 + (length items + length items))%nat).
  set (st := Pending [] :: _ ++ _).
  assert (Hlen : (i < length items)%nat) by (now apply lookup_lt_Some in Hi).
  assert (S0 : st !! 0%nat = Some (Pending [])) by reflexivity.
  destruct (async_store_contender (fun _ => [R_race res]) t0 items
              (Pending [R_await (F_processTasksRaceAsync 0)]) i x Hall Hi) as [S1 S2].
  fold st in S1, S2.
  assert (S3 : st !! res = Some (Pending [R_await (F_processTasksRaceAsync 0)])).
  { unfold res. rewrite <- (async_end_all_succeed _ _ Hall). apply async_store_result. }
  rewrite (run_S _ _ _ (step_timer _ _ _ _ _ _ _ Hpop)).
  cbn [t_cb t_due u fire].
  rewrite (settle_pending _ _ _ _ _ _ _ _ _ S2). cbn [snd List.map app].
  rewrite (run_S _ _ _ (step_micro _ _ _ _ _ _ _ _)). cbn [react resume].
  set (st1 := <[S (S (i + i)) := _]> st).
  assert (S1' : st1 !! S (i + i) = Some (Pending [R_race res]))
    by (unfold st1; rewrite list_lookup_insert_ne; [exact S1 | lia]).
  rewrite (settle_pending _ _ _ _ _ _ _ _ _ S1'). cbn [snd List.map app].
  rewrite (run_S _ _ _ (step_micro _ _ _ _ _ _ _ _)). cbn [react].
  set (st2 := <[S (i + i) := _]> st1).
  assert (S3' : st2 !! res = Some (Pending [R_await (F_processTasksRaceAsync 0)]))
    by (unfold st2, st1; rewrite !list_lookup_insert_ne; [exact S3 | unfold res; lia ..]).
  rewrite (settle_pending _ _ _ _ _ _ _ _ _ S3'). cbn [snd List.map app].
  rewrite (run_S _ _ _ (step_micro _ _ _ _ _ _ _ _)). cbn [react resume run].
  set (st3 := <[res := _]> st2).
  assert (S0' : st3 !! 0%nat = Some (Pending []))
    by (unfold st3, st2, st1; rewrite !list_lookup_insert_ne by (unfold res; lia); exact S0).
  rewrite (settle_pending _ _ _ _ _ _ _ _ _ S0'). cbn [snd].
  unfold settled, console; cbn [store trace].
  rewrite list_lookup_insert_eq; [now split|]. now apply lookup_lt_Some in S0'.
Qed.

(** ** [processTasksParallelAsync] without rejections *)

Section ParallelAsyncRun.
Variable items : list value.
Let n := length items.

(** One timer, the async function it resumes and the element handler this
    triggers, when other timers remain. *)
Lemma parallel_async_round t st ag tm tr u rest :
  parallel_async_inv items (mkState t st ag tm [] tr) ->
  pop_timer tm = Some (u, rest) -> rest <> [] ->
  exists st' ag',
    run 3 (mkState t st ag tm [] tr) = mkState (t_due u) st' ag' rest [] tr
    /\ parallel_async_inv items (mkState (t_due u) st' ag' rest [] tr).
Proof.
  intros (_ & S0 & Sres & Hnd & Htm & values & Hag & Hlen & Hval) Hpop Hrest.
  cbn [store aggs timers micro] in *. fold n in Sres, Htm.
  destruct (pop_timer_split _ _ _ Hpop) as (l1 & l2 & -> & ->).
  destruct (Htm u) as (j & x & Hj & Hcb & Sd & Sj);
    [apply elem_of_app; right; apply list_elem_of_here|].
  assert (Hjn : (j < n)%nat) by (now apply lookup_lt_Some in Hj).
  set (v := summary_of x).
  set (st1 := <[S (S (j + j)) := Settled (t_due u) (Fulfilled VUndefined)]> st).
  set (st2 := <[S (j + j) := Settled (t_due u) (Fulfilled v)]> st1).
  set (values' := <[j := v]> values).
  exists st2, [mkAgg values' (length (l1 ++ l2))].
  assert (Sj1 : st1 !! S (j + j) = Some (Pending [R_all (S (n + n)) 0 j]))
    by (unfold st1; rewrite list_lookup_insert_ne; [exact Sj | lia]).
  assert (Hrun : run 3 (mkState t st ag (l1 ++ u :: l2) [] tr)
                 = mkState (t_due u) st2 [mkAgg values' (length (l1 ++ l2))]
                     (l1 ++ l2) [] tr).
  { rewrite (run_S _ _ _ (step_timer _ _ _ _ _ _ _ Hpop)).
    rewrite Hcb. cbn [fire].
    rewrite (settle_pending _ _ _ _ _ _ _ _ _ Sd). cbn [snd List.map app].
    rewrite (run_S _ _ _ (step_micro _ _ _ _ _ _ _ _)). cbn [react resume].
    fold st1. rewrite (settle_pending _ _ _ _ _ _ _ _ _ Sj1). cbn [snd List.map app].
    rewrite (run_S _ _ _ (step_micro _ _ _ _ _ _ _ _)). cbn [react all_element run].
    rewrite Hag. cbn [aggs lookup list_lookup agg_values agg_remaining].
    replace (Init.Nat.pred (length (l1 ++ u :: l2))) with (length (l1 ++ l2))
      by (rewrite !length_app; cbn; lia).
    destruct (length (l1 ++ l2)) as [|k] eqn:El;
      [destruct l1, l2; try discriminate; now contradiction Hrest|].
    reflexivity. }
  split; [exact Hrun|].
  assert (Hnd' : NoDup (List.map t_cb (l1 ++ l2))).
  { rewrite map_app in *. cbn in Hnd.
    apply NoDup_app in Hnd as (N1 & N2 & N3). apply NoDup_cons in N3 as (N3 & N4).
    apply NoDup_app; repeat split; try assumption.
    intros c Hc1 Hc2. apply (N2 c Hc1). now apply list_elem_of_further. }
  assert (Hother : forall u', u' ∈ l1 ++ l2 -> t_cb u' <> t_cb u).
  { intros u' Hu' Heq. rewrite map_app in Hnd. cbn in Hnd.
    apply NoDup_app in Hnd as (N1 & N2 & N3). apply NoDup_cons in N3 as (N3 & N4).
    apply elem_of_app in Hu' as [Hu'|Hu'].
    - apply (N2 (t_cb u')); [now apply (list_elem_of_fmap_2 t_cb)|].
      rewrite Heq. apply list_elem_of_here.
    - apply N3. rewrite <- Heq. now apply (list_elem_of_fmap_2 t_cb). }
  unfold parallel_async_inv; cbn [store aggs timers micro]. fold n.
  split; [reflexivity|].
  split; [unfold st2, st1; now rewrite !list_lookup_insert_ne|].
  split; [unfold st2, st1; rewrite !list_lookup_insert_ne; [exact Sres | lia ..]|].
  split; [exact Hnd'|].
  split.
  - intros u' Hu'.
    destruct (Htm u') as (j' & x' & Hj' & Hcb' & Sd' & Sj').
    { apply elem_of_app in Hu' as [?|?]; apply elem_of_app;
        [left | right; apply list_elem_of_further]; assumption. }
    assert (Hjj : j' <> j).
    { intros ->. apply (Hother u' Hu'). rewrite Hcb, Hcb'. reflexivity. }
    exists j', x'. repeat split; try assumption.
    + unfold st2, st1. rewrite !list_lookup_insert_ne; [exact Sd' | lia ..].
    + unfold st2, st1. rewrite !list_lookup_insert_ne; [exact Sj' | lia ..].
  - exists values'. split; [reflexivity|]. split; [unfold values'; now rewrite length_insert|].
    intros j' x' Hj'. destruct (decide (j' = j)) as [->|Hne].
    + right. unfold values', v. rewrite list_lookup_insert_eq by lia. congruence.
    + destruct (Hval j' x' Hj') as [(u' & Hu' & Hcb')|Hv].
      * left. exists u'. split; [|exact Hcb'].
        apply elem_of_app in Hu' as [?|Hu']; apply elem_of_app; [now left|].
        apply elem_of_cons in Hu' as [->|?]; [|now right].
        rewrite Hcb in Hcb'. injection Hcb' as Hcb'. lia.
      * right. unfold values'. now rewrite list_lookup_insert_ne.
Qed.

(** The last timer: its element handler completes [values], resolves the
    [Promise.all] promise and with it the policy's own. *)
Lemma parallel_async_last_round t st ag tm tr u :
  parallel_async_inv items (mkState t st ag tm [] tr) ->
  pop_timer tm = Some (u, []) ->
  let s := run 4 (mkState t st ag tm [] tr) in
  settled s 0 = Some (t_due u, Fulfilled (VArr (List.map summary_of items)))
  /\ trace s = tr.
Proof.
  intros (_ & S0 & Sres & Hnd & Htm & values & Hag & Hlen & Hval) Hpop. cbv zeta.
  cbn [store aggs timers micro] in *. fold n in Sres, Htm.
  destruct (pop_timer_split _ _ _ Hpop) as (l1 & l2 & -> & Hnil).
  symmetry in Hnil. apply app_eq_nil in Hnil as [-> ->]. cbn [app] in *.
  destruct (Htm u) as (j & x & Hj & Hcb & Sd & Sj); [apply list_elem_of_here|].
  assert (Hjn : (j < n)%nat) by (now apply lookup_lt_Some in Hj).
  assert (Hvalues : <[j := summary_of x]> values = List.map summary_of items).
  { apply values_complete; [now rewrite length_insert|].
    intros j' x' Hj'. destruct (decide (j' = j)) as [->|Hne].
    - rewrite list_lookup_insert_eq by lia. congruence.
    - rewrite list_lookup_insert_ne by congruence.
      destruct (Hval j' x' Hj') as [(u' & Hu' & Hcb')|Hv]; [|exact Hv].
      apply list_elem_of_singleton in Hu' as ->. rewrite Hcb in Hcb'.
      injection Hcb' as Hcb'. lia. }
  rewrite (run_S _ _ _ (step_timer _ _ _ _ _ _ _ Hpop)).
  rewrite Hcb. cbn [fire].
  rewrite (settle_pending _ _ _ _ _ _ _ _ _ Sd). cbn [snd List.map app].
  rewrite (run_S _ _ _ (step_micro _ _ _ _ _ _ _ _)). cbn [react resume].
  set (st1 := <[S (S (j + j)) := _]> st).
  assert (Sj1 : st1 !! S (j + j) = Some (Pending [R_all (S (n + n)) 0 j]))
    by (unfold st1; rewrite list_lookup_insert_ne; [exact Sj | lia]).
  rewrite (settle_pending _ _ _ _ _ _ _ _ _ Sj1). cbn [snd List.map app].
  rewrite (run_S _ _ _ (step_micro _ _ _ _ _ _ _ _)). cbn [react all_element].
  rewrite Hag.
  cbn [now store aggs timers micro trace lookup list_lookup agg_values agg_remaining
       length Init.Nat.pred Nat.eqb].
  fold (summary_of x). rewrite Hvalues.
  set (st2 := <[S (j + j) := _]> st1).
  assert (Sres' : st2 !! S (n + n)
                  = Some (Pending [R_await (F_processTasksParallelAsync 0)]))
    by (unfold st2, st1; rewrite !list_lookup_insert_ne; [exact Sres | lia ..]).
  rewrite (settle_pending _ _ _ _ _ _ _ _ _ Sres'). cbn [snd List.map app].
  rewrite (run_S _ _ _ (step_micro _ _ _ _ _ _ _ _)). cbn [react resume run].
  set (st3 := <[S (n + n) := _]> st2).
  assert (S0' : st3 !! 0%nat = Some (Pending []))
    by (unfold st3, st2, st1; now rewrite !list_lookup_insert_ne).
  rewrite (settle_pending _ _ _ _ _ _ _ _ _ S0'). cbn [snd].
  unfold settled; cbn [store trace].
  rewrite list_lookup_insert_eq; [now split|]. now apply lookup_lt_Some in S0'.
Qed.

Lemma parallel_async_completes k : forall t st ag tm tr,
  length tm = S k -> parallel_async_inv items (mkState t st ag tm [] tr) ->
  exists m last,
    last ∈ tm /\ (forall u, u ∈ tm -> t_due u <= t_due last)
    /\ settled (run m (mkState t st ag tm [] tr)) 0
       = Some (t_due last, Fulfilled (VArr (List.map summary_of items)))
    /\ trace (run m (mkState t st ag tm [] tr)) = tr.
Proof.
  induction k as [|k IH]; intros t st ag tm tr Hlen Hinv.
  - destruct tm as [|u0 tm]; [discriminate|].
    destruct (pop_timer_nonempty u0 tm) as (u & rest & Hpop).
    destruct (pop_timer_split _ _ _ Hpop) as (l1 & l2 & E & ->).
    assert (l1 ++ l2 = []) as Hnil.
    { apply (f_equal length) in E. rewrite length_app in E. cbn in E, Hlen.
      destruct l1, l2; cbn in *; (reflexivity || lia). }
    rewrite Hnil in Hpop. exists 4%nat, u.
    split; [now apply (pop_timer_elem _ _ _ Hpop)|].
    split; [|now apply parallel_async_last_round].
    apply app_eq_nil in Hnil as [-> ->]. rewrite E.
    intros v Hv. apply list_elem_of_singleton in Hv as ->. lia.
  - destruct tm as [|u0 tm]; [discriminate|].
    destruct (pop_timer_nonempty u0 tm) as (u & rest & Hpop).
    pose proof (pop_timer_le _ _ _ Hpop) as Hle.
    destruct (pop_timer_split _ _ _ Hpop) as (l1 & l2 & E & Erest).
    assert (Hrest : length rest = S k).
    { apply (f_equal length) in E. subst rest. rewrite !length_app in *.
      cbn in E, Hlen. lia. }
    destruct (parallel_async_round _ _ _ _ _ _ _ Hinv Hpop) as (st' & ag' & Hrun & Hinv').
    { intros ->; discriminate. }
    destruct (IH _ _ _ _ _ Hrest Hinv') as (m & last & Hin & Hmax & Hm & Htr).
    assert (Hin' : last ∈ u0 :: tm).
    { rewrite E. subst rest. apply elem_of_app in Hin as [?|?]; apply elem_of_app;
        [left | right; apply list_elem_of_further]; assumption. }
    exists (3 + m)%nat, last. split; [exact Hin'|].
    split; [|now rewrite run_add, Hrun].
    intros v Hv. rewrite E in Hv. subst rest.
    apply elem_of_app in Hv as [Hv|Hv];
      [apply Hmax, elem_of_app; now left|].
    apply elem_of_cons in Hv as [->|Hv];
      [now apply Hle | apply Hmax, elem_of_app; now right].
Qed.
End ParallelAsyncRun.

Lemma parallel_async_inv_initial items t0 tr :
  Forall succeeds items ->
  parallel_async_inv items
    (mkState t0
       (Pending [] :: async_cells (fun i => [R_all (async_end 1 items) 0 i]) 0 t0 1 items
          ++ [Pending [R_await (F_processTasksParallelAsync 0)]])
       [mkAgg (replicate (length items) VUndefined) (length items)]
       (async_timers t0 1 items) [] tr).
Proof.
  intros Hall. unfold parallel_async_inv; cbn [store aggs timers micro].
  pose proof (async_end_all_succeed items 1 Hall) as Hend. cbn [Nat.add] in Hend.
  split; [reflexivity|]. split; [reflexivity|].
  split; [rewrite <- Hend; apply async_store_result|].
  split; [|split].
  - apply NoDup_alt. intros i j c.
    change (List.map t_cb (async_timers t0 1 items))
      with (t_cb <$> async_timers t0 1 items).
    rewrite !list_lookup_fmap, !async_timers_lookup by assumption.
    destruct (items !! i) as [x|]; [|discriminate].
    destruct (items !! j) as [y|]; [|discriminate].
    cbn. intros [= <-] [= E1]. lia.
  - intros u Hu. apply list_elem_of_lookup_1 in Hu as [j Hj].
    rewrite async_timers_lookup in Hj by assumption.
    destruct (items !! j) as [x|] eqn:Hx; [|discriminate].
    injection Hj as <-. exists j, x. cbn [t_cb Nat.add].
    split; [exact Hx|]. split; [reflexivity|].
    destruct (async_store_contender (fun i => [R_all (async_end 1 items) 0 i]) t0 items
                (Pending [R_await (F_processTasksParallelAsync 0)]) j x Hall Hx) as [H1 H2].
    split; [exact H2 | rewrite <- Hend; exact H1].
  - exists (replicate (length items) VUndefined).
    rewrite async_timers_length by assumption.
    split; [reflexivity|]. split; [apply length_replicate|].
    intros j x Hx. left.
    exists (mkTimer (t0 + wait_of x) (T_delay (S (S (j + j))))).
    split; [|reflexivity].
    apply (list_elem_of_lookup_2 _ j). now rewrite async_timers_lookup, Hx.
Qed.

Lemma async_timers_elem t items u :
  Forall succeeds items ->
  u ∈ async_timers t 1 items
  <-> exists x j, items !! j = Some x /\ t_due u = t + wait_of x
                  /\ t_cb u = T_delay (S (S (j + j))).
Proof.
  intros Hall. split.
  - intros Hu. apply list_elem_of_lookup_1 in Hu as [j Hj].
    rewrite async_timers_lookup in Hj by assumption.
    destruct (items !! j) as [x|] eqn:Hx; [|discriminate].
    injection Hj as <-. exists x, j. repeat split. exact Hx.
  - intros (x & j & Hj & Hdue & Hcb).
    apply (list_elem_of_lookup_2 _ j). rewrite async_timers_lookup, Hj by assumption.
    cbn. destruct u as [due cb]; cbn in *. now subst.
Qed.

Lemma parallel_async_all_succeed items t0 :
  items <> [] -> Forall succeeds items ->
  exists slowest n,
    let s := run n (snd (processTasksParallelAsync (VArr items) (init t0))) in
    slowest ∈ items
    /\ (forall y, y ∈ items -> wait_of y <= wait_of slowest)
    /\ settled s 0 = Some (t0 + wait_of slowest, Fulfilled (VArr (List.map summary_of items)))
    /\ console s = [].
Proof.
  intros Hne Hall.
  assert (E : batch_guard (VArr items) = Ok items)
    by (destruct items; [contradiction | reflexivity]).
  destruct (processTasksParallelAsync_setup _ t0 E) as (tr & -> & Htr).
  rewrite (async_queued_all_succeed _ _ Hall).
  assert (Hlen : length (async_timers t0 1 items) = S (Init.Nat.pred (length items))).
  { rewrite async_timers_length by assumption.
    destruct items; [contradiction | reflexivity]. }
  destruct (parallel_async_completes items _ _ _ _ _ _ Hlen
              (parallel_async_inv_initial items t0 tr Hall))
    as (m & last & Hin & Hmax & H & Htrace).
  apply async_timers_elem in Hin as (x & i & Hi & Hdue & _); [|assumption].
  exists x, m. cbv zeta. split; [now apply (list_elem_of_lookup_2 _ i)|]. split; [|split].
  - intros y Hy. apply list_elem_of_lookup_1 in Hy as [j Hj].
    specialize (Hmax (mkTimer (t0 + wait_of y) (T_delay (S (S (j + j)))))).
    cbn in Hmax. rewrite Hdue in Hmax.
    assert (t0 + wait_of y <= t0 + wait_of x); [|lia].
    apply Hmax, async_timers_elem; [assumption|].
    exists y, j. repeat split. exact Hj.
  - rewrite <- Hdue. exact H.
  - unfold console. rewrite Htrace. exact Htr.
Qed.

(** ** The two spellings of each concurrent policy *)

Lemma settles_with_agree s s' p t o :
  settles_with s p t o -> settles_with s' p t o ->
  forall t' o', settles_with s p t' o' <-> settles_with s' p t' o'.
Proof.
  intros H H' t' o'. split; intros G.
  - destruct (settles_with_unique _ _ _ _ _ _ H G) as [<- <-]. exact H'.
  - destruct (settles_with_unique _ _ _ _ _ _ H' G) as [<- <-]. exact H.
Qed.

Lemma guard_settles (p : policy) batch t0 :
  p <> SequentialCallbacks -> batch_guard batch = Throw (Error msg_batch) ->
  settles_with (start_policy p batch t0) 0 t0 (Rejected (Error msg_batch)).
Proof.
  intros Hp E. apply (settles_with_intro 0). cbn [run].
  destruct (guard_rejects p batch t0 E) as (_ & H & _).
  destruct p; [contradiction | exact H ..].
Qed.

(** X13: [processTasksRaceAsync] and [processTasksRace] are the same policy.
    Whatever value they are given as the batch, both settle, and they settle
    alike: with the same result or the same error, at the same instant. *)
Theorem race_async_agrees_with_race (batch : value) (t0 : Z) :
  (exists t o, settles_with (start_policy Race batch t0) 0 t o)
  /\ forall t o,
       settles_with (start_policy Race batch t0) 0 t o
       <-> settles_with (start_policy RaceAsync batch t0) 0 t o.
Proof.
  assert (H : exists t o, settles_with (start_policy Race batch t0) 0 t o
                          /\ settles_with (start_policy RaceAsync batch t0) 0 t o).
  { destruct (batch_guard_cases batch) as [[E _]|(items & -> & Hne & _)].
    - exists t0, (Rejected (Error msg_batch)).
      split; apply guard_settles; (discriminate || exact E).
    - cbn [start_policy].
      destruct (first_failure_split items) as [Hall|(pre & x & post & e & -> & Hpre & Hx)].
      + destruct (earliest_exists items Hne) as (i & x & Hx).
        exists (t0 + wait_of x), (Fulfilled (summary_of x)). split.
        * destruct Hx as (Hi & Hmin & Hfirst). now apply (race_earliest_wins items i).
        * destruct (race_async_earliest_wins items i x t0 Hall Hx) as (n & Hn & _).
          exact (settles_with_intro n _ _ _ _ Hn).
      + exists t0, (Rejected e). split.
        * now apply race_first_rejection.
        * destruct (race_async_first_rejection pre post x e t0 Hpre Hx) as (n & Hn & _).
          exact (settles_with_intro n _ _ _ _ Hn). }
  destruct H as (t & o & H1 & H2). split; [now exists t, o|].
  exact (settles_with_agree _ _ _ _ _ H1 H2).
Qed.

(** X14: [processTasksParallelAsync] and [processTasksParallel] are the same
    policy.  Whatever value they are given as the batch, both settle, and
    they settle alike: with the same list of results or the same error, at
    the same instant. *)
Theorem parallel_async_agrees_with_parallel (batch : value) (t0 : Z) :
  (exists t o, settles_with (start_policy Parallel batch t0) 0 t o)
  /\ forall t o,
       settles_with (start_policy Parallel batch t0) 0 t o
       <-> settles_with (start_policy ParallelAsync batch t0) 0 t o.
Proof.
  assert (H : exists t o, settles_with (start_policy Parallel batch t0) 0 t o
                          /\ settles_with (start_policy ParallelAsync batch t0) 0 t o).
  { destruct (batch_guard_cases batch) as [[E _]|(items & -> & Hne & _)].
    - exists t0, (Rejected (Error msg_batch)).
      split; apply guard_settles; (discriminate || exact E).
    - cbn [start_policy].
      destruct (first_failure_split items) as [Hall|(pre & x & post & e & -> & Hpre & Hx)].
      + destruct (parallel_async_all_succeed items t0 Hne Hall)
          as (x & n & Hx & Hmax & Hn & _).
        destruct (parallel_all_succeed items t0 Hne Hall) as (y & Hy & Hmax' & H).
        assert (E : wait_of x = wait_of y).
        { specialize (Hmax y Hy). specialize (Hmax' x Hx). lia. }
        exists (t0 + wait_of y), (Fulfilled (VArr (List.map summary_of items))).
        split; [exact H|]. rewrite <- E. exact (settles_with_intro n _ _ _ _ Hn).
      + exists t0, (Rejected e). split.
        * now apply parallel_first_rejection.
        * destruct (parallel_async_first_rejection pre post x e t0 Hpre Hx) as (n & Hn & _).
          exact (settles_with_intro n _ _ _ _ Hn). }
  destruct H as (t & o & H1 & H2). split; [now exists t, o|].
  exact (settles_with_agree _ _ _ _ _ H1 H2).
Qed.

(** X15: what the await-style concurrent policies write to the console.
    When the batch has a first failing descriptor [x], then by the time its
    promise has rejected [processTasksRaceAsync] has written exactly one
    error line, [Race failed:] and the message, whatever the kind of the
    error; [processTasksParallelAsync] has written one error line naming
    the [id] of [x] when the error is a processing error, and nothing at
    all when it is a validation error. *)
Theorem concurrent_async_console_on_failure (pre post : list value) (x : value)
    (e : error) (t0 : Z) :
  Forall succeeds pre -> validateTask x = Throw e ->
  (exists n,
     let s := run n (start_policy RaceAsync (VArr (pre ++ x :: post)) t0) in
     settled s 0 = Some (t0, Rejected e)
     /\ console s = [(false, ("Race failed: " ++ error_message e)%string)])
  /\ (exists n,
        let s := run n (start_policy ParallelAsync (VArr (pre ++ x :: post)) t0) in
        settled s 0 = Some (t0, Rejected e)
        /\ console s
           = if is_validation e then []
             else [(false, ("Parallel processing failed for task "
                              ++ toString (get x "id") ++ ": " ++ error_message e)%string)]).
Proof.
  intros Hpre Hx. split.
  - exact (race_async_first_rejection pre post x e t0 Hpre Hx).
  - destruct (parallel_async_first_rejection pre post x e t0 Hpre Hx) as (n & Hn & Hc).
    exists n. cbv zeta. split; [exact Hn|].
    cbn [start_policy]. cbv zeta in Hc. rewrite Hc.
    destruct (validateTask_cases x) as [E|[(msg & E & _)|(E & _)]];
      rewrite E in Hx; [discriminate | |]; injection Hx as <-; reflexivity.
Qed.

Lemma concurrent_async_console_on_failure_witness :
  (exists n,
     let s := run n (start_policy RaceAsync
                       (VArr ([descriptor 1 "Load" 100]
                                ++ failing_descriptor 2 "Report" 500 :: [])) 0) in
     settled s 0
     = Some (0, Rejected (TaskProcessingError
                            (processing_message (failing_descriptor 2 "Report" 500))
                            (VNum 2) (VStr "Report")))
     /\ console s
        = [(false, ("Race failed: "
                      ++ error_message
                           (TaskProcessingError
                              (processing_message (failing_descriptor 2 "Report" 500))
                              (VNum 2) (VStr "Report")))%string)])
  /\ (exists n,
        let s := run n (start_policy ParallelAsync
                          (VArr ([descriptor 1 "Load" 100]
                                   ++ failing_descriptor 2 "Report" 500 :: [])) 0) in
        settled s 0
        = Some (0, Rejected (TaskProcessingError
                               (processing_message (failing_descriptor 2 "Report" 500))
                               (VNum 2) (VStr "Report")))
        /\ console s
           = if is_validation
                  (TaskProcessingError
                     (processing_message (failing_descriptor 2 "Report" 500))
                     (VNum 2) (VStr "Report"))
             then []
             else [(false, ("Parallel processing failed for task "
                              ++ toString (get (failing_descriptor 2 "Report" 500) "id")
                              ++ ": "
                              ++ error_message
                                   (TaskProcessingError
                                      (processing_message (failing_descriptor 2 "Report" 500))
                                      (VNum 2) (VStr "Report")))%string)]).
Proof.
  apply (concurrent_async_console_on_failure [descriptor 1 "Load" 100] []
           (failing_descriptor 2 "Report" 500)
           (TaskProcessingError (processing_message (failing_descriptor 2 "Report" 500))
              (VNum 2) (VStr "Report")) 0).
  - each ltac:(reflexivity).
  - reflexivity.
Defined.

(** * [Promise.all] over the executors of [asyncTasks.js] *)


Lemma getE_not_nullish task k : ~ nullish task -> getE task k = Ok (get task k).
Proof.
  intros H. destruct task; try reflexivity; exfalso; apply H; [now left | now right].
Qed.





(** ** Timers in input order *)






(** ** One timer at a time *)




Section PromiseAllRun.
Variables (items : list value) (t0 : Z).
Let n := length items.




End PromiseAllRun.



(** * The callback variant of [asyncTasks.js] *)

Section CallbackRuns.
Import AsyncTasksCallbacks.






(** ** The order of firing *)



(** ** Firing all timers of one call *)






(** ** The synchronous part *)


End CallbackRuns.




Section CallbackBatch.
Import AsyncTasksCallbacks.
Variables (items : list value) (t0 : Z).
Let n := length items.
Let ts := List.map (fun x => mkCtimer (t0 + timer_wait x) Plain x (H_element n)) items.










End CallbackBatch.

(** X17: the executors of [asyncTasks.js] agree.  For any descriptor but
    [null] and [undefined], [processTaskCallback] has not called the handler
    when it returns and the promise of [processTaskPromise] is pending;
    after [task.duration] milliseconds the handler is called once and the
    promise settles, both with the same outcome, an error carrying [null]
    as result.  [processTaskWithCustomError] differs in the error only: a
    [TaskProcessingError] carrying the [id] and [name] of the descriptor. *)
Theorem AsyncTasks_conventions_agree (task : value) (t0 : Z) :
  ~ nullish task ->
  let cb := snd (AsyncTasksCallbacks.processTaskCallback task AsyncTasksCallbacks.H_caller
                   (AsyncTasksCallbacks.c_init t0)) in
  let ce := snd (AsyncTasksCallbacks.processTaskWithCustomError task
                   AsyncTasksCallbacks.H_caller (AsyncTasksCallbacks.c_init t0)) in
  let pr := snd (AsyncTasks.processTaskPromise task (init t0)) in
  AsyncTasksCallbacks.c_calls cb = []
  /\ settled pr 0 = None
  /\ List.map reported (AsyncTasksCallbacks.c_calls (AsyncTasksCallbacks.crun 1 cb))
     = [(t0 + timer_wait task, task_outcome task)]
  /\ settled (run 1 pr) 0 = Some (t0 + timer_wait task, task_outcome task)
  /\ List.map reported (AsyncTasksCallbacks.c_calls (AsyncTasksCallbacks.crun 1 ce))
     = [(t0 + timer_wait task,
         if failing task then
           Rejected (TaskProcessingError
                       ("Failed: " ++ dquote ++ toString (get task "name") ++ dquote)%string
                       (get task "id") (get task "name"))
         else Fulfilled (task_completed task))]
  /\ (forall c, c ∈ AsyncTasksCallbacks.c_calls (AsyncTasksCallbacks.crun 1 cb) ->
        failing task = true -> snd c = VNull).
Proof.
  intros Hn. cbv zeta.
  unfold AsyncTasksCallbacks.processTaskCallback, AsyncTasksCallbacks.processTaskWithCustomError,
    AsyncTasksCallbacks.arm, AsyncTasks.processTaskPromise.
  rewrite (getE_not_nullish _ _ Hn). machine.
  split; [reflexivity|]. split; [reflexivity|].
  unfold step, AsyncTasksCallbacks.cstep, AsyncTasksCallbacks.cfire. machine.
  unfold AsyncTasks.on_timeout, task_outcome, task_failed, task_completed, failing, timer_wait.
  destruct (truthy (get task "shouldFail")); machine; repeat split;
    intros c Hc; try discriminate; apply list_elem_of_singleton in Hc as ->; reflexivity.
Qed.

Lemma AsyncTasks_conventions_agree_witness :
  settled (run 1 (snd (AsyncTasks.processTaskPromise
                         (VObj [("id", VNum 5); ("name", VStr "Validate");
                                ("duration", VNum 200); ("shouldFail", VBool true)])
                         (init 0)))) 0
  = Some (0 + timer_wait (VObj [("id", VNum 5); ("name", VStr "Validate");
                                ("duration", VNum 200); ("shouldFail", VBool true)]),
          task_outcome (VObj [("id", VNum 5); ("name", VStr "Validate");
                              ("duration", VNum 200); ("shouldFail", VBool true)])).
Proof.
  refine (proj1 (proj2 (proj2 (proj2
            (AsyncTasks_conventions_agree
               (VObj [("id", VNum 5); ("name", VStr "Validate");
                      ("duration", VNum 200); ("shouldFail", VBool true)]) 0 _))))).
  intros [H | H]; discriminate H.
Defined.





(** * [Promise.race] over the executors of [asyncTasks.js] *)




(** * Nothing is cancelled *)

Lemma created_timers_done t0 items : forall base,
  Forall succeeds items ->
  created_timers t0 base items
  = imap (fun j x => done_timer t0 (base + j) x) items.
Proof.
  induction items as [|x items IH]; intros base H; [reflexivity|].
  inversion H as [|? ? Hx Hrest]; subst.
  cbn [created_timers imap]. rewrite Hx, (IH (S base) Hrest). cbn [app].
  rewrite Nat.add_0_r. f_equal. apply imap_ext. intros j y _. cbn.
  now rewrite Nat.add_succ_r.
Qed.


Section RaceRun.
Variables (items : list value) (t0 : Z).
Let res := S (length items).



End RaceRun.


